(** * leelo: the client access pipeline, embedded and verified

    Shallow embedding of the sliding-window rate limiter, the bounded
    TTL cache, the token manager and the retrying request dispatcher of
    the repository, with the properties the specification states about
    them.

    Conventions of the embedding.
    - JavaScript numbers that hold timestamps, counts and sizes are
      integers of [Z]; the arithmetic on them is exact in the source as
      long as it stays below 2^53.  The jitter of the backoff, a
      fraction in the source, is a rational of [Q]: the embedding is exact
      where the source rounds a double.  The eviction score of the cache
      is a double, as in the source: its two divisions round.
    - Every method reads the clock once: [Date.now()] is the argument
      [now] of the embedded method.
    - A method that mutates [this] returns the new object next to its
      result; a method that may throw returns a [result]. *)

From Stdlib Require Import ZArith QArith Qround Qminmax Qpower.
From Stdlib Require Import List Bool String Ascii DecimalString Lia Lqa.
From Stdlib Require DecimalPos SpecFloat.
Import ListNotations.
Local Open Scope Q_scope.
Local Open Scope Z_scope.

(** ** Common definitions *)

(** What a call yields: a value, or a thrown [Error] with its message. *)
Inductive result (A : Type) : Type :=
| Returned (a : A)
| Thrown (msg : string).
Arguments Returned {A} a.
Arguments Thrown {A} msg.

Definition isThrown {A : Type} (r : result A) : bool :=
  match r with Thrown _ => true | Returned _ => false end.

(** [String(n)] and template interpolation of an integer. *)
Definition show_Z (z : Z) : string := NilZero.string_of_int (Z.to_int z).

(** [xs.length] as a JavaScript number. *)
Definition len {A : Type} (xs : list A) : Z := Z.of_nat (List.length xs).

(** A list of numbers that never go down, such as the clock from one call
    to the next. *)
Fixpoint nondecreasing (xs : list Z) : Prop :=
  match xs with
  | [] => True
  | a :: rest =>
      match rest with
      | [] => True
      | b :: _ => a <= b /\ nondecreasing rest
      end
  end.

(** *** Doubles

    A number of the source that is not kept as an integer is a double: a
    binary64 float of the Standard Library's specification of IEEE 754
    arithmetic, which rounds to the nearest float, a tie going to the even
    one.  [toDouble] is the double of an integer, the integer itself up to
    2^53; [fdiv] and [flt] are [/] and [<] on doubles. *)
Definition double : Type := SpecFloat.spec_float.

Definition toDouble (z : Z) : double :=
  SpecFloat.binary_normalize 53 1024 z 0 false.

Definition fdiv (x y : double) : double := SpecFloat.SFdiv 53 1024 x y.

Definition flt (x y : double) : bool := SpecFloat.SFltb x y.

Definition Infinity : double := SpecFloat.S754_infinity false.

(** *** Strings

    A string is a sequence of UTF-16 code units in the source; here it is a
    sequence of code units below 256 (Latin-1).  Characters beyond Latin-1
    are outside the embedding. *)

Definition strlen (s : string) : Z := Z.of_nat (String.length s).

Definition code (c : ascii) : Z := Z.of_nat (nat_of_ascii c).

Definition between (lo hi : Z) (c : ascii) : bool :=
  (lo <=? code c) && (code c <=? hi).

(** One character of [toLowerCase]: A-Z, and the capital letters of
    Latin-1 (U+00C0 to U+00DE but the multiplication sign U+00D7). *)
Definition lowerChar (c : ascii) : ascii :=
  if between 65 90 c
     || (between 192 222 c && negb (code c =? 215))
  then ascii_of_nat (nat_of_ascii c + 32)
  else c.

Fixpoint mapString (f : ascii -> ascii) (s : string) : string :=
  match s with
  | EmptyString => EmptyString
  | String c rest => String (f c) (mapString f rest)
  end.

Definition toLowerCase (s : string) : string := mapString lowerChar s.

(** White space and line terminators of [trim]: tab, line feed, vertical
    tab, form feed, carriage return, space, no-break space. *)
Definition isWhiteSpace (c : ascii) : bool :=
  between 9 13 c || (code c =? 32) || (code c =? 160).

Fixpoint trimStart (s : string) : string :=
  match s with
  | EmptyString => EmptyString
  | String c rest => if isWhiteSpace c then trimStart rest else s
  end.

Fixpoint trimEnd (s : string) : string :=
  match s with
  | EmptyString => EmptyString
  | String c rest =>
      match trimEnd rest with
      | EmptyString => if isWhiteSpace c then EmptyString
                       else String c EmptyString
      | rest' => String c rest'
      end
  end.

Definition trim (s : string) : string := trimEnd (trimStart s).

(** Every character of the string satisfies [p]. *)
Fixpoint everyChar (p : ascii -> bool) (s : string) : bool :=
  match s with
  | EmptyString => true
  | String c rest => p c && everyChar p rest
  end.

Definition notColon (c : ascii) : bool := negb (code c =? 58).

Definition notSpace (c : ascii) : bool := negb (isWhiteSpace c).

Definition isDigitOrMinus (c : ascii) : bool :=
  between 48 57 c || (code c =? 45).

(** [s.includes(needle)]. *)
Fixpoint includes (needle s : string) : bool :=
  String.prefix needle s
  || match s with
     | EmptyString => false
     | String _ rest => includes needle rest
     end.

Definition startsWith (p s : string) : bool := String.prefix p s.

Definition dropString (n : nat) (s : string) : string :=
  String.substring n (String.length s - n) s.

Definition endsWith (suffix s : string) : bool :=
  (String.length suffix <=? String.length s)%nat
  && String.eqb (dropString (String.length s - String.length suffix) s) suffix.

(** [parts.join(sep)]. *)
Fixpoint join (sep : string) (parts : list string) : string :=
  match parts with
  | [] => EmptyString
  | [p] => p
  | p :: rest => (p ++ sep ++ join sep rest)%string
  end.

(** [ToInt32]: what [x | 0] and [x << n] leave of an integer. *)
Definition toInt32 (z : Z) : Z := (z + 2 ^ 31) mod 2 ^ 32 - 2 ^ 31.

(** The digits of [n.toString(36)]. *)
Definition digit36 (d : Z) : ascii :=
  if d <? 10 then ascii_of_nat (Z.to_nat (48 + d))
  else ascii_of_nat (Z.to_nat (97 + (d - 10))).

Fixpoint digits36 (fuel : nat) (n : Z) (acc : string) : string :=
  match fuel with
  | O => acc
  | S fuel' =>
      let acc' := String (digit36 (n mod 36)) acc in
      if n / 36 =? 0 then acc' else digits36 fuel' (n / 36) acc'
  end.

Definition toString36 (n : Z) : string :=
  let digits := digits36 (S (Z.to_nat (Z.log2 (Z.abs n)))) (Z.abs n) EmptyString in
  if n <? 0 then String "-"%char digits else digits.

(** A number that may be [NaN]. *)
Inductive num : Type :=
| Num (z : Z)
| NaN.

Definition show_num (n : num) : string :=
  match n with
  | Num z => show_Z z
  | NaN => "NaN"
  end.

(** A thrown JavaScript error, as far as the dispatcher inspects it:
    [error.name], [error.code], [error.cause] and [error.message]. *)
Record JsCause : Type := {
  cause_code : option string;
  cause_message : option string;
  cause_hostname : option string
}.

Record JsError : Type := {
  err_name : string;
  err_code : option string;
  err_cause : option JsCause;
  err_message : string
}.

(** [new Error(message)]. *)
Definition newError (message : string) : JsError :=
  {| err_name := "Error"; err_code := None; err_cause := None;
     err_message := message |}.

(** What an asynchronous call settles to. *)
Inductive settled (A : Type) : Type :=
| Resolved (a : A)
| Rejected (error : JsError).
Arguments Resolved {A} a.
Arguments Rejected {A} error.

Definition newline : string := String (ascii_of_nat 10) EmptyString.

(** ** The sliding-window rate limiter ([class RateLimiter] of
    core/rate-limiter) *)

Module RateLimiter.

Record RateLimiterOptions : Type := {
  opt_limit : Z;
  opt_window : Z;            (* in milliseconds *)
  opt_name : option string   (* for logging *)
}.

Record t : Type := mk {
  requests : list Z;
  limit : Z;
  window : Z;
  name : string
}.

Definition constructor (options : RateLimiterOptions) : t :=
  {| requests := [];
     limit := opt_limit options;
     window := opt_window options;
     name := match opt_name options with
             | Some n => n
             | None => "RateLimiter"%string
             end |}.

Definition with_requests (this : t) (rs : list Z) : t :=
  {| requests := rs; limit := limit this; window := window this;
     name := name this |}.

(** The predicate of [cleanup]: [now - timestamp < this.window]. *)
Definition inWindow (this : t) (now timestamp : Z) : bool :=
  now - timestamp <? window this.

Definition cleanup (now : Z) (this : t) : t :=
  with_requests this (filter (inWindow this now) (requests this)).

Definition canMakeRequest (now : Z) (this : t) : bool * t :=
  let this := cleanup now this in
  (len (requests this) <? limit this, this).

Definition limitMessage (this : t) : string :=
  ("Rate limit exceeded for " ++ name this ++ ": " ++ show_Z (limit this)
     ++ " requests per " ++ show_Z (window this) ++ "ms")%string.

Definition recordRequest (now : Z) (this : t) : result unit * t :=
  let this := cleanup now this in
  if len (requests this) >=? limit this
  then (Thrown (limitMessage this), this)
  else (Returned tt, with_requests this (requests this ++ [now])).

(** [tryRequest]: the check, then the record; each of the two calls reads
    the clock. *)
Definition tryRequest (now now' : Z) (this : t) : result bool * t :=
  let (can, this) := canMakeRequest now this in
  if can then
    match recordRequest now' this with
    | (Returned _, this) => (Returned true, this)
    | (Thrown msg, this) => (Thrown msg, this)
    end
  else (Returned false, this).

Definition reset (this : t) : t := with_requests this [].

(** [Math.ceil(x / 1000)]. *)
Definition ceilSeconds (ms : Z) : Z := - ((- ms) / 1000).

(** [timeUntilNextRequest]: with a full window that holds nothing (a limit
    that is not positive) [this.requests[0]] is [undefined] and the result
    is [NaN]. *)
Definition timeUntilNextRequest (now : Z) (this : t) : num * t :=
  let this := cleanup now this in
  if len (requests this) <? limit this then (Num 0, this)
  else match requests this with
       | [] => (NaN, this)
       | oldestRequest :: _ =>
           let timeUntilExpiry := (oldestRequest + window this) - now in
           (Num (Z.max 0 (ceilSeconds timeUntilExpiry)), this)
       end.

(** [getErrorMessage], with [stats.used] and [stats.timeUntilReset] of
    [getStats] (the warning sign that opens the first message is left
    out). *)
Definition getErrorMessage (authenticated : bool) (now : Z) (this : t)
  : string * t :=
  let this := cleanup now this in
  let used := len (requests this) in
  let (timeUntilReset, this) := timeUntilNextRequest now this in
  if negb authenticated
  then (("Rate limit reached! You get " ++ show_Z (limit this)
          ++ " requests/min without auth." ++ newline ++ newline
          ++ "Want 10x more requests? Run: reddit-mcp-buddy --auth (2-min setup)"
          ++ newline ++ "Or wait " ++ show_num timeUntilReset ++ " seconds..."
          ++ newline ++ newline ++ "Cached data may still be available.")%string,
        this)
  else (("Rate limit reached (" ++ show_Z used ++ "/" ++ show_Z (limit this)
          ++ "). Wait " ++ show_num timeUntilReset ++ " seconds.")%string,
        this).

(** [getStats].  [percentUsed] is [((used / limit) * 100).toFixed(1)], a
    text that the number formatter makes: it is [percent used limit], for a
    [percent] that the embedding leaves open.  [stat_window] is the window
    in seconds. *)
Record Stats : Type := {
  used : Z;
  stat_limit : Z;
  available : Z;
  percentUsed : string;
  timeUntilReset : num;
  stat_window : Q
}.

Section WithFormat.

Variable percent : Z -> Z -> string.

Definition getStats (now : Z) (this : t) : Stats * t :=
  let this := cleanup now this in
  let used := len (requests this) in
  let (timeUntilReset, this') := timeUntilNextRequest now this in
  ({| used := used;
      stat_limit := limit this;
      available := Z.max 0 (limit this - used);
      percentUsed := percent used (limit this);
      timeUntilReset := timeUntilReset;
      stat_window := (inject_Z (window this) / 1000)%Q |},
   this').

End WithFormat.

(** A caller of the limiter: which method it calls. *)
Inductive call : Type := CanMakeRequest | RecordRequest.

(** Run timed calls in order; next to the limiter, keep the timestamps of
    the requests that [recordRequest] admitted (it never forgets any). *)
Fixpoint run (this : t) (admitted : list Z) (calls : list (Z * call))
  : t * list Z :=
  match calls with
  | [] => (this, admitted)
  | (now, CanMakeRequest) :: rest =>
      run (snd (canMakeRequest now this)) admitted rest
  | (now, RecordRequest) :: rest =>
      match recordRequest now this with
      | (Returned _, this') => run this' (admitted ++ [now]) rest
      | (Thrown _, this') => run this' admitted rest
      end
  end.

(** How many admitted requests lie in the trailing interval of length [W]
    that ends at [T], the timestamps [ts] with [T - W < ts <= T]. *)
Definition admittedWithin (W T : Z) (admitted : list Z) : Z :=
  len (filter (fun ts => (T - W <? ts) && (ts <=? T)) admitted).

(** The clock of the calls never goes back, starting at [last]. *)
Fixpoint after (last : Z) (calls : list (Z * call)) : Prop :=
  match calls with
  | [] => True
  | (now, _) :: rest => last <= now /\ after now rest
  end.

(** What holds of the limiter and of the admitted timestamps between two
    calls, when the window is positive: the limiter holds the admitted
    timestamps that were in the window at the last call. *)
Record inv (last : Z) (this : t) (admitted : list Z) : Prop := {
  inv_window : requests this = filter (inWindow this last) admitted;
  inv_past : Forall (fun ts => ts <= last) admitted;
  inv_bound : forall T, admittedWithin (window this) T admitted <= limit this
}.

(** A limiter of two requests per second and five calls on it, the third
    of which finds the window full. *)
Definition twoPerSecond : RateLimiterOptions :=
  {| opt_limit := 2; opt_window := 1000; opt_name := None |}.

Definition fiveCalls : list (Z * call) :=
  [(0, RecordRequest); (1, RecordRequest); (2, RecordRequest);
   (500, CanMakeRequest); (1001, RecordRequest)].

End RateLimiter.

(** ** The compound limiter ([class CompoundRateLimiter] of
    core/rate-limiter) *)

Module CompoundRateLimiter.

(** [Map<string, RateLimiter>]: the entries in insertion order, one per
    name. *)
Definition t : Type := list (string * RateLimiter.t).

(** [Map.prototype.set]: an existing name keeps its place. *)
Fixpoint mapSet (name : string) (limiter : RateLimiter.t) (m : t) : t :=
  match m with
  | [] => [(name, limiter)]
  | (n, l) :: rest =>
      if String.eqb n name then (n, limiter) :: rest
      else (n, l) :: mapSet name limiter rest
  end.

Definition addLimiter (name : string)
  (options : RateLimiter.RateLimiterOptions) (this : t) : t :=
  mapSet name
    (RateLimiter.constructor
       {| RateLimiter.opt_limit := RateLimiter.opt_limit options;
          RateLimiter.opt_window := RateLimiter.opt_window options;
          RateLimiter.opt_name := Some name |})
    this.

(** The loop of [canMakeRequest] returns at the first member that does not
    admit; the members after it are not visited. *)
Fixpoint canMakeRequest (now : Z) (this : t) : bool * t :=
  match this with
  | [] => (true, [])
  | (n, limiter) :: rest =>
      let (can, limiter') := RateLimiter.canMakeRequest now limiter in
      if can
      then let (r, rest') := canMakeRequest now rest in (r, (n, limiter') :: rest')
      else (false, (n, limiter') :: rest)
  end.

(** The loop of [recordRequest] records on each member in turn and throws
    at the first member that throws. *)
Fixpoint recordRequest (now : Z) (this : t) : result unit * t :=
  match this with
  | [] => (Returned tt, [])
  | (n, limiter) :: rest =>
      match RateLimiter.recordRequest now limiter with
      | (Thrown msg, limiter') =>
          (Thrown ("Compound rate limit exceeded: " ++ msg), (n, limiter') :: rest)
      | (Returned _, limiter') =>
          let (r, rest') := recordRequest now rest in (r, (n, limiter') :: rest')
      end
  end.

Definition resetAll (this : t) : t :=
  map (fun e => (fst e, RateLimiter.reset (snd e))) this.

(** [Math.max] of two numbers, either of which may be [NaN]. *)
Definition maxNum (a b : num) : num :=
  match a, b with
  | Num x, Num y => Num (Z.max x y)
  | _, _ => NaN
  end.

(** The loop of [timeUntilNextRequest], from [maxTime] on. *)
Fixpoint untilNext (now : Z) (maxTime : num) (this : t) : num * t :=
  match this with
  | [] => (maxTime, [])
  | (n, limiter) :: rest =>
      let (time, limiter') := RateLimiter.timeUntilNextRequest now limiter in
      let (r, rest') := untilNext now (maxNum maxTime time) rest in
      (r, (n, limiter') :: rest')
  end.

Definition timeUntilNextRequest (now : Z) (this : t) : num * t :=
  if len this =? 0 then (Num 0, this) else untilNext now (Num 0) this.

Section WithFormat.

Variable percent : Z -> Z -> string.

(** [getBlockingLimiter]: [None] is [null]. *)
Fixpoint getBlockingLimiter (now : Z) (this : t)
  : option (string * RateLimiter.Stats) * t :=
  match this with
  | [] => (None, [])
  | (n, limiter) :: rest =>
      let (can, limiter') := RateLimiter.canMakeRequest now limiter in
      if can
      then let (r, rest') := getBlockingLimiter now rest in
           (r, (n, limiter') :: rest')
      else let (stats, limiter'') := RateLimiter.getStats percent now limiter' in
           (Some (n, stats), (n, limiter'') :: rest)
  end.

End WithFormat.

(** Every member pruned at [now]. *)
Definition pruned (now : Z) (this : t) : t :=
  map (fun e => (fst e, RateLimiter.cleanup now (snd e))) this.

(** A member with a limit of one request or more that holds no more than
    its limit. *)
Definition within (e : string * RateLimiter.t) : Prop :=
  1 <= RateLimiter.limit (snd e)
  /\ len (RateLimiter.requests (snd e)) <= RateLimiter.limit (snd e).

(** A member whose window is still full once it is pruned at [now]. *)
Definition full (now : Z) (limiter : RateLimiter.t) : bool :=
  len (RateLimiter.requests (RateLimiter.cleanup now limiter))
    >=? RateLimiter.limit limiter.

(** A member on which [recordRequest] succeeded at [now]. *)
Definition recorded (now : Z) (limiter : RateLimiter.t) : RateLimiter.t :=
  RateLimiter.with_requests (RateLimiter.cleanup now limiter)
    (RateLimiter.requests (RateLimiter.cleanup now limiter) ++ [now]).

(** A member that admits at [now], and a member after a record. *)
Definition room (now : Z) (e : string * RateLimiter.t) : bool :=
  negb (full now (snd e)).

Definition record (now : Z) (e : string * RateLimiter.t)
  : string * RateLimiter.t :=
  (fst e, recorded now (snd e)).

(** The timestamps each member holds, by name. *)
Definition timestamps (this : t) : list (string * list Z) :=
  map (fun e => (fst e, RateLimiter.requests (snd e))) this.

(** Two members: at most two requests a minute and at most one a second,
    after one request recorded at time 0. *)
Definition twoTier : t :=
  addLimiter "burst"
    {| RateLimiter.opt_limit := 1; RateLimiter.opt_window := 1000;
       RateLimiter.opt_name := None |}
    (addLimiter "minute"
       {| RateLimiter.opt_limit := 2; RateLimiter.opt_window := 60000;
          RateLimiter.opt_name := None |}
       []).

Definition twoTierAfterOne : t := snd (recordRequest 0 twoTier).

End CompoundRateLimiter.

(** ** The cache ([class CacheManager] of core/cache) *)

Module CacheManager.

(** The regular expressions of [ttlByPattern] are of two shapes. *)
Inductive pattern : Type :=
| SubredditListing (sort : string)   (* /^subreddit:.*:sort$/ *)
| KeyPrefix (prefix : string).       (* /^prefix/ *)

(** [.] matches any character but a line terminator. *)
Fixpoint noLineTerminator (s : string) : bool :=
  match s with
  | EmptyString => true
  | String c rest =>
      negb ((code c =? 10) || (code c =? 13)) && noLineTerminator rest
  end.

(** [pattern.test(key)]. *)
Definition test (p : pattern) (key : string) : bool :=
  match p with
  | KeyPrefix prefix => startsWith prefix key
  | SubredditListing sort =>
      let tail := (":" ++ sort)%string in
      let rest := dropString 10 key in
      startsWith "subreddit:" key
      && endsWith tail rest
      && noLineTerminator
           (String.substring 0 (String.length rest - String.length tail) rest)
  end.

Definition ttlByPattern : list (pattern * Z) :=
  [ (SubredditListing "hot", 5 * 60 * 1000);
    (SubredditListing "new", 2 * 60 * 1000);
    (SubredditListing "top", 30 * 60 * 1000);
    (KeyPrefix "post:", 10 * 60 * 1000);
    (KeyPrefix "user:", 15 * 60 * 1000);
    (KeyPrefix "search:", 10 * 60 * 1000) ].

(** The loop over [ttlByPattern.entries()] of [set]: the first pattern that
    matches gives the TTL. *)
Fixpoint patternTTL (patterns : list (pattern * Z)) (key : string)
  (ttl : Z) : Z :=
  match patterns with
  | [] => ttl
  | (p, patternTtl) :: rest =>
      if test p key then patternTtl else patternTTL rest key ttl
  end.

Record CacheOptions : Type := {
  opt_maxSize : option Z;          (* max size in bytes *)
  opt_defaultTTL : option Z;       (* default TTL in ms *)
  opt_cleanupInterval : option Z   (* cleanup interval in ms *)
}.

Section WithData.

(** The type of the cached values, and [JSON.stringify] on it: [None] when
    it throws or yields [undefined]. *)
Context {T : Type}.
Variable stringify : T -> option string.

Record CacheEntry : Type := {
  data : T;
  timestamp : Z;
  size : Z;
  hits : Z;
  expiresAt : Z
}.

(** [cache] is the [Map] of the source, its entries in insertion order. *)
Record t : Type := {
  cache : list (string * CacheEntry);
  sizeUsed : Z;
  maxSize : Z;
  defaultTTL : Z
}.

Definition constructor (options : CacheOptions) : t :=
  {| cache := [];
     sizeUsed := 0;
     maxSize := match opt_maxSize options with
                | Some m => m
                | None => 50 * 1024 * 1024
                end;
     defaultTTL := match opt_defaultTTL options with
                   | Some d => d
                   | None => 5 * 60 * 1000
                   end |}.

Definition estimateSize (d : T) : Z :=
  match stringify d with
  | Some json => strlen json * 2
  | None => 1024
  end.

(** [Map.prototype.get], [delete] and the update in place of an entry. *)
Fixpoint lookup (key : string) (entries : list (string * CacheEntry))
  : option CacheEntry :=
  match entries with
  | [] => None
  | (k, e) :: rest => if String.eqb k key then Some e else lookup key rest
  end.

Definition remove (key : string) (entries : list (string * CacheEntry))
  : list (string * CacheEntry) :=
  filter (fun ke => negb (String.eqb (fst ke) key)) entries.

Fixpoint replace (key : string) (e' : CacheEntry)
  (entries : list (string * CacheEntry)) : list (string * CacheEntry) :=
  match entries with
  | [] => []
  | (k, e) :: rest =>
      if String.eqb k key then (k, e') :: rest
      else (k, e) :: replace key e' rest
  end.

Definition delete (key : string) (this : t) : bool * t :=
  match lookup key (cache this) with
  | None => (false, this)
  | Some entry =>
      (true,
       {| cache := remove key (cache this);
          sizeUsed := sizeUsed this - size entry;
          maxSize := maxSize this;
          defaultTTL := defaultTTL this |})
  end.

Definition hit (entry : CacheEntry) : CacheEntry :=
  {| data := data entry; timestamp := timestamp entry; size := size entry;
     hits := hits entry + 1; expiresAt := expiresAt entry |}.

(** [get]: [None] is the [null] of a miss. *)
Definition get (key : string) (now : Z) (this : t) : option T * t :=
  match lookup key (cache this) with
  | None => (None, this)
  | Some entry =>
      if now >=? expiresAt entry then (None, snd (delete key this))
      else (Some (data entry),
            {| cache := replace key (hit entry) (cache this);
               sizeUsed := sizeUsed this;
               maxSize := maxSize this;
               defaultTTL := defaultTTL this |})
  end.

Definition has (key : string) (now : Z) (this : t) : bool * t :=
  match lookup key (cache this) with
  | None => (false, this)
  | Some entry =>
      if now >=? expiresAt entry then (false, snd (delete key this))
      else (true, this)
  end.

Definition clear (this : t) : t :=
  {| cache := []; sizeUsed := 0; maxSize := maxSize this;
     defaultTTL := defaultTTL this |}.

(** The score of [evictLRU]: hits per second of age, the age being at
    least one millisecond.  [entry.hits / (age / 1000)] is two divisions
    of doubles, each of them rounded. *)
Definition age (now : Z) (entry : CacheEntry) : Z :=
  Z.max 1 (now - timestamp entry).

Definition score (now : Z) (entry : CacheEntry) : double :=
  fdiv (toDouble (hits entry)) (fdiv (toDouble (age now entry)) (toDouble 1000)).

(** [score < minScore] on doubles.  [None] is the [Infinity] the loop
    starts from, which the first score is below: the hits and the age are
    integers that a double holds, so that a score is a finite number. *)
Definition below (s : double) (minScore : option double) : bool :=
  match minScore with
  | None => true
  | Some m => flt s m
  end.

(** The loop of [evictLRU] over [cache.entries()]. *)
Fixpoint scan (now : Z) (entries : list (string * CacheEntry))
  (lruKey : option string) (minScore : option double) : option string :=
  match entries with
  | [] => lruKey
  | (key, entry) :: rest =>
      if below (score now entry) minScore
      then scan now rest (Some key) (Some (score now entry))
      else scan now rest lruKey minScore
  end.


(** [if (lruKey)] is false for [null] and for the empty string. *)
Definition evictLRU (now : Z) (this : t) : t :=
  match scan now (cache this) None None with
  | None => this
  | Some lruKey =>
      if String.eqb lruKey "" then this else snd (delete lruKey this)
  end.

(** The condition of the loop of [set]. *)
Definition needsRoom (sz : Z) (this : t) : bool :=
  (sizeUsed this + sz >? maxSize this) && (len (cache this) >? 0).

(** The loop of [set]; [None] when [fuel] rounds do not end it. *)
Fixpoint evictWhile (fuel : nat) (now sz : Z) (this : t) : option t :=
  if needsRoom sz this
  then match fuel with
       | O => None
       | S fuel' => evictWhile fuel' now sz (evictLRU now this)
       end
  else Some this.

(** [set].  A round of the loop that evicts nothing leaves the cache as it
    was, and the loop then never ends: the result is [None].  Otherwise
    every round removes an entry, and as many rounds as there are entries
    are enough. *)
Definition set (key : string) (d : T) (customTTL : option Z) (now : Z)
  (this : t) : option t :=
  let sz := estimateSize d in
  if sz >? maxSize this then Some this
  else
    match evictWhile (List.length (cache this)) now sz this with
    | None => None
    | Some this =>
        let this :=
          match lookup key (cache this) with
          | Some _ => snd (delete key this)
          | None => this
          end in
        let ttl :=
          match customTTL with
          | Some custom =>
              if custom >? 0 then custom
              else patternTTL ttlByPattern key (defaultTTL this)
          | None => patternTTL ttlByPattern key (defaultTTL this)
          end in
        let entry :=
          {| data := d; timestamp := now; expiresAt := now + ttl;
             size := sz; hits := 0 |} in
        Some {| cache := cache this ++ [(key, entry)];
                sizeUsed := sizeUsed this + sz;
                maxSize := maxSize this;
                defaultTTL := defaultTTL this |}
    end.

(** Two steps of [set] by name: the removal of the old entry of the key,
    and the TTL the new entry gets. *)
Definition withoutOld (key : string) (this : t) : t :=
  match lookup key (cache this) with
  | Some _ => snd (delete key this)
  | None => this
  end.

Definition ttlOf (key : string) (customTTL : option Z) (this : t) : Z :=
  match customTTL with
  | Some custom =>
      if custom >? 0 then custom
      else patternTTL ttlByPattern key (defaultTTL this)
  | None => patternTTL ttlByPattern key (defaultTTL this)
  end.

(** The periodic sweep. *)
Definition cleanup (now : Z) (this : t) : t :=
  let keysToDelete :=
    map fst (filter (fun ke => now >=? expiresAt (snd ke)) (cache this)) in
  fold_left (fun this key => snd (delete key this)) keysToDelete this.

(** The calls a client and the timer make. *)
Inductive op : Type :=
| OpSet (key : string) (d : T) (customTTL : option Z)
| OpGet (key : string)
| OpHas (key : string)
| OpDelete (key : string)
| OpEvictLRU
| OpCleanup
| OpClear.

Definition step (now : Z) (o : op) (this : t) : option t :=
  match o with
  | OpSet key d customTTL => set key d customTTL now this
  | OpGet key => Some (snd (get key now this))
  | OpHas key => Some (snd (has key now this))
  | OpDelete key => Some (snd (delete key this))
  | OpEvictLRU => Some (evictLRU now this)
  | OpCleanup => Some (cleanup now this)
  | OpClear => Some (clear this)
  end.

Fixpoint run (ops : list (Z * op)) (this : t) : option t :=
  match ops with
  | [] => Some this
  | (now, o) :: rest =>
      match step now o this with
      | None => None
      | Some this' => run rest this'
      end
  end.

(** The key an operation stores under, if it stores. *)
Definition storedKey (o : op) : option string :=
  match o with
  | OpSet key _ _ => Some key
  | _ => None
  end.

(** The sum of the sizes of the stored entries. *)
Definition storedSize (entries : list (string * CacheEntry)) : Z :=
  fold_right (fun ke acc => size (snd ke) + acc) 0 entries.

(** The keys of the [Map]. *)
Definition keys (entries : list (string * CacheEntry)) : list string :=
  map fst entries.

(** What every cache built by the methods satisfies: the keys are distinct,
    no size is negative, and [sizeUsed] is the sum of the sizes of the
    stored entries. *)
Record wf (this : t) : Prop := {
  wf_keys : NoDup (keys (cache this));
  wf_sizes : Forall (fun ke => 0 <= size (snd ke)) (cache this);
  wf_used : sizeUsed this = storedSize (cache this)
}.

(** Well formed, and within the capacity. *)
Definition bounded (this : t) : Prop :=
  wf this /\ sizeUsed this <= maxSize this.

(** The specification's reading of the counter: the sum of the sizes of the
    entries that expire after [now]. *)
Definition specLiveSize (now : Z) (entries : list (string * CacheEntry)) : Z :=
  storedSize (filter (fun ke => expiresAt (snd ke) >? now) entries).


End WithData.

Arguments CacheEntry T : clear implicits.
Arguments t T : clear implicits.
Arguments op T : clear implicits.

(** *** [CacheManager.createKey]

    A part is a string, a number (an integer here), a boolean, [undefined]
    or [null]. *)
Inductive part : Type :=
| PString (s : string)
| PNumber (n : Z)
| PBoolean (b : bool)
| PUndefined
| PNull.

(** [p !== undefined && p !== null] fails. *)
Definition nullish (p : part) : bool :=
  match p with
  | PUndefined | PNull => true
  | _ => false
  end.

(** [String(p)]. *)
Definition toString (p : part) : string :=
  match p with
  | PString s => s
  | PNumber n => show_Z n
  | PBoolean true => "true"
  | PBoolean false => "false"
  | PUndefined => "undefined"
  | PNull => "null"
  end.

(** [String(p).toLowerCase().trim()]. *)
Definition normalize (p : part) : string := trim (toLowerCase (toString p)).

(** [str.replace(/[^a-z0-9_-]/g, '_')]. *)
Definition isKeyChar (c : ascii) : bool :=
  between 97 122 c || between 48 57 c || (code c =? 95) || (code c =? 45).

Definition sanitize (str : string) : string :=
  mapString (fun c => if isKeyChar c then c else "_"%char) str.

(** [validParts.map(...)]: the callback throws at the first part that is
    empty once normalized. *)
Fixpoint stringParts (validParts : list part) : result (list string) :=
  match validParts with
  | [] => Returned []
  | p :: rest =>
      let str := normalize p in
      if strlen str =? 0
      then Thrown "Cache key parts cannot be empty strings"
      else match stringParts rest with
           | Thrown msg => Thrown msg
           | Returned strs => Returned (sanitize str :: strs)
           end
  end.

(** The fold [((acc << 5) - acc + char.charCodeAt(0)) | 0] over the key. *)
Fixpoint hashChars (acc : Z) (key : string) : Z :=
  match key with
  | EmptyString => acc
  | String char rest =>
      hashChars (toInt32 (toInt32 (Z.shiftl acc 5) - acc + code char)) rest
  end.

Definition createKey (parts : list part) : result string :=
  let validParts := filter (fun p => negb (nullish p)) parts in
  if len validParts =? 0
  then Thrown "Cache key must have at least one part"
  else
    match stringParts validParts with
    | Thrown msg => Thrown msg
    | Returned strs =>
        let key := join ":" strs in
        if strlen key >? 256
        then Returned (String.substring 0 245 key ++ "_"
                         ++ toString36 (hashChars 0 key))%string
        else Returned key
    end.

(** The characters of a key, and the parts of a key as they stand in
    it. *)
Definition isKeyOrColon (c : ascii) : bool :=
  isKeyChar c || (code c =? 58).

Definition keyParts (parts : list part) : list string :=
  map (fun p => sanitize (normalize p))
    (filter (fun p => negb (nullish p)) parts).

(** The sorts that the patterns of [ttlByPattern] name. *)
Definition listingSorts : list string := ["hot"; "new"; "top"]%string.

(** A part that is not [undefined] or [null] and is empty once
    normalized. *)
Definition emptyPart (p : part) : bool :=
  negb (nullish p) && (strlen (normalize p) =? 0).

(** *** Sample caches, over values that are their own JSON text *)

Definition textOptions (maxBytes : Z) : CacheOptions :=
  {| opt_maxSize := Some maxBytes; opt_defaultTTL := None;
     opt_cleanupInterval := Some 0 |}.

Definition textCache (maxBytes : Z) : t string :=
  constructor (textOptions maxBytes).

(** A cache of 100 bytes: "a" stored at time 0 and read ten times, "b"
    stored at time 4900 and read once. *)
Definition twoEntriesOps : list (Z * op string) :=
  (0, OpSet "a"%string "0123456789"%string None)
    :: repeat (1, OpGet "a"%string) 10
    ++ [(4900, OpSet "b"%string "0123456789"%string None);
        (4901, OpGet "b"%string)].

Definition twoEntries : option (t string) :=
  run Some twoEntriesOps (textCache 100).

(** "a" stored at time 0 for one second, "b" stored at time 2000. *)
Definition oneExpired : option (t string) :=
  run Some
    [(0, OpSet "a"%string "0123456789"%string (Some 1000));
     (2000, OpSet "b"%string "abcdef"%string (Some 1000))]
    (textCache 100).

(** A cache of 30 bytes that holds one entry, under the empty key. *)
Definition emptyKeyCache : t string :=
  match run Some [(0, OpSet EmptyString "0123456789"%string None)] (textCache 30) with
  | Some c => c
  | None => textCache 30
  end.

(** A cache of 100 bytes: "a" stored at time 0 and read three times, "b"
    stored at time 6 and read once. *)
Definition thirds : option (t string) :=
  run Some
    ((0, OpSet "a"%string "0123456789"%string None)
       :: repeat (1, OpGet "a"%string) 3
       ++ [(6, OpSet "b"%string "0123456789"%string None);
           (7, OpGet "b"%string)])
    (textCache 100).

(** The caches the runs end in. *)
Definition thirdsCache : t string :=
  match thirds with Some c => c | None => textCache 100 end.

Definition twoEntriesCache : t string :=
  match twoEntries with Some c => c | None => textCache 100 end.

Definition oneExpiredCache : t string :=
  match oneExpired with Some c => c | None => textCache 100 end.

End CacheManager.

(** ** The dispatcher ([class RedditAPI] of services/reddit-api) *)

Module RedditAPI.

Definition baseUrl : string := "https://www.reddit.com".
Definition oauthUrl : string := "https://oauth.reddit.com".
Definition MAX_BACKOFF_MS : Z := 30000.
Definition INITIAL_BACKOFF_MS : Z := 100.
Definition BACKOFF_MULTIPLIER : Z := 2.

(** [Math.round]: the nearest integer, a tie going up. *)
Definition round (x : Q) : Z := Qfloor (x + (1 # 2)).

(** [calculateBackoff]; [random] is the outcome of [Math.random()], a
    number from 0 to 1. *)
Definition calculateBackoff (retriesLeft : Z) (random : Q) : Z :=
  let maxRetries := 2 in
  let retriesUsed := maxRetries - retriesLeft in
  let baseBackoff :=
    (inject_Z INITIAL_BACKOFF_MS * inject_Z BACKOFF_MULTIPLIER ^ retriesUsed)%Q in
  let cappedBackoff := Qmin baseBackoff (inject_Z MAX_BACKOFF_MS) in
  let jitter := (cappedBackoff * (2 # 10) * (random * 2 - 1))%Q in
  let backoff := Qmax 0 (cappedBackoff + jitter) in
  round backoff.

(** Two steps of [calculateBackoff] by name: the capped backoff, and the
    delay before it is rounded. *)
Definition capped (retriesLeft : Z) : Q :=
  Qmin (inject_Z INITIAL_BACKOFF_MS
        * inject_Z BACKOFF_MULTIPLIER ^ (2 - retriesLeft))%Q
    (inject_Z MAX_BACKOFF_MS).

Definition jittered (retriesLeft : Z) (random : Q) : Q :=
  Qmax 0 (capped retriesLeft
          + capped retriesLeft * (2 # 10) * (random * 2 - 1))%Q.

(** A response, as far as [getImpl] reads it.  [retryAfterTime] is
    [new Date(retryAfter).getTime()], [None] when the header is no date. *)
Record Response (Data : Type) : Type := {
  status : Z;
  retryAfter : option string;
  retryAfterTime : option Z;
  contentType : option string;
  text : result string;
  json : settled Data
}.
Arguments status {Data} r.
Arguments retryAfter {Data} r.
Arguments retryAfterTime {Data} r.
Arguments contentType {Data} r.
Arguments text {Data} r.
Arguments json {Data} r.

Definition ok {Data : Type} (response : Response Data) : bool :=
  (200 <=? status response) && (status response <=? 299).

(** [parseInt(s, 10)]: leading white space, a sign, then digits; [None] is
    [NaN]. *)
Definition isDigit (c : ascii) : bool := between 48 57 c.

Fixpoint digitsValue (s : string) (acc : option Z) : option Z :=
  match s with
  | EmptyString => acc
  | String c rest =>
      if isDigit c
      then digitsValue rest
             (Some (10 * match acc with Some a => a | None => 0 end
                    + (code c - 48)))
      else acc
  end.

Definition parseInt (s : string) : option Z :=
  match trimStart s with
  | String "-"%char rest => option_map Z.opp (digitsValue rest None)
  | String "+"%char rest => digitsValue rest None
  | s' => digitsValue s' None
  end.

(** [getRetryAfterDelay]: [None] is [null]. *)
Definition getRetryAfterDelay {Data : Type} (response : Response Data)
  (now : Z) : option num :=
  match retryAfter response with
  | None => None
  | Some header =>
      if String.eqb header "" then None
      else match parseInt header with
           | Some seconds => Some (Num (Z.min (seconds * 1000) MAX_BACKOFF_MS))
           | None =>
               match retryAfterTime response with
               | Some retryDate =>
                   let delay := retryDate - now in
                   Some (Num (Z.max 0 (Z.min delay MAX_BACKOFF_MS)))
               | None => Some NaN
               end
           end
  end.

(** [endpoint.match(/\/r\/([^\/]+)/)]: the first "/r/" that a character
    other than "/" follows, and the characters up to the next "/". *)
Fixpoint segment (s : string) : string :=
  match s with
  | EmptyString => EmptyString
  | String c rest =>
      if code c =? 47 then EmptyString else String c (segment rest)
  end.

Fixpoint subredditMatch (endpoint : string) : option string :=
  let name := segment (dropString 3 endpoint) in
  if startsWith "/r/" endpoint && negb (String.eqb name "")
  then Some name
  else match endpoint with
       | EmptyString => None
       | String _ rest => subredditMatch rest
       end.

(** [contentType.toLowerCase().split(';')[0].trim()]. *)
Fixpoint beforeSemicolon (s : string) : string :=
  match s with
  | EmptyString => EmptyString
  | String c rest =>
      if code c =? 59 then EmptyString else String c (beforeSemicolon rest)
  end.

Definition isHtml {Data : Type} (response : Response Data) : bool :=
  match contentType response with
  | None => false
  | Some ct =>
      if String.eqb ct "" then false
      else
        let normalizedType := trim (beforeSemicolon (toLowerCase ct)) in
        String.eqb normalizedType "text/html"
        || String.eqb normalizedType "application/xhtml+xml"
  end.

(** The messages of the errors [getImpl] makes. *)
Definition notFoundMessage (endpoint : string) : string :=
  ("Not found - r/"
     ++ match subredditMatch endpoint with
        | Some subredditName => subredditName
        | None => "resource"
        end
     ++ " does not exist or is inaccessible")%string.

Definition forbiddenMessage (endpoint : string) : string :=
  match subredditMatch endpoint with
  | Some subredditName =>
      ("Cannot access r/" ++ subredditName
         ++ " - it may be private, quarantined, or doesn't exist. Try a public subreddit like 'programming', 'technology', or 'news'")%string
  | None =>
      "Access forbidden - the requested content may be private or restricted"
  end.

Definition htmlMessage : string :=
  "Reddit returned HTML instead of JSON - the subreddit may be inaccessible or there may be a Reddit issue".

Definition apiErrorMessage {Data : Type} (response : Response Data) : string :=
  ("Reddit API error (" ++ show_Z (status response) ++ "): "
     ++ match text response with
        | Returned errorText => errorText
        | Thrown _ => "Unable to read error response"
        end)%string.

(** What [fetch] settles to. *)
Inductive fetched (Data : Type) : Type :=
| Responded (response : Response Data)
| Failed (error : JsError).
Arguments Responded {Data} response.
Arguments Failed {Data} error.

(** What the world does during one attempt of [getImpl]: the clock, the
    token manager, the network, the random generator, and the requests
    that other calls in flight record on the shared limiter while this one
    awaits the response. *)
Record attempt (Data : Type) : Type := {
  at_before : list Z;              (* records of the calls in flight *)
  at_check : Z;                    (* Date.now() in canMakeRequest *)
  at_headers : settled unit;       (* auth.getHeaders() *)
  at_authenticated : bool;         (* auth.isAuthenticated() *)
  at_fetch : fetched Data;         (* fetch(...) *)
  at_others : list Z;              (* the same, during the fetch *)
  at_record : Z;                   (* Date.now() in recordRequest *)
  at_refresh : settled unit;       (* auth.refreshAccessToken() *)
  at_headers_again : settled unit; (* auth.getHeaders() after a refresh *)
  at_now : Z;                      (* Date.now() in getRetryAfterDelay *)
  at_random : Q                    (* Math.random() in calculateBackoff *)
}.
Arguments at_before {Data} a.
Arguments at_check {Data} a.
Arguments at_headers {Data} a.
Arguments at_authenticated {Data} a.
Arguments at_fetch {Data} a.
Arguments at_others {Data} a.
Arguments at_record {Data} a.
Arguments at_refresh {Data} a.
Arguments at_headers_again {Data} a.
Arguments at_now {Data} a.
Arguments at_random {Data} a.

(** What an attempt does that the world sees. *)
Inductive event : Type :=
| Fetch (url : string)
| Refresh
| BackoffWait (ms : Z)         (* the delay of calculateBackoff *)
| RetryAfterWait (ms : num).   (* the delay the server asked for *)

Section WithData.

Context {Data : Type}.

(** The result of [getImpl]: what it settles to, what it did, and the
    limiter it leaves. *)
Definition outcome : Type := settled Data * list event * RateLimiter.t.

Definition fails (error : JsError) (limiter : RateLimiter.t) : outcome :=
  (Rejected error, [], limiter).

(** An attempt, then the rest of the call. *)
Definition andThen (e : event) (rest : outcome) : outcome :=
  let '(r, events, limiter) := rest in (r, e :: events, limiter).

Definition hasCode (error : JsError) (c : string) : bool :=
  match err_code error with
  | Some c' => String.eqb c' c
  | None => false
  end.

(** The [catch] clause of [getImpl].  [again] is the call
    [this.getImpl(endpoint, retries - 1)], there when [retries > 0]. *)
Definition catchClause (a : attempt Data) (retries : nat)
  (again : option (RateLimiter.t -> outcome)) (error : JsError)
  (limiter : RateLimiter.t) : outcome :=
  let backoffMs := calculateBackoff (Z.of_nat retries) (at_random a) in
  if String.eqb (err_name error) "AbortError" then
    match again with
    | Some retry => andThen (BackoffWait backoffMs) (retry limiter)
    | None =>
        fails (newError "Request timeout (10s exceeded) - Reddit may be slow or unreachable. Try again or check if Reddit is blocked on your network.") limiter
    end
  else
    match (if hasCode error "ECONNRESET" then again else None) with
    | Some retry => andThen (BackoffWait backoffMs) (retry limiter)
    | None =>
        if hasCode error "ENOTFOUND" then
          fails (newError "Cannot resolve Reddit domain - check DNS settings or if Reddit is blocked by your ISP/firewall") limiter
        else if hasCode error "ECONNREFUSED" then
          fails (newError "Connection refused - Reddit may be blocked by firewall or network policy") limiter
        else if hasCode error "ETIMEDOUT" then
          match again with
          | Some retry => andThen (BackoffWait backoffMs) (retry limiter)
          | None =>
              fails (newError "Connection timeout - Reddit may be blocked or network is unstable") limiter
          end
        else if hasCode error "UNABLE_TO_VERIFY_LEAF_SIGNATURE" then
          fails (newError "SSL certificate error - may be caused by proxy or firewall") limiter
        else
          match err_cause error with
          | Some {| cause_code := Some "ENOTFOUND"%string;
                    cause_hostname := hostname |} =>
              fails (newError
                       ("Cannot reach Reddit servers - "
                          ++ match hostname with
                             | Some h => if String.eqb h "" then "reddit.com" else h
                             | None => "reddit.com"
                             end
                          ++ " is not accessible. Check if Reddit is blocked in your region/network.")%string)
                limiter
          | cause =>
              if includes "fetch failed" (err_message error) then
                let details :=
                  match cause with
                  | Some c =>
                      (" ("
                         ++ match cause_code c with
                            | Some cc =>
                                if String.eqb cc ""
                                then match cause_message c with
                                     | Some m => m
                                     | None => "undefined"
                                     end
                                else cc
                            | None =>
                                match cause_message c with
                                | Some m => m
                                | None => "undefined"
                                end
                            end
                         ++ ")")%string
                  | None => EmptyString
                  end in
                fails (newError
                         ("Failed to connect to Reddit" ++ details
                            ++ ". Common causes: firewall blocking, geo-restriction, or ISP blocking Reddit.")%string)
                  limiter
              else if includes "fetch" (err_message error) then
                fails (newError
                         ("Network error accessing Reddit: " ++ err_message error
                            ++ ". If Reddit works in your browser, try using a VPN.")%string)
                  limiter
              else fails error limiter
          end
    end.

(** [throw new Error(message)] inside the [try]: the [catch] clause takes
    it. *)
Definition throwNew (a : attempt Data) (retries : nat)
  (again : option (RateLimiter.t -> outcome)) (limiter : RateLimiter.t)
  (message : string) : outcome :=
  catchClause a retries again (newError message) limiter.

(** The calls in flight record on the shared limiter. *)
Definition others (times : list Z) (limiter : RateLimiter.t) : RateLimiter.t :=
  fold_left (fun l now => snd (RateLimiter.recordRequest now l)) times limiter.

(** The body of [getImpl] for one attempt. *)
Definition attemptOnce (endpoint : string) (a : attempt Data) (retries : nat)
  (again : option (RateLimiter.t -> outcome)) (limiter : RateLimiter.t)
  : outcome :=
  let limiter := others (at_before a) limiter in
  let (can, limiter) := RateLimiter.canMakeRequest (at_check a) limiter in
  if negb can then
    let (message, limiter) :=
      RateLimiter.getErrorMessage (at_authenticated a) (at_check a) limiter in
    fails (newError message) limiter
  else
    match at_headers a with
    | Rejected error => fails error limiter
    | Resolved _ =>
        let isAuthenticated := at_authenticated a in
        let url :=
          ((if isAuthenticated then oauthUrl else baseUrl) ++ endpoint)%string in
        let limiter := others (at_others a) limiter in
        andThen (Fetch url)
          match at_fetch a with
          | Failed error => catchClause a retries again error limiter
          | Responded response =>
              match RateLimiter.recordRequest (at_record a) limiter with
              | (Thrown message, limiter) =>
                  throwNew a retries again limiter message
              | (Returned _, limiter) =>
                  match
                    (if (status response =? 401) && isAuthenticated
                     then again else None)
                  with
                  | Some retry =>
                      andThen Refresh
                        match at_refresh a with
                        | Rejected _ =>
                            throwNew a retries again limiter
                              "Authentication failed. Please run: reddit-mcp-buddy --auth"
                        | Resolved _ =>
                            match at_headers_again a with
                            | Rejected _ =>
                                throwNew a retries again limiter
                                  "Authentication failed. Please run: reddit-mcp-buddy --auth"
                            | Resolved _ => retry limiter
                            end
                        end
                  | None =>
                      if negb (ok response) then
                        match
                          (if (status response =? 503)
                              || (status response =? 429)
                           then again else None)
                        with
                        | Some retry =>
                            match getRetryAfterDelay response (at_now a) with
                            | Some retryAfterDelay =>
                                andThen (RetryAfterWait retryAfterDelay)
                                  (retry limiter)
                            | None =>
                                andThen
                                  (BackoffWait
                                     (calculateBackoff (Z.of_nat retries)
                                        (at_random a)))
                                  (retry limiter)
                            end
                        | None =>
                            throwNew a retries again limiter
                              (if status response =? 404 then
                                 notFoundMessage endpoint
                               else if status response =? 403 then
                                 forbiddenMessage endpoint
                               else if status response =? 429 then
                                 "Rate limited by Reddit - please wait before trying again"
                               else if status response =? 503 then
                                 "Reddit is temporarily unavailable - please try again later"
                               else apiErrorMessage response)
                        end
                      else if isHtml response then
                        throwNew a retries again limiter htmlMessage
                      else
                        match json response with
                        | Resolved data => (Resolved data, [], limiter)
                        | Rejected error =>
                            catchClause a retries again error limiter
                        end
                  end
              end
          end
    end.

(** [getImpl(endpoint, retries)] as its [n]-th attempt, the world being
    [world]. *)
Fixpoint getImpl (endpoint : string) (retries : nat) (n : nat)
  (world : nat -> attempt Data) (limiter : RateLimiter.t) : outcome :=
  attemptOnce endpoint (world n) retries
    match retries with
    | O => None
    | S retries' => Some (getImpl endpoint retries' (S n) world)
    end
    limiter.

(** Events, then the rest of the call. *)
Definition prepend (events : list event) (rest : outcome) : outcome :=
  let '(r, events', limiter) := rest in (r, events ++ events', limiter).

(** The attempt gets a response and records it on the limiter: the limiter
    admits, the headers are there, [fetch] resolves and [recordRequest]
    returns. *)
Definition answered (a : attempt Data) (limiter : RateLimiter.t)
  : option (Response Data * RateLimiter.t) :=
  let limiter := others (at_before a) limiter in
  let (can, limiter) := RateLimiter.canMakeRequest (at_check a) limiter in
  if can then
    match at_headers a, at_fetch a with
    | Resolved _, Responded response =>
        match
          RateLimiter.recordRequest (at_record a) (others (at_others a) limiter)
        with
        | (Returned _, limiter) => Some (response, limiter)
        | (Thrown _, _) => None
        end
    | _, _ => None
    end
  else None.

Definition urlOf (a : attempt Data) (endpoint : string) : string :=
  ((if at_authenticated a then oauthUrl else baseUrl) ++ endpoint)%string.

(** The delays of [calculateBackoff] among the events, in order. *)
Fixpoint backoffWaits (events : list event) : list Z :=
  match events with
  | [] => []
  | BackoffWait ms :: rest => ms :: backoffWaits rest
  | _ :: rest => backoffWaits rest
  end.

(** The message the [catch] clause leaves of an error made by
    [new Error(message)] inside the [try]. *)
Definition surfaced (message : string) : JsError :=
  if includes "fetch failed" message then
    newError "Failed to connect to Reddit. Common causes: firewall blocking, geo-restriction, or ISP blocking Reddit."
  else if includes "fetch" message then
    newError ("Network error accessing Reddit: " ++ message
                ++ ". If Reddit works in your browser, try using a VPN.")%string
  else newError message.

End WithData.

(** The calls of [fetch] among the events, and the waits. *)
Definition isFetch (e : event) : bool :=
  match e with
  | Fetch _ => true
  | _ => false
  end.

Definition isWait (e : event) : bool :=
  match e with
  | BackoffWait _ | RetryAfterWait _ => true
  | _ => false
  end.

Definition isRefresh (e : event) : bool :=
  match e with
  | Refresh => true
  | _ => false
  end.

Definition count (p : event -> bool) (events : list event) : nat :=
  List.length (filter p events).

(** *** Request deduplication ([get])

    The two [Map]s by endpoint are lists in insertion order; a promise is
    named by its place among the calls of [getImpl]. *)

Definition IN_FLIGHT_REQUEST_TTL_MS : Z := 5 * 60 * 1000.

Fixpoint mapGet {A : Type} (key : string) (m : list (string * A)) : option A :=
  match m with
  | [] => None
  | (k, v) :: rest => if String.eqb k key then Some v else mapGet key rest
  end.

(** [Map.prototype.set]: an existing key keeps its place. *)
Fixpoint mapSet {A : Type} (key : string) (v : A) (m : list (string * A))
  : list (string * A) :=
  match m with
  | [] => [(key, v)]
  | (k, v0) :: rest =>
      if String.eqb k key then (k, v) :: rest
      else (k, v0) :: mapSet key v rest
  end.

Definition mapDelete {A : Type} (key : string) (m : list (string * A))
  : list (string * A) :=
  filter (fun kv => negb (String.eqb (fst kv) key)) m.

Record inFlight : Type := {
  inFlightRequests : list (string * nat);
  inFlightRequestTimestamps : list (string * Z);
  getImplCalls : list string   (* the endpoint of each call of getImpl *)
}.

(** No request in flight. *)
Definition idle : inFlight :=
  {| inFlightRequests := []; inFlightRequestTimestamps := [];
     getImplCalls := [] |}.

(** The two [delete]s, of [cleanupStaleInFlightRequests] and of the
    [finally] callback of [get]. *)
Definition forget (endpoint : string) (this : inFlight) : inFlight :=
  {| inFlightRequests := mapDelete endpoint (inFlightRequests this);
     inFlightRequestTimestamps :=
       mapDelete endpoint (inFlightRequestTimestamps this);
     getImplCalls := getImplCalls this |}.

Definition cleanupStaleInFlightRequests (now : Z) (this : inFlight)
  : inFlight :=
  fold_left
    (fun this entry =>
       if now - snd entry >? IN_FLIGHT_REQUEST_TTL_MS
       then forget (fst entry) this
       else this)
    (inFlightRequestTimestamps this) this.

(** [get], up to the promise it returns.  [nowCleanup] is the clock of
    [cleanupStaleInFlightRequests] and [now] the clock of the timestamp. *)
Definition get (endpoint : string) (nowCleanup now : Z) (this : inFlight)
  : nat * inFlight :=
  let this := cleanupStaleInFlightRequests nowCleanup this in
  match mapGet endpoint (inFlightRequests this) with
  | Some inFlightRequest => (inFlightRequest, this)
  | None =>
      let requestPromise := List.length (getImplCalls this) in
      (requestPromise,
       {| inFlightRequests :=
            mapSet endpoint requestPromise (inFlightRequests this);
          inFlightRequestTimestamps :=
            mapSet endpoint now (inFlightRequestTimestamps this);
          getImplCalls := getImplCalls this ++ [endpoint] |})
  end.

(** What happens to the dispatcher: a call of [get], and the [finally]
    callback of a promise made for [endpoint], once that promise is
    settled. *)
Inductive flight : Type :=
| Get (endpoint : string) (nowCleanup now : Z)
| Settled (endpoint : string).

Definition fly (e : flight) (this : inFlight) : inFlight :=
  match e with
  | Get endpoint nowCleanup now => snd (get endpoint nowCleanup now this)
  | Settled endpoint => forget endpoint this
  end.

(** The dispatcher after the events, in order. *)
Definition flights (events : list flight) (this : inFlight) : inFlight :=
  fold_left (fun this e => fly e this) events this.

(** While the request for [endpoint] stamped at [stamp] is in flight: no
    [finally] callback for the endpoint runs, and no call of [get] finds
    the request older than five minutes. *)
Definition pending (endpoint : string) (stamp : Z) (e : flight) : Prop :=
  match e with
  | Get _ nowCleanup _ => nowCleanup - stamp <= IN_FLIGHT_REQUEST_TTL_MS
  | Settled endpoint' => endpoint' <> endpoint
  end.

(** How many calls of [getImpl] were made for [endpoint]. *)
Definition callsFor (endpoint : string) (this : inFlight) : nat :=
  List.length (filter (String.eqb endpoint) (getImplCalls this)).

(** The request for [endpoint] is in flight: it is the promise [promise],
    stamped at [stamp], and [calls] calls of [getImpl] were made for the
    endpoint. *)
Definition flying (endpoint : string) (promise : nat) (stamp : Z)
  (calls : nat) (this : inFlight) : Prop :=
  mapGet endpoint (inFlightRequests this) = Some promise
  /\ mapGet endpoint (inFlightRequestTimestamps this) = Some stamp
  /\ NoDup (map fst (inFlightRequestTimestamps this))
  /\ callsFor endpoint this = calls.

(** *** The cache keys of the public methods *)

Inductive listingSort : Type := Hot | New | Top | Rising | Controversial.

Definition listingSortName (sort : listingSort) : string :=
  match sort with
  | Hot => "hot"
  | New => "new"
  | Top => "top"
  | Rising => "rising"
  | Controversial => "controversial"
  end.

Inductive timeRange : Type := Hour | Day | Week | Month | Year | All.

Definition timeRangeName (time : timeRange) : string :=
  match time with
  | Hour => "hour"
  | Day => "day"
  | Week => "week"
  | Month => "month"
  | Year => "year"
  | All => "all"
  end.

Inductive searchSort : Type :=
| Relevance | SearchHot | SearchTop | SearchNew | Comments.

Definition searchSortName (sort : searchSort) : string :=
  match sort with
  | Relevance => "relevance"
  | SearchHot => "hot"
  | SearchTop => "top"
  | SearchNew => "new"
  | Comments => "comments"
  end.

Inductive userSort : Type := UserNew | UserTop | UserHot.

Definition userSortName (sort : userSort) : string :=
  match sort with
  | UserNew => "new"
  | UserTop => "top"
  | UserHot => "hot"
  end.

Inductive userListing : Type := Submitted | UserComments.

Definition userListingName (type : userListing) : string :=
  match type with
  | Submitted => "submitted"
  | UserComments => "comments"
  end.

(** An optional string as a part of a key: [undefined] when absent. *)
Definition optionalPart (s : option string) : CacheManager.part :=
  match s with
  | Some str => CacheManager.PString str
  | None => CacheManager.PUndefined
  end.

Definition quote : string := String (ascii_of_nat 34) EmptyString.

Definition subredditRequiredMessage : string :=
  ("Subreddit name is required. Try " ++ quote ++ "programming" ++ quote
     ++ ", " ++ quote ++ "technology" ++ quote ++ ", " ++ quote ++ "news"
     ++ quote ++ ", or " ++ quote ++ "AskReddit" ++ quote)%string.

(** [subreddit.replace(/^r\//, '').trim()]. *)
Definition cleanSubreddit (subreddit : string) : string :=
  trim (if startsWith "r/" subreddit then dropString 2 subreddit
        else subreddit).

(** [browseSubreddit] up to its cache key; an argument that is [None] is
    left out by the caller. *)
Definition browseSubredditKey (subreddit : string) (sort : option listingSort)
  (limit : option Z) (time : option timeRange) (after : option string)
  : result string :=
  if String.eqb subreddit "" || String.eqb (trim subreddit) ""
  then Thrown subredditRequiredMessage
  else
    let subreddit := cleanSubreddit subreddit in
    let sort := match sort with Some s => s | None => Hot end in
    let limit := match limit with Some l => l | None => 10 end in
    CacheManager.createKey
      [CacheManager.PString "subreddit"; CacheManager.PString subreddit;
       CacheManager.PString (listingSortName sort);
       CacheManager.PNumber limit;
       optionalPart (option_map timeRangeName time);
       optionalPart after].

(** [search] up to its cache key. *)
Definition searchKey (query : string) (subreddit : option string)
  (sort : option searchSort) (time : option timeRange) (limit : option Z)
  (after : option string) : result string :=
  let sort := match sort with Some s => s | None => Relevance end in
  let time := match time with Some t => t | None => All end in
  let limit := match limit with Some l => l | None => 10 end in
  CacheManager.createKey
    [CacheManager.PString "search"; CacheManager.PString query;
     optionalPart subreddit;
     CacheManager.PString (searchSortName sort);
     CacheManager.PString (timeRangeName time);
     CacheManager.PNumber limit;
     optionalPart after].

(** [getUser], [getUserPosts], [getSubreddit] and [getTrending] up to their
    cache keys. *)
Definition getUserKey (username : string) : result string :=
  CacheManager.createKey
    [CacheManager.PString "user"; CacheManager.PString username].

Definition getUserPostsKey (username : string) (type : option userListing)
  (sort : option userSort) (time : option timeRange) (limit : option Z)
  : result string :=
  let type := match type with Some t => t | None => Submitted end in
  let sort := match sort with Some s => s | None => UserNew end in
  let time := match time with Some t => t | None => All end in
  let limit := match limit with Some l => l | None => 10 end in
  CacheManager.createKey
    [CacheManager.PString "user-posts"; CacheManager.PString username;
     CacheManager.PString (userListingName type);
     CacheManager.PString (userSortName sort);
     CacheManager.PString (timeRangeName time);
     CacheManager.PNumber limit].

Definition getSubredditKey (name : string) : result string :=
  CacheManager.createKey
    [CacheManager.PString "subreddit-info"; CacheManager.PString name].

Definition getTrendingKey : result string :=
  CacheManager.createKey [CacheManager.PString "trending"].

(** *** [browseSubreddit]

    The listing is a value of [Data], an object: [if (cached)] holds of
    every cached listing.  [stringify] is [JSON.stringify] on listings, and
    [encode] gives the text of a value in the query string, as
    [URLSearchParams] writes it; the text of the limit, "1" and the names
    of the time ranges are written as they are.  The calls are taken one
    after the other: no other call touches the cache while this one awaits
    the response. *)

Section WithCache.

Context {Data : Type}.
Variable stringify : Data -> option string.
Variable encode : string -> string.



End WithCache.

(** *** Sample worlds *)











End RedditAPI.

(** ** The token manager ([class AuthManager] of core/auth)

    The asynchronous methods are embedded as a machine that takes one
    event at a time: between two awaits a method runs without
    interruption, as JavaScript runs it, and the callers that await a
    settled promise go on in any order. *)

Module AuthManager.

Record AuthConfig : Type := {
  clientId : string;
  accessToken : option string;
  refreshToken : option string;
  expiresAt : option Z;
  scope : option string;
  userAgent : option string;
  deviceId : option string
}.

Definition TOKEN_EXPIRATION_BUFFER_MS : Z := 10000.

(** A string that is there and not empty: what [if (s)] tests. *)
Definition truthy (s : option string) : bool :=
  match s with
  | Some str => negb (String.eqb str "")
  | None => false
  end.

(** [s || null]. *)
Definition orNull (s : option string) : option string :=
  if truthy s then s else None.

Definition isTokenExpired (config : option AuthConfig) (now : Z) : bool :=
  match config with
  | None => true
  | Some c =>
      match expiresAt c with
      | None => true
      | Some e =>
          if (e =? 0) || (e <=? 0) then true
          else
            let expirationThreshold := e - TOKEN_EXPIRATION_BUFFER_MS in
            now >=? expirationThreshold
      end
  end.

(** The condition of [getAccessToken] under which it waits for a refresh. *)
Definition needsRefresh (c : AuthConfig) (now : Z) : bool :=
  negb (truthy (accessToken c)) || isTokenExpired (Some c) now.

(** The body of the token endpoint's answer, as far as the schema reads
    it: a field is [None] when it is missing or of the wrong type. *)
Record TokenResponse : Type := {
  access_token : option string;
  token_type : option string;
  expires_in : option Z;
  response_scope : option string
}.

(** [OAuthTokenResponseSchema.parse] succeeds. *)
Definition wellFormed (raw : TokenResponse) : bool :=
  truthy (access_token raw) && truthy (token_type raw)
  && match expires_in raw with Some n => 0 <? n | None => false end
  && match response_scope raw with Some _ => true | None => false end.

(** What the token endpoint does with a request. *)
Inductive answer : Type :=
| NetworkFailure (error : JsError)          (* fetch rejects *)
| HttpError (status : Z) (body : string)    (* !response.ok *)
| BadJson (error : JsError)                 (* response.json() rejects *)
| Body (raw : TokenResponse).

(** [`${error}`]. *)
Definition errorText (error : JsError) : string :=
  (err_name error ++ ": " ++ err_message error)%string.

(** The [catch] clause of [doRefreshAccessToken]. *)
Definition refreshFailed (error : JsError) : JsError :=
  newError ("Failed to refresh access token: " ++ errorText error)%string.

(** A call of [doRefreshAccessToken], and so the promise it returned: it
    awaits the token endpoint, then it awaits [save], then it is
    settled. *)
Inductive refresh : Type :=
| Fetching
| Saving
| Fulfilled
| Failed (error : JsError).

(** A call of [getAccessToken] that has not returned at once is at one of
    its awaits: of [this.tokenRefreshPromise], or of
    [this.refreshAccessToken()], which is itself at [await refreshPromise]
    or past its [finally] and about to return or throw. *)
Inductive caller : Type :=
| AwaitingRefresh (p : nat)
| Refreshing (p : nat)
| Returning (thrown : option JsError)
| Done (r : settled (option string)).

(** The manager, the promises of its refreshes in the order they were
    made, its callers in the order they called, and the number of requests
    made to the token endpoint. *)
Record t : Type := {
  config : option AuthConfig;
  tokenRefreshPromise : option nat;
  refreshes : list refresh;
  callers : list caller;
  tokenRequests : nat
}.

(** A manager after [load], with nothing in flight. *)
Definition start (config : option AuthConfig) : t :=
  {| config := config; tokenRefreshPromise := None; refreshes := [];
     callers := []; tokenRequests := 0 |}.

(** What happens to the manager: a call of [getAccessToken], the answer of
    the token endpoint to the refresh [p], the end of the [save] of the
    refresh [p], and the caller [i] going on after the promise it awaits is
    settled. *)
Inductive event : Type :=
| Call (now : Z) (randomId : string)
| Answer (p : nat) (a : answer) (now : Z)
| Saved (p : nat) (r : result unit)
| Resume (i : nat).

Fixpoint setNth {A : Type} (n : nat) (x : A) (xs : list A) {struct xs}
  : list A :=
  match xs with
  | [] => []
  | y :: rest =>
      match n with
      | O => x :: rest
      | S n' => y :: setNth n' x rest
      end
  end.

(** [getAccessToken] up to its first await or its return; with it
    [refreshAccessToken] and [doRefreshAccessToken] up to theirs. *)
Definition call (now : Z) (randomId : string) (this : t) : t :=
  match config this with
  | None =>
      {| config := None;
         tokenRefreshPromise := tokenRefreshPromise this;
         refreshes := refreshes this;
         callers := callers this ++ [Done (Resolved None)];
         tokenRequests := tokenRequests this |}
  | Some c =>
      if needsRefresh c now then
        match tokenRefreshPromise this with
        | Some p =>
            {| config := config this;
               tokenRefreshPromise := tokenRefreshPromise this;
               refreshes := refreshes this;
               callers := callers this ++ [AwaitingRefresh p];
               tokenRequests := tokenRequests this |}
        | None =>
            let p := List.length (refreshes this) in
            if negb (truthy (Some (clientId c))) then
              {| config := config this;
                 tokenRefreshPromise := Some p;
                 refreshes := refreshes this
                              ++ [Failed (newError "No client ID configured")];
                 callers := callers this ++ [Refreshing p];
                 tokenRequests := tokenRequests this |}
            else
              {| config :=
                   Some {| clientId := clientId c;
                           accessToken := accessToken c;
                           refreshToken := refreshToken c;
                           expiresAt := expiresAt c;
                           scope := scope c;
                           userAgent := userAgent c;
                           deviceId := if truthy (deviceId c) then deviceId c
                                       else Some randomId |};
                 tokenRefreshPromise := Some p;
                 refreshes := refreshes this ++ [Fetching];
                 callers := callers this ++ [Refreshing p];
                 tokenRequests := S (tokenRequests this) |}
        end
      else
        {| config := config this;
           tokenRefreshPromise := tokenRefreshPromise this;
           refreshes := refreshes this;
           callers := callers this ++ [Done (Resolved (orNull (accessToken c)))];
           tokenRequests := tokenRequests this |}
  end.

Definition withRefresh (p : nat) (r : refresh) (config' : option AuthConfig)
  (this : t) : t :=
  {| config := config';
     tokenRefreshPromise := tokenRefreshPromise this;
     refreshes := setNth p r (refreshes this);
     callers := callers this;
     tokenRequests := tokenRequests this |}.

(** [doRefreshAccessToken] from the answer of the endpoint to its next
    await or its end.  The message of a body that fails the schema ends, in
    the source, with the issues the schema library lists; they are left
    out. *)
Definition answered (p : nat) (a : answer) (now : Z) (this : t) : option t :=
  match nth_error (refreshes this) p with
  | Some Fetching =>
      Some
        match a with
        | NetworkFailure error =>
            withRefresh p (Failed (refreshFailed error)) (config this) this
        | HttpError status body =>
            withRefresh p
              (Failed (refreshFailed
                         (newError ("Failed to get access token: "
                                      ++ show_Z status ++ " - " ++ body)%string)))
              (config this) this
        | BadJson error =>
            withRefresh p (Failed (refreshFailed error)) (config this) this
        | Body raw =>
            if wellFormed raw then
              match config this with
              | Some c =>
                  withRefresh p Saving
                    (Some {| clientId := clientId c;
                             accessToken := access_token raw;
                             refreshToken := refreshToken c;
                             expiresAt :=
                               option_map (fun n => now + n * 1000)
                                 (expires_in raw);
                             scope := response_scope raw;
                             userAgent := userAgent c;
                             deviceId := deviceId c |})
                    this
              | None =>
                  withRefresh p
                    (Failed (refreshFailed
                               {| err_name := "TypeError"; err_code := None;
                                  err_cause := None;
                                  err_message :=
                                    "Cannot set properties of null (setting 'accessToken')" |}))
                    None this
              end
            else
              withRefresh p
                (Failed (refreshFailed
                           (newError "Invalid OAuth token response format")))
                (config this) this
        end
  | _ => None
  end.

(** [doRefreshAccessToken] from the end of [save] to its own end. *)
Definition saved (p : nat) (r : result unit) (this : t) : option t :=
  match nth_error (refreshes this) p with
  | Some Saving =>
      Some
        match r with
        | Returned _ => withRefresh p Fulfilled (config this) this
        | Thrown message =>
            withRefresh p
              (Failed (refreshFailed
                         (newError ("Failed to save auth configuration: "
                                      ++ message)%string)))
              (config this) this
        end
  | _ => None
  end.

(** [return this.config.accessToken || null], the last line of
    [getAccessToken]. *)
Definition lastLine (this : t) : settled (option string) :=
  match config this with
  | Some c => Resolved (orNull (accessToken c))
  | None =>
      Rejected {| err_name := "TypeError"; err_code := None; err_cause := None;
                  err_message :=
                    "Cannot read properties of null (reading 'accessToken')" |}
  end.

Definition withCaller (i : nat) (c : caller) (marker : option nat) (this : t)
  : t :=
  {| config := config this;
     tokenRefreshPromise := marker;
     refreshes := refreshes this;
     callers := setNth i c (callers this);
     tokenRequests := tokenRequests this |}.

(** A caller goes on once the promise it awaits is settled. *)
Definition resume (i : nat) (this : t) : option t :=
  match nth_error (callers this) i with
  | Some (AwaitingRefresh p) =>
      match nth_error (refreshes this) p with
      | Some Fulfilled =>
          Some (withCaller i (Done (lastLine this)) (tokenRefreshPromise this) this)
      | Some (Failed error) =>
          Some (withCaller i (Done (Rejected error)) (tokenRefreshPromise this) this)
      | _ => None
      end
  | Some (Refreshing p) =>
      (* [finally]: the marker is cleared, the promise fulfilled or not *)
      match nth_error (refreshes this) p with
      | Some Fulfilled => Some (withCaller i (Returning None) None this)
      | Some (Failed error) => Some (withCaller i (Returning (Some error)) None this)
      | _ => None
      end
  | Some (Returning None) =>
      Some (withCaller i (Done (lastLine this)) (tokenRefreshPromise this) this)
  | Some (Returning (Some error)) =>
      Some (withCaller i (Done (Rejected error)) (tokenRefreshPromise this) this)
  | _ => None
  end.

(** One event; [None] when it cannot happen in this state. *)
Definition step (e : event) (this : t) : option t :=
  match e with
  | Call now randomId => Some (call now randomId this)
  | Answer p a now => answered p a now this
  | Saved p r => saved p r this
  | Resume i => resume i this
  end.

Fixpoint run (events : list event) (this : t) : option t :=
  match events with
  | [] => Some this
  | e :: rest =>
      match step e this with
      | Some this' => run rest this'
      | None => None
      end
  end.

Definition isCall (e : event) : bool :=
  match e with
  | Call _ _ => true
  | _ => false
  end.

(** The results of the callers that have returned or thrown. *)
Fixpoint results (cs : list caller) : list (settled (option string)) :=
  match cs with
  | [] => []
  | Done r :: rest => r :: results rest
  | _ :: rest => results rest
  end.

(** *** What holds of the manager while it runs *)

(** The configuration holds a token that is not empty. *)
Definition tokenPresent (cfg : option AuthConfig) : Prop :=
  match cfg with
  | Some c => truthy (accessToken c) = true
  | None => False
  end.

(** A result of [getAccessToken] on a manager that started with the
    configuration [cfg0]: an error, a token that is not empty, or [null]
    when no configuration was loaded. *)
Definition resultOk (cfg0 : option AuthConfig) (r : settled (option string))
  : Prop :=
  match r with
  | Rejected _ => True
  | Resolved None => cfg0 = None
  | Resolved (Some token) => token <> EmptyString /\ cfg0 <> None
  end.

Definition callerOk (cfg0 cfg : option AuthConfig) (c : caller) : Prop :=
  match c with
  | Done r => resultOk cfg0 r
  | Returning None => tokenPresent cfg
  | _ => True
  end.

Record sound (cfg0 : option AuthConfig) (this : t) : Prop := {
  sound_config : config this = None <-> cfg0 = None;
  sound_refreshes :
    In Fulfilled (refreshes this) \/ In Saving (refreshes this) ->
    tokenPresent (config this);
  sound_callers : Forall (callerOk cfg0 (config this)) (callers this)
}.

(** *** One refresh in flight

    The callers of one refresh, the promise [0]: the first started it, the
    others await it.  [st] is the state of the refresh and [cfg] the
    configuration. *)

(** The result the refresh gives its callers once it is settled. *)
Definition outcomeOf (st : refresh) (cfg : AuthConfig)
  (r : settled (option string)) : Prop :=
  match st with
  | Fulfilled => r = Resolved (orNull (accessToken cfg))
  | Failed error => r = Rejected error
  | _ => False
  end.

Definition ownerOk (st : refresh) (cfg : AuthConfig) (marker : option nat)
  (first : caller) : Prop :=
  match first with
  | Refreshing p => p = O /\ marker = Some O
  | Returning thrown =>
      marker = None
      /\ match st, thrown with
         | Fulfilled, None => True
         | Failed error, Some error' => error' = error
         | _, _ => False
         end
  | Done r => marker = None /\ outcomeOf st cfg r
  | AwaitingRefresh _ => False
  end.

Definition waiterOk (st : refresh) (cfg : AuthConfig) (w : caller) : Prop :=
  match w with
  | AwaitingRefresh p => p = O
  | Done r => outcomeOf st cfg r
  | _ => False
  end.

Definition inflight (c0 : AuthConfig) (this : t) : Prop :=
  exists st cfg first waiters,
    tokenRequests this = 1%nat
    /\ refreshes this = [st]
    /\ config this = Some cfg
    /\ callers this = first :: waiters
    /\ clientId cfg = clientId c0
    /\ ownerOk st cfg (tokenRefreshPromise this) first
    /\ Forall (waiterOk st cfg) waiters
    /\ (st = Saving \/ st = Fulfilled -> truthy (accessToken cfg) = true)
    /\ (st = Fetching ->
        accessToken cfg = accessToken c0 /\ expiresAt cfg = expiresAt c0).

(** *** The configuration from the environment *)

(** [/\$\{[^}]*\}/.test(value)]: a dollar sign and an opening brace that a
    closing brace follows. *)
Fixpoint hasTemplate (value : string) : bool :=
  (startsWith "${" value && includes "}" (dropString 2 value))
  || match value with
     | EmptyString => false
     | String _ rest => hasTemplate rest
     end.

(** [/\$[A-Z_][A-Z0-9_]*/.test(value)]: a dollar sign that a capital letter
    or an underscore follows. *)
Fixpoint hasBareVariable (value : string) : bool :=
  match value with
  | EmptyString => false
  | String c rest =>
      ((code c =? 36)
       && match rest with
          | String c' _ => between 65 90 c' || (code c' =? 95)
          | EmptyString => false
          end)
      || hasBareVariable rest
  end.

Definition containsUnresolvedTemplate (value : string) : bool :=
  if hasTemplate value then true
  else if includes "${" value && negb (includes "}" value) then true
  else if hasBareVariable value then true
  else false.

(** [cleanEnvVar]: [None] is [undefined]. *)
Definition cleanEnvVar (value : option string) : option string :=
  match value with
  | None => None
  | Some v =>
      if String.eqb v "" then None
      else
        let trimmed := trim v in
        if String.eqb trimmed "" then None
        else if containsUnresolvedTemplate trimmed then None
        else Some trimmed
  end.

(** [loadFromEnv], the two variables of the environment being its
    arguments. *)
Definition loadFromEnv (REDDIT_CLIENT_ID REDDIT_USER_AGENT : option string)
  : option AuthConfig :=
  let clientId := cleanEnvVar REDDIT_CLIENT_ID in
  let userAgent := cleanEnvVar REDDIT_USER_AGENT in
  match clientId with
  | None => None
  | Some id =>
      if String.eqb id "" then None
      else
        Some {| clientId := id;
                accessToken := None;
                refreshToken := None;
                expiresAt := None;
                scope := None;
                userAgent :=
                  Some match userAgent with
                       | Some ua =>
                           if String.eqb ua ""
                           then "RedditInstalledApp/1.0"%string else ua
                       | None => "RedditInstalledApp/1.0"%string
                       end;
                deviceId := None |}
  end.

(** [isValidConfig] on a configuration whose [clientId] is a string. *)
Definition isValidConfig (config : AuthConfig) : bool :=
  strlen (clientId config) >? 0.

(** [isAuthenticated]: the [clientId] of a configuration is never
    [undefined] here. *)
Definition isAuthenticated (config : option AuthConfig) : bool :=
  match config with
  | Some _ => true
  | None => false
  end.

Definition getRateLimit (config : option AuthConfig) : Z :=
  if isAuthenticated config then 60 else 10.

Definition getCacheTTL (config : option AuthConfig) : Z :=
  if isAuthenticated config then 5 * 60 * 1000 else 15 * 60 * 1000.

(** *** Sample managers *)

Definition installedApp : AuthConfig :=
  {| clientId := "abc123"; accessToken := None; refreshToken := None;
     expiresAt := None; scope := None; userAgent := None; deviceId := None |}.

Definition goodAnswer : answer :=
  Body {| access_token := Some "tok"%string; token_type := Some "bearer"%string;
          expires_in := Some 3600; response_scope := Some "*"%string |}.

(** Three calls before the endpoint answers; then the answer, the save,
    and the callers going on. *)
Definition threeCalls : list (Z * string) :=
  [(0, "id1"%string); (1, "id2"%string); (2, "id3"%string)].

Definition thenSettled : list event :=
  [Answer 0 goodAnswer 50; Saved 0 (Returned tt);
   Resume 1; Resume 0; Resume 2; Resume 0].

(** A call, a good answer, a save that fails, the caller going on, and a
    second call while the token of the answer is not expired. *)
Definition savedFails : list event :=
  [Call 0 "id1"%string; Answer 0 goodAnswer 50;
   Saved 0 (Thrown "EACCES: permission denied"); Resume 0; Resume 0;
   Call 100 "id2"%string].

Definition threeCallsRun : list event :=
  map (fun c => Call (fst c) (snd c)) threeCalls ++ thenSettled.

Definition threeCallsEnd : t :=
  match run threeCallsRun (start (Some installedApp)) with
  | Some final => final
  | None => start None
  end.

End AuthManager.

(** ** The entry point (index) *)

Module Index.

(** [parsePort]. *)
Definition parsePort (portEnv : option string) : Z :=
  let defaultPort := 3000 in
  match portEnv with
  | None => defaultPort
  | Some value =>
      if String.eqb value "" then defaultPort
      else
        match RedditAPI.parseInt value with
        | None => defaultPort
        | Some parsed =>
            if (parsed <? 1) || (parsed >? 65535) then defaultPort
            else parsed
        end
  end.

End Index.

(** ** The content processor ([class ContentProcessor] of
    services/content-processor) *)

Module ContentProcessor.

(** [truncateTitle]; [maxLength] is 80 when it is left out. *)
Definition truncateTitle (title : string) (maxLength : option Z) : string :=
  let maxLength := match maxLength with Some m => m | None => 80 end in
  if strlen title <=? maxLength then title
  else (String.substring 0 (Z.to_nat (maxLength - 3)) title ++ "...")%string.

Inductive sentiment : Type := Positive | Negative | Neutral | Mixed.

Definition positiveWords : list string :=
  ["good"; "great"; "awesome"; "excellent"; "love"; "best";
   "amazing"; "wonderful"; "fantastic"; "happy"; "excited";
   "beautiful"; "perfect"; "nice"; "cool"; "fun"]%string.

Definition negativeWords : list string :=
  ["bad"; "terrible"; "awful"; "hate"; "worst"; "horrible";
   "disgusting"; "ugly"; "stupid"; "dumb"; "sucks"; "angry";
   "sad"; "disappointed"; "failed"; "broken"]%string.

(** The loop [words.forEach(word => { if (lower.includes(word)) score++ })],
    from a score of 0. *)
Definition scoreOf (words : list string) (lower : string) : Z :=
  fold_left (fun score word => if includes word lower then score + 1 else score)
    words 0.

Definition analyzeSentiment (text : string) : sentiment :=
  let lower := toLowerCase text in
  let positiveScore := scoreOf positiveWords lower in
  let negativeScore := scoreOf negativeWords lower in
  if (positiveScore >? 0) && (negativeScore >? 0) then Mixed
  else if positiveScore >? negativeScore then Positive
  else if negativeScore >? positiveScore then Negative
  else Neutral.

(** Whether one of the words occurs in the text. *)
Definition mentions (words : list string) (lower : string) : bool :=
  existsb (fun word => includes word lower) words.

(** [s.split(/\s+/)]: [word] is the piece being read and [inRun] tells
    whether the last character was white space. *)
Fixpoint splitSpaces (s : string) (word : string) (inRun : bool)
  : list string :=
  match s with
  | EmptyString => [word]
  | String c rest =>
      if isWhiteSpace c
      then if inRun then splitSpaces rest EmptyString true
           else word :: splitSpaces rest EmptyString true
      else splitSpaces rest (word ++ String c EmptyString) false
  end.

(** [Set.prototype.add] on a set kept in insertion order. *)
Definition setAdd (x : string) (set : list string) : list string :=
  if existsb (String.eqb x) set then set else set ++ [x].

(** A post, as far as [extractTopics] reads it. *)
Record RedditPost : Type := {
  title : string
}.

Definition commonWords : list string :=
  ["the"; "is"; "at"; "be"; "a"; "an"; "and"; "or"; "but"; "in"; "on";
   "to"; "for"]%string.

(** The words of one title that [extractTopics] adds. *)
Definition topicWords (post : RedditPost) : list string :=
  let words :=
    filter (fun word => (strlen word >? 3)
                        && negb (existsb (String.eqb word) commonWords))
      (splitSpaces (toLowerCase (title post)) EmptyString false) in
  firstn 2 words.

Definition extractTopics (posts : list RedditPost) : list string :=
  let topics :=
    fold_left
      (fun topics post => fold_left (fun topics word => setAdd word topics)
                            (topicWords post) topics)
      posts [] in
  firstn 5 topics.

Definition categoryMap : list (string * list string) :=
  [ ("Technology", ["programming"; "javascript"; "python"; "webdev"; "tech";
                    "coding"; "linux"; "android"; "apple"]);
    ("Gaming", ["gaming"; "games"; "pcgaming"; "ps4"; "ps5"; "xbox";
                "nintendo"; "steam"]);
    ("Science", ["science"; "physics"; "chemistry"; "biology"; "space";
                 "astronomy"]);
    ("Finance", ["investing"; "stocks"; "wallstreetbets"; "cryptocurrency";
                 "bitcoin"; "finance"]);
    ("Sports", ["sports"; "nba"; "nfl"; "soccer"; "football"; "baseball";
                "hockey"]);
    ("Entertainment", ["movies"; "television"; "music"; "books"; "netflix";
                       "anime"]);
    ("News", ["news"; "worldnews"; "politics"; "economics"]);
    ("Lifestyle", ["food"; "cooking"; "fitness"; "health"; "fashion";
                   "travel"]) ]%string.

Definition detectInterests (subreddits : list string) : list string :=
  fold_left
    (fun interests sub =>
       let lower := toLowerCase sub in
       fold_left
         (fun interests entry =>
            if existsb (fun keyword => includes keyword lower) (snd entry)
            then setAdd (fst entry) interests
            else interests)
         categoryMap interests)
    subreddits [].

End ContentProcessor.

(* ================================================================== *)
(** * The properties *)

(** ** Lists *)

Lemma len_app {A : Type} (xs ys : list A) : len (xs ++ ys) = len xs + len ys.
Proof. unfold len. rewrite List.length_app. lia. Qed.

Lemma len_nonneg {A : Type} (xs : list A) : 0 <= len xs.
Proof. unfold len. lia. Qed.

Lemma len_filter_le {A : Type} (p : A -> bool) (xs : list A) :
  len (filter p xs) <= len xs.
Proof.
  unfold len. induction xs as [|x xs IH]; simpl; [lia|].
  destruct (p x); simpl; lia.
Qed.

(** If [p] implies [q] on the elements of a list, [filter p] keeps no more
    elements than [filter q]. *)
Lemma len_filter_mono {A : Type} (p q : A -> bool) (xs : list A) :
  Forall (fun x => p x = true -> q x = true) xs ->
  len (filter p xs) <= len (filter q xs).
Proof.
  unfold len. induction 1 as [|x xs Hx _ IH]; simpl; [lia|].
  destruct (p x) eqn:Hp.
  - rewrite (Hx eq_refl). simpl. lia.
  - destruct (q x); simpl; lia.
Qed.

Lemma filter_filter_weaker {A : Type} (p q : A -> bool) (xs : list A) :
  Forall (fun x => p x = true -> q x = true) xs ->
  filter p (filter q xs) = filter p xs.
Proof.
  induction 1 as [|x xs Hx _ IH]; simpl; [reflexivity|].
  destruct (q x) eqn:Hq; simpl.
  - destruct (p x); rewrite IH; reflexivity.
  - destruct (p x) eqn:Hp; [|exact IH].
    discriminate (Hx eq_refl).
Qed.


(** ** Strings *)



(** ** RateLimiter: the window never holds more than the limit *)

Module RateLimiterFacts.
Import RateLimiter.

(** [recordRequest] throws exactly when the pruned window is full. *)
Lemma recordRequest_throws (now : Z) (this : t) :
  isThrown (fst (recordRequest now this))
  = (len (requests (cleanup now this)) >=? limit this).
Proof.
  unfold recordRequest.
  change (limit (cleanup now this)) with (limit this).
  destruct (len (requests (cleanup now this)) >=? limit this); reflexivity.
Qed.

(** A successful [recordRequest] appends [now] to a pruned window that was
    below the limit. *)
Lemma recordRequest_returns (now : Z) (this : t) (this' : t) (u : unit) :
  recordRequest now this = (Returned u, this') ->
  len (requests (cleanup now this)) < limit this
  /\ this' = with_requests (cleanup now this)
               (requests (cleanup now this) ++ [now]).
Proof.
  unfold recordRequest.
  change (limit (cleanup now this)) with (limit this).
  destruct (len (requests (cleanup now this)) >=? limit this) eqn:E;
    intros H; inversion H; subst.
  split; [|reflexivity].
  rewrite Z.geb_leb in E. apply Z.leb_gt in E. exact E.
Qed.

Lemma recordRequest_thrown (now : Z) (this : t) (this' : t) (msg : string) :
  recordRequest now this = (Thrown msg, this') -> this' = cleanup now this.
Proof.
  unfold recordRequest.
  destruct (len (requests (cleanup now this)) >=? limit (cleanup now this));
    intros H; inversion H; reflexivity.
Qed.

Lemma nondecreasing_after (now : Z) (calls : list (Z * call)) :
  nondecreasing (now :: map fst calls) -> after now calls.
Proof.
  revert now. induction calls as [|[t c] rest IH]; intros now H; simpl in *.
  - exact I.
  - destruct H as [Hle Hrest]. split; [exact Hle|]. apply IH. exact Hrest.
Qed.

Lemma inv_cleanup (last now : Z) (this : t) (admitted : list Z) :
  last <= now -> inv last this admitted -> inv now (cleanup now this) admitted.
Proof.
  intros Hle [Hw Hp Hb]. split.
  - simpl. rewrite Hw.
    change (inWindow (cleanup now this) now) with (inWindow this now).
    apply filter_filter_weaker.
    apply Forall_forall. intros ts _. unfold inWindow.
    rewrite !Z.ltb_lt. lia.
  - eapply Forall_impl; [|exact Hp]. simpl. intros ts Hts. lia.
  - exact Hb.
Qed.

Lemma admittedWithin_app (W T : Z) (xs ys : list Z) :
  admittedWithin W T (xs ++ ys) = admittedWithin W T xs + admittedWithin W T ys.
Proof. unfold admittedWithin. rewrite filter_app. apply len_app. Qed.

Lemma inv_record (last now : Z) (this : t) (admitted : list Z) :
  0 < window this -> last <= now -> inv last this admitted ->
  len (requests (cleanup now this)) < limit this ->
  inv now (with_requests (cleanup now this)
             (requests (cleanup now this) ++ [now]))
      (admitted ++ [now]).
Proof.
  intros HW Hle Hinv Hroom.
  pose proof (inv_cleanup last now this admitted Hle Hinv) as [Hw Hp Hb].
  change (inWindow (cleanup now this) now) with (inWindow this now) in Hw.
  split.
  - change (requests (cleanup now this) ++ [now]
            = filter (inWindow this now) (admitted ++ [now])).
    rewrite Hw, filter_app. f_equal. simpl. unfold inWindow.
    replace (now - now <? window this) with true; [reflexivity|].
    symmetry. apply Z.ltb_lt. lia.
  - apply Forall_app. split; [exact Hp|]. constructor; [lia|constructor].
  - intros T. simpl. rewrite admittedWithin_app.
    change (window (cleanup now this)) with (window this) in Hb.
    change (limit (cleanup now this)) with (limit this) in Hb.
    unfold admittedWithin at 2. simpl.
    destruct ((T - window this <? now) && (now <=? T)) eqn:E.
    + apply andb_prop in E. destruct E as [E1 E2].
      apply Z.ltb_lt in E1. apply Z.leb_le in E2.
      assert (admittedWithin (window this) T admitted
              <= len (filter (inWindow this now) admitted)) as Hsub.
      { unfold admittedWithin. apply len_filter_mono.
        apply Forall_forall. intros ts _ Hin.
        apply andb_prop in Hin. destruct Hin as [H1 _].
        apply Z.ltb_lt in H1. unfold inWindow. apply Z.ltb_lt. lia. }
      rewrite <- Hw in Hsub. change (len [now]) with 1. lia.
    + specialize (Hb T). change (len (@nil Z)) with 0. lia.
Qed.

Lemma run_inv (calls : list (Z * call)) :
  forall (last : Z) (this : t) (admitted : list Z),
    0 < window this -> inv last this admitted -> after last calls ->
    exists last',
      inv last' (fst (run this admitted calls)) (snd (run this admitted calls))
      /\ limit (fst (run this admitted calls)) = limit this
      /\ window (fst (run this admitted calls)) = window this.
Proof.
  induction calls as [|[now c] rest IH]; intros last this admitted HW Hinv Hclk.
  - exists last. simpl. auto.
  - destruct Hclk as [Hle Hrest]. destruct c; simpl.
    + destruct (IH now (cleanup now this) admitted HW
                  (inv_cleanup last now this admitted Hle Hinv) Hrest)
        as (last' & H1 & H2 & H3).
      exists last'. auto.
    + destruct (recordRequest now this) as [[u|msg] this'] eqn:E.
      * apply recordRequest_returns in E. destruct E as [Hroom ->].
        destruct (IH now
                    (with_requests (cleanup now this)
                       (requests (cleanup now this) ++ [now]))
                    (admitted ++ [now]) HW
                    (inv_record last now this admitted HW Hle Hinv Hroom) Hrest)
          as (last' & H1 & H2 & H3).
        exists last'. auto.
      * apply recordRequest_thrown in E. subst this'.
        destruct (IH now (cleanup now this) admitted HW
                    (inv_cleanup last now this admitted Hle Hinv) Hrest)
          as (last' & H1 & H2 & H3).
        exists last'. auto.
Qed.

(** With a window that is not positive no timestamp lies in a trailing
    interval. *)
Lemma admittedWithin_empty_window (W T : Z) (admitted : list Z) :
  W <= 0 -> admittedWithin W T admitted = 0.
Proof.
  intros HW. unfold admittedWithin.
  induction admitted as [|ts rest IH]; simpl; [reflexivity|].
  destruct ((T - W <? ts) && (ts <=? T)) eqn:E; [|exact IH].
  apply andb_prop in E. destruct E as [E1 E2].
  apply Z.ltb_lt in E1. apply Z.leb_le in E2. lia.
Qed.

(** The limiter itself never holds more than [limit] timestamps. *)
Lemma run_length (calls : list (Z * call)) :
  forall (this : t) (admitted : list Z),
    len (requests this) <= limit this ->
    len (requests (fst (run this admitted calls)))
      <= limit (fst (run this admitted calls))
    /\ limit (fst (run this admitted calls)) = limit this.
Proof.
  induction calls as [|[now c] rest IH]; intros this admitted Hlen.
  - simpl. auto.
  - assert (len (requests (cleanup now this)) <= limit (cleanup now this))
      as Hclean.
    { simpl. pose proof (len_filter_le (inWindow this now) (requests this)). lia. }
    destruct c; simpl.
    + apply (IH (cleanup now this) admitted Hclean).
    + destruct (recordRequest now this) as [[u|msg] this'] eqn:E.
      * apply recordRequest_returns in E. destruct E as [Hroom ->].
        apply (IH (with_requests (cleanup now this)
                     (requests (cleanup now this) ++ [now]))
                  (admitted ++ [now])).
        change (len (requests (cleanup now this) ++ [now]) <= limit this).
        rewrite len_app. change (len [now]) with 1. lia.
      * apply recordRequest_thrown in E. subst this'.
        apply (IH (cleanup now this) admitted Hclean).
Qed.

(** C1. On a limiter built with a limit [L] that is not negative and a
    window [W], after any calls of [canMakeRequest] and [recordRequest] at
    clock times that never go back, the requests that [recordRequest]
    admitted number at most [L] in every trailing interval of length [W]
    (the timestamps [ts] with [T - W < ts <= T], for every [T]), and the
    limiter holds at most [L] timestamps.  [recordRequest] throws exactly
    when the pruned window still holds [L] timestamps or more, and right
    after a [recordRequest] that returned the window holds at most [L]. *)
Theorem sliding_window_never_exceeds_limit
  (options : RateLimiterOptions) (calls : list (Z * call)) :
  0 <= opt_limit options ->
  nondecreasing (map fst calls) ->
  (forall T : Z,
      admittedWithin (opt_window options) T
        (snd (run (constructor options) [] calls)) <= opt_limit options)
  /\ len (requests (fst (run (constructor options) [] calls)))
     <= opt_limit options
  /\ (forall (now : Z) (this : t),
        isThrown (fst (recordRequest now this))
        = (len (requests (cleanup now this)) >=? limit this))
  /\ (forall (now : Z) (this this' : t) (u : unit),
        recordRequest now this = (Returned u, this') ->
        len (requests this') <= limit this').
Proof.
  intros HL Hclk. repeat split.
  - intros T. destruct (Z_le_gt_dec (opt_window options) 0) as [HW|HW].
    + rewrite admittedWithin_empty_window by exact HW. exact HL.
    + destruct calls as [|[t0 c] rest].
      * simpl. exact HL.
      * assert (inv t0 (constructor options) []) as Hinv.
        { split; [reflexivity|constructor|]. intros T'. simpl. exact HL. }
        assert (after t0 ((t0, c) :: rest)) as Hafter.
        { split; [lia|]. apply nondecreasing_after. exact Hclk. }
        destruct (run_inv ((t0, c) :: rest) t0 (constructor options) []
                    ltac:(simpl; lia) Hinv Hafter) as (last' & [_ _ Hb] & H2 & H3).
        rewrite H2, H3 in Hb. apply Hb.
  - destruct (run_length calls (constructor options) [] HL) as [H1 H2].
    rewrite H2 in H1. exact H1.
  - apply recordRequest_throws.
  - intros now this this' u E.
    apply recordRequest_returns in E. destruct E as [Hroom ->].
    change (len (requests (cleanup now this) ++ [now]) <= limit this).
    rewrite len_app. change (len [now]) with 1. lia.
Qed.

(** The theorem at [twoPerSecond] and [fiveCalls]. *)
Lemma sliding_window_never_exceeds_limit_witness :
  (forall T : Z,
      admittedWithin 1000 T (snd (run (constructor twoPerSecond) [] fiveCalls))
      <= 2)
  /\ len (requests (fst (run (constructor twoPerSecond) [] fiveCalls))) <= 2.
Proof.
  destruct (sliding_window_never_exceeds_limit twoPerSecond fiveCalls)
    as (H1 & H2 & _).
  - simpl. lia.
  - simpl. lia.
  - split; [exact H1|exact H2].
Defined.

End RateLimiterFacts.

(** ** CompoundRateLimiter: a record stops at the first full member *)

Module CompoundRateLimiterFacts.
Import CompoundRateLimiter.

Lemma member_full (now : Z) (limiter : RateLimiter.t) :
  full now limiter = true ->
  RateLimiter.recordRequest now limiter
  = (Thrown (RateLimiter.limitMessage limiter), RateLimiter.cleanup now limiter).
Proof.
  unfold full, RateLimiter.recordRequest.
  change (RateLimiter.limit (RateLimiter.cleanup now limiter))
    with (RateLimiter.limit limiter).
  intros ->. reflexivity.
Qed.

Lemma member_room (now : Z) (limiter : RateLimiter.t) :
  full now limiter = false ->
  RateLimiter.recordRequest now limiter = (Returned tt, recorded now limiter).
Proof.
  unfold full, RateLimiter.recordRequest.
  change (RateLimiter.limit (RateLimiter.cleanup now limiter))
    with (RateLimiter.limit limiter).
  intros ->. reflexivity.
Qed.

Lemma member_check (now : Z) (limiter : RateLimiter.t) :
  RateLimiter.canMakeRequest now limiter
  = (negb (full now limiter), RateLimiter.cleanup now limiter).
Proof.
  unfold full, RateLimiter.canMakeRequest.
  change (RateLimiter.limit (RateLimiter.cleanup now limiter))
    with (RateLimiter.limit limiter).
  rewrite Z.geb_leb, Z.ltb_antisym. reflexivity.
Qed.

Lemma record_all (now : Z) (this : t) :
  forallb (room now) this = true ->
  recordRequest now this = (Returned tt, map (record now) this).
Proof.
  induction this as [|[n limiter] rest IH]; simpl; [reflexivity|].
  intros H. apply andb_prop in H. destruct H as [Hroom Hrest].
  unfold room in Hroom. simpl in Hroom. apply negb_true_iff in Hroom.
  rewrite (member_room now limiter Hroom), (IH Hrest). reflexivity.
Qed.

Lemma record_stops (now : Z) (before : t) :
  forall (n : string) (limiter : RateLimiter.t) (rest : t),
    forallb (room now) before = true ->
    full now limiter = true ->
    recordRequest now (before ++ (n, limiter) :: rest)
    = (Thrown ("Compound rate limit exceeded: "
                 ++ RateLimiter.limitMessage limiter),
       map (record now) before
         ++ (n, RateLimiter.cleanup now limiter) :: rest).
Proof.
  induction before as [|[m l] before IH]; intros n limiter rest Hb Hfull; simpl.
  - rewrite (member_full now limiter Hfull). reflexivity.
  - simpl in Hb. apply andb_prop in Hb. destruct Hb as [Hroom Hb].
    unfold room in Hroom. simpl in Hroom. apply negb_true_iff in Hroom.
    rewrite (member_room now l Hroom), (IH n limiter rest Hb Hfull).
    reflexivity.
Qed.

Lemma record_throws_iff (now : Z) (this : t) :
  isThrown (fst (recordRequest now this))
  = existsb (fun e => full now (snd e)) this.
Proof.
  induction this as [|[n limiter] rest IH]; simpl; [reflexivity|].
  destruct (full now limiter) eqn:E.
  - rewrite (member_full now limiter E). reflexivity.
  - rewrite (member_room now limiter E). simpl.
    destruct (recordRequest now rest) as [r rest']. exact IH.
Qed.

Lemma check_iff (now : Z) (this : t) :
  fst (canMakeRequest now this)
  = negb (existsb (fun e => full now (snd e)) this).
Proof.
  induction this as [|[n limiter] rest IH]; [reflexivity|].
  cbn [canMakeRequest existsb snd].
  rewrite member_check. destruct (full now limiter); simpl; [reflexivity|].
  destruct (canMakeRequest now rest) as [r rest']. exact IH.
Qed.

(** C2, as the code has it.  [recordRequest] of the compound limiter throws
    exactly when some member's pruned window is full, which is when
    [canMakeRequest] answers false.  When no member is full it records on
    every member.  When a member is full, the members before the first full
    one have recorded the request all the same, the first full member is
    pruned and nothing more, and the members after it are left as they
    were. *)
Theorem compound_record_stops_at_first_full_member (now : Z) (this : t) :
  isThrown (fst (recordRequest now this))
  = existsb (fun e => full now (snd e)) this
  /\ fst (canMakeRequest now this)
     = negb (isThrown (fst (recordRequest now this)))
  /\ (forallb (room now) this = true ->
      recordRequest now this = (Returned tt, map (record now) this))
  /\ (forall (before : t) (n : string) (limiter : RateLimiter.t) (rest : t),
        this = before ++ (n, limiter) :: rest ->
        forallb (room now) before = true ->
        full now limiter = true ->
        recordRequest now this
        = (Thrown ("Compound rate limit exceeded: "
                     ++ RateLimiter.limitMessage limiter),
           map (record now) before
             ++ (n, RateLimiter.cleanup now limiter) :: rest)).
Proof.
  split; [apply record_throws_iff|].
  split; [rewrite check_iff, record_throws_iff; reflexivity|].
  split; [apply record_all|].
  intros before n limiter rest -> Hb Hfull. apply record_stops; assumption.
Qed.

(** C2 fails as stated: on [twoTierAfterOne] a record at time 10 throws,
    because the member "burst" is full, and the member "minute" has
    recorded the request nonetheless. *)
Lemma compound_record_is_not_atomic :
  timestamps twoTierAfterOne
  = [("minute"%string, [0]); ("burst"%string, [0])]
  /\ isThrown (fst (recordRequest 10 twoTierAfterOne)) = true
  /\ timestamps (snd (recordRequest 10 twoTierAfterOne))
     = [("minute"%string, [0; 10]); ("burst"%string, [0])].
Proof. repeat split; vm_compute; reflexivity. Qed.

End CompoundRateLimiterFacts.

(** ** CacheManager: the store and its counter *)

Module CacheManagerFacts.
Import CacheManager.

Section WithData.

Context {T : Type}.
Variable stringify : T -> option string.

Local Abbreviation entries := (list (string * CacheEntry T)).

Lemma estimateSize_nonneg (d : T) : 0 <= estimateSize stringify d.
Proof.
  unfold estimateSize, strlen. destruct (stringify d); lia.
Qed.

Lemma storedSize_app (xs ys : entries) :
  storedSize (xs ++ ys) = storedSize xs + storedSize ys.
Proof.
  induction xs as [|x xs IH]; simpl; [reflexivity|].
  unfold storedSize in *. simpl. rewrite IH. lia.
Qed.

Lemma storedSize_nonneg (es : entries) :
  Forall (fun ke => 0 <= size (snd ke)) es -> 0 <= storedSize es.
Proof.
  induction 1 as [|x xs Hx _ IH]; unfold storedSize in *; simpl; lia.
Qed.

Lemma lookup_In (key : string) (es : entries) (e : CacheEntry T) :
  lookup key es = Some e -> In (key, e) es.
Proof.
  induction es as [|[k e'] rest IH]; simpl; [discriminate|].
  destruct (String.eqb k key) eqn:E.
  - apply String.eqb_eq in E. intros H. inversion H. subst. left. reflexivity.
  - intros H. right. apply IH. exact H.
Qed.

Lemma lookup_None (key : string) (es : entries) :
  lookup key es = None <-> ~ In key (keys es).
Proof.
  induction es as [|[k e'] rest IH]; simpl.
  - split; auto.
  - destruct (String.eqb k key) eqn:E.
    + apply String.eqb_eq in E. subst. split; [discriminate|].
      intros H. exfalso. apply H. left. reflexivity.
    + apply String.eqb_neq in E. rewrite IH. split.
      * intros H [H1|H1]; [exact (E H1)|exact (H H1)].
      * intros H H1. apply H. right. exact H1.
Qed.

Lemma remove_absent (key : string) (es : entries) :
  ~ In key (keys es) -> remove key es = es.
Proof.
  induction es as [|[k e] rest IH]; simpl; [reflexivity|].
  intros H. destruct (String.eqb k key) eqn:E.
  - apply String.eqb_eq in E. exfalso. apply H. left. exact E.
  - simpl. f_equal. apply IH. intros H1. apply H. right. exact H1.
Qed.

Lemma keys_remove (key k : string) (es : entries) :
  In k (keys (remove key es)) <-> In k (keys es) /\ k <> key.
Proof.
  unfold keys, remove. rewrite !in_map_iff. split.
  - intros ([k' e] & Hk & Hin). apply filter_In in Hin.
    destruct Hin as [Hin Hneq]. simpl in *. subst k'.
    apply negb_true_iff, String.eqb_neq in Hneq.
    split; [exists (k, e); auto|exact Hneq].
  - intros (([k' e] & Hk & Hin) & Hneq). simpl in Hk. subst k'.
    exists (k, e). split; [reflexivity|]. apply filter_In. split; [exact Hin|].
    simpl. apply negb_true_iff, String.eqb_neq. exact Hneq.
Qed.

Lemma lookup_remove (key : string) (es : entries) :
  lookup key (remove key es) = None.
Proof.
  apply lookup_None. rewrite keys_remove. intros [_ H]. apply H. reflexivity.
Qed.

Lemma NoDup_remove (key : string) (es : entries) :
  NoDup (keys es) -> NoDup (keys (remove key es)).
Proof.
  induction es as [|[k e] rest IH]; simpl; [auto|].
  intros H. inversion H as [|? ? Hnotin Hrest]; subst.
  destruct (String.eqb k key); simpl; [apply IH; exact Hrest|].
  constructor; [|apply IH; exact Hrest].
  intros Hin. apply keys_remove in Hin. apply Hnotin. apply Hin.
Qed.

Lemma Forall_remove (P : string * CacheEntry T -> Prop) (key : string)
  (es : entries) : Forall P es -> Forall P (remove key es).
Proof.
  intros H. apply Forall_forall. intros x Hin. apply filter_In in Hin.
  rewrite Forall_forall in H. apply H. apply Hin.
Qed.

(** With distinct keys, [remove] takes out the one entry of the key. *)
Lemma remove_split (key : string) (es : entries) (e : CacheEntry T) :
  NoDup (keys es) -> lookup key es = Some e ->
  exists before after,
    es = before ++ (key, e) :: after /\ remove key es = before ++ after.
Proof.
  induction es as [|[k e'] rest IH]; simpl; [discriminate|].
  intros Hnd Hl. inversion Hnd as [|? ? Hnotin Hrest]; subst.
  destruct (String.eqb k key) eqn:E.
  - apply String.eqb_eq in E. subst k. inversion Hl; subst e'.
    exists [], rest. simpl. split; [reflexivity|].
    apply remove_absent. exact Hnotin.
  - destruct (IH Hrest Hl) as (before & after & H1 & H2).
    exists ((k, e') :: before), after. simpl. rewrite H2, <- H1. auto.
Qed.

Lemma storedSize_remove (key : string) (es : entries) (e : CacheEntry T) :
  NoDup (keys es) -> lookup key es = Some e ->
  storedSize (remove key es) = storedSize es - size e.
Proof.
  intros Hnd Hl. destruct (remove_split key es e Hnd Hl)
    as (before & after & H1 & H2).
  rewrite H2, H1, !storedSize_app. unfold storedSize. simpl. lia.
Qed.

Lemma keys_replace (key : string) (e' : CacheEntry T) (es : entries) :
  keys (replace key e' es) = keys es.
Proof.
  induction es as [|[k e] rest IH]; simpl; [reflexivity|].
  destruct (String.eqb k key); simpl; [reflexivity|]. f_equal. exact IH.
Qed.

Lemma storedSize_replace (key : string) (e e' : CacheEntry T) (es : entries) :
  lookup key es = Some e -> size e' = size e ->
  storedSize (replace key e' es) = storedSize es.
Proof.
  induction es as [|[k e0] rest IH]; simpl; [discriminate|].
  destruct (String.eqb k key).
  - intros H Hs. inversion H; subst. unfold storedSize. simpl. lia.
  - intros H Hs. unfold storedSize in *. simpl. rewrite (IH H Hs). reflexivity.
Qed.

Lemma Forall_replace (P : string * CacheEntry T -> Prop) (key : string)
  (e' : CacheEntry T) (es : entries) :
  (forall k, P (k, e')) -> Forall P es -> Forall P (replace key e' es).
Proof.
  intros He. induction 1 as [|[k e] rest Hx Hrest IH]; simpl; [constructor|].
  destruct (String.eqb k key); constructor; auto.
Qed.

(** *** The methods keep the cache well formed *)

Lemma delete_found (key : string) (this : t T) (e : CacheEntry T) :
  lookup key (cache this) = Some e ->
  delete key this
  = (true, {| cache := remove key (cache this);
              sizeUsed := sizeUsed this - size e;
              maxSize := maxSize this;
              defaultTTL := defaultTTL this |}).
Proof. unfold delete. intros ->. reflexivity. Qed.

Lemma delete_absent (key : string) (this : t T) :
  lookup key (cache this) = None -> delete key this = (false, this).
Proof. unfold delete. intros ->. reflexivity. Qed.

Lemma delete_maxSize (key : string) (this : t T) :
  maxSize (snd (delete key this)) = maxSize this.
Proof. unfold delete. destruct (lookup key (cache this)); reflexivity. Qed.

Lemma delete_wf (key : string) (this : t T) :
  wf this -> wf (snd (delete key this)).
Proof.
  intros [Hk Hs Hu]. unfold delete.
  destruct (lookup key (cache this)) as [e|] eqn:E; simpl.
  - split; simpl.
    + apply NoDup_remove. exact Hk.
    + apply Forall_remove. exact Hs.
    + rewrite (storedSize_remove key _ e Hk E). lia.
  - split; assumption.
Qed.

Lemma delete_sizeUsed (key : string) (this : t T) :
  wf this -> sizeUsed (snd (delete key this)) <= sizeUsed this.
Proof.
  intros [Hk Hs Hu]. unfold delete.
  destruct (lookup key (cache this)) as [e|] eqn:E; simpl; [|lia].
  apply lookup_In in E. rewrite Forall_forall in Hs.
  specialize (Hs _ E). simpl in Hs. lia.
Qed.

Lemma delete_keys (key k : string) (this : t T) :
  In k (keys (cache (snd (delete key this)))) -> In k (keys (cache this)).
Proof.
  unfold delete. destruct (lookup key (cache this)); simpl; [|auto].
  intros H. apply keys_remove in H. apply H.
Qed.

Lemma delete_bounded (key : string) (this : t T) :
  bounded this -> bounded (snd (delete key this)).
Proof.
  intros [Hwf Hb]. split; [apply delete_wf; exact Hwf|].
  rewrite delete_maxSize. pose proof (delete_sizeUsed key this Hwf). lia.
Qed.

Lemma get_bounded (key : string) (now : Z) (this : t T) :
  bounded this -> bounded (snd (get key now this)).
Proof.
  intros Hb. unfold get.
  destruct (lookup key (cache this)) as [e|] eqn:E; [|exact Hb].
  destruct (now >=? expiresAt e); [apply delete_bounded; exact Hb|].
  destruct Hb as [[Hk Hs Hu] Hb]. simpl. split; [split|]; simpl.
  - rewrite keys_replace. exact Hk.
  - apply Forall_replace; [|exact Hs].
    intros k. simpl. apply lookup_In in E. rewrite Forall_forall in Hs.
    apply (Hs _ E).
  - rewrite (storedSize_replace key e (hit e) _ E eq_refl). exact Hu.
  - exact Hb.
Qed.

Lemma get_keys (key k : string) (now : Z) (this : t T) :
  In k (keys (cache (snd (get key now this)))) -> In k (keys (cache this)).
Proof.
  unfold get. destruct (lookup key (cache this)) as [e|]; [|auto].
  destruct (now >=? expiresAt e); [apply delete_keys|].
  simpl. rewrite keys_replace. auto.
Qed.

Lemma has_bounded (key : string) (now : Z) (this : t T) :
  bounded this -> bounded (snd (has key now this)).
Proof.
  intros Hb. unfold has.
  destruct (lookup key (cache this)) as [e|]; [|exact Hb].
  destruct (now >=? expiresAt e); [apply delete_bounded; exact Hb|exact Hb].
Qed.

Lemma has_keys (key k : string) (now : Z) (this : t T) :
  In k (keys (cache (snd (has key now this)))) -> In k (keys (cache this)).
Proof.
  unfold has. destruct (lookup key (cache this)) as [e|]; [|auto].
  destruct (now >=? expiresAt e); [apply delete_keys|auto].
Qed.

Lemma evictLRU_bounded (now : Z) (this : t T) :
  bounded this -> bounded (evictLRU now this).
Proof.
  intros Hb. unfold evictLRU.
  destruct (scan now (cache this) None None) as [k|]; [|exact Hb].
  destruct (String.eqb k ""); [exact Hb|apply delete_bounded; exact Hb].
Qed.


Lemma evictLRU_keys (k : string) (now : Z) (this : t T) :
  In k (keys (cache (evictLRU now this))) -> In k (keys (cache this)).
Proof.
  unfold evictLRU.
  destruct (scan now (cache this) None None) as [k'|]; [|auto].
  destruct (String.eqb k' ""); [auto|apply delete_keys].
Qed.

Lemma evictLRU_maxSize (now : Z) (this : t T) :
  maxSize (evictLRU now this) = maxSize this.
Proof.
  unfold evictLRU.
  destruct (scan now (cache this) None None) as [k'|]; [|auto].
  destruct (String.eqb k' ""); [auto|apply delete_maxSize].
Qed.

Lemma cleanup_fold (ks : list string) :
  forall this : t T,
    bounded this ->
    bounded (fold_left (fun this key => snd (delete key this)) ks this)
    /\ (forall k,
          In k (keys (cache (fold_left
                               (fun this key => snd (delete key this)) ks this))) ->
          In k (keys (cache this))).
Proof.
  induction ks as [|key ks IH]; intros this Hb; simpl; [auto|].
  destruct (IH _ (delete_bounded key this Hb)) as [H1 H2].
  split; [exact H1|]. intros k Hk. apply (delete_keys key). apply H2. exact Hk.
Qed.

Lemma clear_bounded (this : t T) :
  0 <= maxSize this -> bounded (clear this).
Proof.
  intros H. split; [split|]; simpl; try constructor. exact H.
Qed.

(** *** The scan of [evictLRU] *)

Ltac order_cases :=
  unfold flt, Infinity, SpecFloat.SFltb; cbn [SpecFloat.SFcompare];
  repeat match goal with s : bool |- _ => destruct s end;
  cbn [CompOpp]; try discriminate; try reflexivity;
  change PosDef.Pos.compare_cont with Pos.compare_cont;
  repeat match goal with
    | |- context [Z.compare ?x ?y] => destruct (Z.compare_spec x y)
    | |- context [Pos.compare_cont Eq ?x ?y] =>
        change (Pos.compare_cont Eq x y) with (Pos.compare x y);
        destruct (Pos.compare_spec x y)
    end;
  cbn [CompOpp]; try discriminate; try reflexivity; intros; try lia.



Lemma flt_irrefl (a : double) : flt a a = false.
Proof.
  destruct a as [s|s| |s m e]; order_cases.
Qed.



(** Whatever the scores, the scan of a store that is not empty ends on
    the key of one of its entries. *)
Lemma scan_stored (now : Z) (es : entries) :
  forall (lruKey : option string) (m : option double),
    scan now es lruKey m = lruKey
    \/ exists before k e after,
         es = before ++ (k, e) :: after /\ scan now es lruKey m = Some k.
Proof.
  induction es as [|[k1 e1] rest IH]; intros lruKey m; cbn [scan].
  - left. reflexivity.
  - destruct (below (score now e1) m).
    + right. destruct (IH (Some k1) (Some (score now e1)))
        as [H|(before & k & e & after & H1 & H2)].
      * exists [], k1, e1, rest. split; [reflexivity|exact H].
      * exists ((k1, e1) :: before), k, e, after. subst rest.
        split; [reflexivity|exact H2].
    + destruct (IH lruKey m) as [H|(before & k & e & after & H1 & H2)].
      * left. exact H.
      * right. exists ((k1, e1) :: before), k, e, after. subst rest.
        split; [reflexivity|exact H2].
Qed.

Lemma scan_picks (now : Z) (es : entries) :
  es <> [] ->
  exists before k e after,
    es = before ++ (k, e) :: after /\ scan now es None None = Some k.
Proof.
  destruct es as [|[k1 e1] rest]; [congruence|]. intros _. cbn [scan below].
  destruct (scan_stored now rest (Some k1) (Some (score now e1)))
    as [H|(before & k & e & after & H1 & H2)].
  - exists [], k1, e1, rest. split; [reflexivity|exact H].
  - exists ((k1, e1) :: before), k, e, after. subst rest.
    split; [reflexivity|exact H2].
Qed.


(** *** The loop of [set] ends when no key is the empty string *)

Lemma evictLRU_shrinks (now : Z) (this : t T) :
  cache this <> [] -> ~ In ""%string (keys (cache this)) ->
  (List.length (cache (evictLRU now this)) < List.length (cache this))%nat.
Proof.
  intros Hne Hkey.
  destruct (scan_picks now (cache this) Hne)
    as (before & k & e & after & H1 & H2).
  unfold evictLRU. rewrite H2.
  assert (In k (keys (cache this))) as Hin.
  { rewrite H1. unfold keys. rewrite map_app. apply in_or_app. right.
    left. reflexivity. }
  destruct (String.eqb k "") eqn:E.
  - apply String.eqb_eq in E. subst k. contradiction.
  - destruct (lookup k (cache this)) as [e'|] eqn:El.
    + rewrite (delete_found k this e' El). simpl.
      apply lookup_In in El. clear - El.
      induction (cache this) as [|[k0 e0] rest IH]; [destruct El|].
      simpl. destruct (String.eqb k0 k) eqn:E0; simpl.
      * pose proof (filter_length_le
                      (fun ke : string * CacheEntry T =>
                         negb (String.eqb (fst ke) k)) rest).
        unfold remove. lia.
      * destruct El as [El|El].
        -- inversion El; subst. rewrite String.eqb_refl in E0. discriminate.
        -- specialize (IH El). unfold remove in *. lia.
    + apply lookup_None in El. contradiction.
Qed.

Lemma needsRoom_nonempty (sz : Z) (this : t T) :
  needsRoom sz this = true -> cache this <> [].
Proof.
  unfold needsRoom. intros H. apply andb_prop in H. destruct H as [_ H].
  intros E. rewrite E in H. discriminate.
Qed.

Lemma evictWhile_ends (fuel : nat) (now sz : Z) :
  forall this : t T,
    (List.length (cache this) <= fuel)%nat ->
    ~ In ""%string (keys (cache this)) ->
    exists this', evictWhile fuel now sz this = Some this'.
Proof.
  induction fuel as [|fuel IH]; intros this Hlen Hkey; simpl.
  - destruct (needsRoom sz this) eqn:E; [|eauto].
    apply needsRoom_nonempty in E. destruct (cache this); [congruence|].
    simpl in Hlen. lia.
  - destruct (needsRoom sz this) eqn:E; [|eauto].
    apply needsRoom_nonempty in E. apply IH.
    + pose proof (evictLRU_shrinks now this E Hkey). lia.
    + intros H. apply Hkey. apply (evictLRU_keys _ now). exact H.
Qed.

(** What the loop leaves: a cache reached by rounds of [evictLRU], each
    begun because room was needed, on which no room is needed any more. *)
Lemma evictWhile_result (fuel : nat) (now sz : Z) :
  forall this this' : t T,
    evictWhile fuel now sz this = Some this' ->
    needsRoom sz this' = false
    /\ exists rounds : nat,
        this' = Nat.iter rounds (evictLRU now) this
        /\ forall i : nat,
            (i < rounds)%nat ->
            needsRoom sz (Nat.iter i (evictLRU now) this) = true.
Proof.
  induction fuel as [|fuel IH]; intros this this'; simpl.
  - destruct (needsRoom sz this) eqn:E; [discriminate|].
    intros H. inversion H; subst. split; [exact E|].
    exists O. split; [reflexivity|]. intros i Hi. lia.
  - destruct (needsRoom sz this) eqn:E.
    + intros H. destruct (IH _ _ H) as [H1 (rounds & H2 & H3)].
      split; [exact H1|]. exists (S rounds). split.
      * rewrite H2. clear. induction rounds; simpl; [reflexivity|].
        rewrite IHrounds. reflexivity.
      * intros i Hi. destruct i as [|i]; [exact E|].
        replace (Nat.iter (S i) (evictLRU now) this)
          with (Nat.iter i (evictLRU now) (evictLRU now this)).
        -- apply H3. lia.
        -- clear. induction i; simpl; [reflexivity|]. rewrite IHi. reflexivity.
    + intros H. inversion H; subst. split; [exact E|].
      exists O. split; [reflexivity|]. intros i Hi. lia.
Qed.

Lemma evictWhile_bounded (fuel : nat) (now sz : Z) :
  forall this this' : t T,
    bounded this -> evictWhile fuel now sz this = Some this' ->
    bounded this' /\ maxSize this' = maxSize this
    /\ (forall k, In k (keys (cache this')) -> In k (keys (cache this))).
Proof.
  induction fuel as [|fuel IH]; intros this this' Hb; simpl.
  - destruct (needsRoom sz this); [discriminate|].
    intros H. inversion H; subst. auto.
  - destruct (needsRoom sz this).
    + intros H.
      destruct (IH _ _ (evictLRU_bounded now this Hb) H) as (H1 & H2 & H3).
      split; [exact H1|]. split; [rewrite H2; apply evictLRU_maxSize|].
      intros k Hk. apply (evictLRU_keys k now). apply H3. exact Hk.
    + intros H. inversion H; subst. auto.
Qed.

(** *** [set] *)

Lemma withoutOld_lookup (key : string) (this : t T) :
  lookup key (cache (withoutOld key this)) = None.
Proof.
  unfold withoutOld. destruct (lookup key (cache this)) as [e|] eqn:E.
  - rewrite (delete_found key this e E). simpl. apply lookup_remove.
  - exact E.
Qed.

Lemma withoutOld_bounded (key : string) (this : t T) :
  wf this ->
  wf (withoutOld key this)
  /\ sizeUsed (withoutOld key this) <= sizeUsed this
  /\ maxSize (withoutOld key this) = maxSize this.
Proof.
  intros Hwf. unfold withoutOld.
  destruct (lookup key (cache this)) as [e|].
  - split; [apply delete_wf; exact Hwf|].
    split; [apply delete_sizeUsed; exact Hwf|apply delete_maxSize].
  - split; [exact Hwf|]. split; [lia|reflexivity].
Qed.

Lemma withoutOld_keys (key k : string) (this : t T) :
  In k (keys (cache (withoutOld key this))) -> In k (keys (cache this)).
Proof.
  unfold withoutOld. destruct (lookup key (cache this)); [apply delete_keys|auto].
Qed.

(** [set] unfolded: it skips a value larger than the capacity, and
    otherwise appends the new entry once the loop has ended and the old
    entry of the key is removed. *)
Lemma set_stores (key : string) (d : T) (customTTL : option Z) (now : Z)
  (this this1 : t T) :
  estimateSize stringify d <= maxSize this ->
  evictWhile (List.length (cache this)) now (estimateSize stringify d) this
  = Some this1 ->
  set stringify key d customTTL now this
  = Some {| cache := cache (withoutOld key this1)
                       ++ [(key,
                            {| data := d; timestamp := now;
                               size := estimateSize stringify d; hits := 0;
                               expiresAt := now + ttlOf key customTTL
                                                    (withoutOld key this1) |})];
            sizeUsed := sizeUsed (withoutOld key this1)
                        + estimateSize stringify d;
            maxSize := maxSize (withoutOld key this1);
            defaultTTL := defaultTTL (withoutOld key this1) |}.
Proof.
  intros Hfit Hloop. unfold set.
  replace (estimateSize stringify d >? maxSize this) with false
    by (symmetry; rewrite Z.gtb_ltb; apply Z.ltb_ge; exact Hfit).
  rewrite Hloop. reflexivity.
Qed.

Lemma set_skips (key : string) (d : T) (customTTL : option Z) (now : Z)
  (this : t T) :
  maxSize this < estimateSize stringify d ->
  set stringify key d customTTL now this = Some this.
Proof.
  intros Hbig. unfold set.
  replace (estimateSize stringify d >? maxSize this) with true
    by (symmetry; rewrite Z.gtb_ltb; apply Z.ltb_lt; exact Hbig).
  reflexivity.
Qed.

Lemma set_bounded (key : string) (d : T) (customTTL : option Z) (now : Z)
  (this this' : t T) :
  bounded this ->
  set stringify key d customTTL now this = Some this' ->
  bounded this'
  /\ maxSize this' = maxSize this
  /\ (forall k, In k (keys (cache this')) -> In k (keys (cache this)) \/ k = key).
Proof.
  intros Hb Hset.
  destruct (Z_lt_le_dec (maxSize this) (estimateSize stringify d)) as [Hbig|Hfit].
  - rewrite (set_skips key d customTTL now this Hbig) in Hset.
    inversion Hset; subst. auto.
  - destruct (evictWhile (List.length (cache this)) now
                (estimateSize stringify d) this) as [this1|] eqn:Hloop.
    2:{ unfold set in Hset.
        replace (estimateSize stringify d >? maxSize this) with false in Hset
          by (symmetry; rewrite Z.gtb_ltb; apply Z.ltb_ge; exact Hfit).
        rewrite Hloop in Hset. discriminate. }
    rewrite (set_stores key d customTTL now this this1 Hfit Hloop) in Hset.
    inversion Hset; subst this'; clear Hset.
    destruct (evictWhile_bounded _ _ _ _ _ Hb Hloop) as ([Hwf1 Hb1] & Hmax1 & Hkeys1).
    destruct (evictWhile_result _ _ _ _ _ Hloop) as [Hroom _].
    destruct (withoutOld_bounded key this1 Hwf1) as ([Hk2 Hs2 Hu2] & Hle2 & Hmax2).
    pose proof (withoutOld_lookup key this1) as Hnone.
    assert (sizeUsed this1 + estimateSize stringify d <= maxSize this1) as Hsum.
    { unfold needsRoom in Hroom. apply andb_false_iff in Hroom.
      destruct Hroom as [H|H].
      - rewrite Z.gtb_ltb in H. apply Z.ltb_ge in H. exact H.
      - rewrite Z.gtb_ltb in H. apply Z.ltb_ge in H.
        destruct Hwf1 as [_ _ Hu1]. destruct (cache this1) as [|x xs].
        + rewrite Hu1. unfold storedSize. simpl. lia.
        + unfold len in H. simpl in H. lia. }
    split; [split; [split|]|split]; simpl.
    + unfold keys. rewrite map_app. simpl.
      apply NoDup_app; [exact Hk2|repeat constructor; simpl; tauto|].
      intros k Hin [<-|[]]. apply lookup_None in Hnone. exact (Hnone Hin).
    + apply Forall_app. split; [exact Hs2|].
      constructor; [|constructor]. simpl. apply estimateSize_nonneg.
    + rewrite storedSize_app, Hu2. unfold storedSize. simpl. lia.
    + lia.
    + lia.
    + intros k Hk. unfold keys in Hk. rewrite map_app in Hk.
      apply in_app_or in Hk. destruct Hk as [Hk|[Hk|[]]].
      * left. apply Hkeys1. apply (withoutOld_keys key). exact Hk.
      * right. symmetry. exact Hk.
Qed.

Lemma set_ends (key : string) (d : T) (customTTL : option Z) (now : Z)
  (this : t T) :
  ~ In ""%string (keys (cache this)) ->
  exists this', set stringify key d customTTL now this = Some this'.
Proof.
  intros Hkey.
  destruct (Z_lt_le_dec (maxSize this) (estimateSize stringify d)) as [Hbig|Hfit].
  - rewrite (set_skips key d customTTL now this Hbig). eauto.
  - destruct (evictWhile_ends (List.length (cache this)) now
                (estimateSize stringify d) this (le_n _) Hkey) as [this1 Hloop].
    rewrite (set_stores key d customTTL now this this1 Hfit Hloop). eauto.
Qed.

(** *** Runs of calls *)

Lemma cleanup_bounded (now : Z) (this : t T) :
  bounded this ->
  bounded (cleanup now this)
  /\ (forall k, In k (keys (cache (cleanup now this))) ->
                In k (keys (cache this))).
Proof. intros Hb. unfold cleanup. apply cleanup_fold. exact Hb. Qed.

Lemma cleanup_maxSize (now : Z) (this : t T) :
  maxSize (cleanup now this) = maxSize this.
Proof.
  unfold cleanup.
  generalize (map fst (filter (fun ke : string * CacheEntry T =>
                                 now >=? expiresAt (snd ke)) (cache this))).
  intros ks. revert this. induction ks as [|k ks IH]; intros this; simpl.
  - reflexivity.
  - rewrite IH. apply delete_maxSize.
Qed.

Lemma get_maxSize (key : string) (now : Z) (this : t T) :
  maxSize (snd (get key now this)) = maxSize this.
Proof.
  unfold get. destruct (lookup key (cache this)) as [e|]; [|reflexivity].
  destruct (now >=? expiresAt e); [apply delete_maxSize|reflexivity].
Qed.

Lemma has_maxSize (key : string) (now : Z) (this : t T) :
  maxSize (snd (has key now this)) = maxSize this.
Proof.
  unfold has. destruct (lookup key (cache this)) as [e|]; [|reflexivity].
  destruct (now >=? expiresAt e); [apply delete_maxSize|reflexivity].
Qed.

Lemma step_bounded (now : Z) (o : op T) (this this' : t T) :
  bounded this -> 0 <= maxSize this ->
  step stringify now o this = Some this' ->
  bounded this' /\ maxSize this' = maxSize this
  /\ (forall k, In k (keys (cache this')) ->
                In k (keys (cache this)) \/ storedKey o = Some k).
Proof.
  intros Hb Hmax. destruct o; simpl; intros H.
  - destruct (set_bounded _ _ _ _ _ _ Hb H) as (H1 & H2 & H3).
    split; [exact H1|]. split; [exact H2|].
    intros k Hk. destruct (H3 k Hk) as [Hin| ->]; auto.
  - inversion H; subst. split; [apply get_bounded; exact Hb|].
    split; [apply get_maxSize|]. intros k Hk. left. eapply get_keys; eauto.
  - inversion H; subst. split; [apply has_bounded; exact Hb|].
    split; [apply has_maxSize|]. intros k Hk. left. eapply has_keys; eauto.
  - inversion H; subst. split; [apply delete_bounded; exact Hb|].
    split; [apply delete_maxSize|]. intros k Hk. left. eapply delete_keys; eauto.
  - inversion H; subst. split; [apply evictLRU_bounded; exact Hb|].
    split; [apply evictLRU_maxSize|]. intros k Hk. left.
    eapply evictLRU_keys; eauto.
  - inversion H; subst. destruct (cleanup_bounded now this Hb) as [H1 H2].
    split; [exact H1|]. split; [apply cleanup_maxSize|]. auto.
  - inversion H; subst. split; [apply clear_bounded; exact Hmax|].
    split; [reflexivity|]. simpl. intros k [].
Qed.

Lemma step_ends (now : Z) (o : op T) (this : t T) :
  ~ In ""%string (keys (cache this)) ->
  exists this', step stringify now o this = Some this'.
Proof.
  intros Hkey. destruct o; simpl; eauto. apply set_ends. exact Hkey.
Qed.

Lemma run_bounded (ops : list (Z * op T)) :
  forall this : t T,
    bounded this -> 0 <= maxSize this ->
    ~ In ""%string (keys (cache this)) ->
    (forall now o, In (now, o) ops -> storedKey o <> Some ""%string) ->
    exists final,
      run stringify ops this = Some final
      /\ bounded final /\ maxSize final = maxSize this.
Proof.
  induction ops as [|[now o] rest IH]; intros this Hb Hmax Hkey Hops; simpl.
  - exists this. auto.
  - destruct (step_ends now o this Hkey) as [this' Hstep]. rewrite Hstep.
    destruct (step_bounded now o this this' Hb Hmax Hstep) as (H1 & H2 & H3).
    destruct (IH this' H1) as (final & Hrun & Hfin & Hm).
    + lia.
    + intros Hin. destruct (H3 _ Hin) as [H|H]; [exact (Hkey H)|].
      apply (Hops now o); [left; reflexivity|exact H].
    + intros now' o' Hin. apply (Hops now' o'). right. exact Hin.
    + exists final. split; [exact Hrun|]. split; [exact Hfin|lia].
Qed.

Lemma lookup_app_last (key : string) (e : CacheEntry T) (es : entries) :
  lookup key es = None -> lookup key (es ++ [(key, e)]) = Some e.
Proof.
  induction es as [|[k e0] rest IH]; simpl.
  - intros _. rewrite String.eqb_refl. reflexivity.
  - destruct (String.eqb k key); [discriminate|exact IH].
Qed.

(** *** The claims on the cache *)


(** C4, as the code has it.  From a new cache whose capacity is not
    negative, every run of [set], [get], [has], [delete], [evictLRU],
    [cleanup] and [clear] that stores under no empty key returns, and after
    it [sizeUsed] is the sum of the sizes of all the stored entries, expired
    or not, and is at most [maxSize]. *)
Theorem sizeUsed_is_sum_of_stored_sizes
  (options : CacheOptions) (ops : list (Z * op T)) :
  0 <= maxSize (constructor (T := T) options) ->
  (forall now o, In (now, o) ops -> storedKey o <> Some ""%string) ->
  exists final,
    run stringify ops (constructor options) = Some final
    /\ sizeUsed final = storedSize (cache final)
    /\ sizeUsed final <= maxSize final.
Proof.
  intros Hmax Hops.
  destruct (run_bounded ops (constructor options)) as (final & H1 & [Hwf Hb] & _).
  - split; [split|]; simpl; try constructor. exact Hmax.
  - exact Hmax.
  - simpl. tauto.
  - exact Hops.
  - exists final. split; [exact H1|]. split; [apply Hwf|exact Hb].
Qed.

(** C8, as the code has it.  For a value whose estimated size is at most
    the capacity, on a store with no empty key, [set key v ttl] with a
    positive [ttl] at time [now] returns, and then [get key] yields [v] at
    every time before [now + ttl]; from [now + ttl] on it yields [null] and
    leaves the key out of the store. *)
Theorem set_then_get (key : string) (v : T) (ttl now : Z) (this : t T) :
  0 < ttl ->
  estimateSize stringify v <= maxSize this ->
  ~ In ""%string (keys (cache this)) ->
  exists this',
    set stringify key v (Some ttl) now this = Some this'
    /\ (forall now', now' < now + ttl ->
                     fst (get key now' this') = Some v)
    /\ (forall now', now + ttl <= now' ->
                     fst (get key now' this') = None
                     /\ lookup key (cache (snd (get key now' this'))) = None).
Proof.
  intros Httl Hfit Hkey.
  destruct (evictWhile_ends (List.length (cache this)) now
              (estimateSize stringify v) this (le_n _) Hkey) as [this1 Hloop].
  rewrite (set_stores key v (Some ttl) now this this1 Hfit Hloop).
  eexists. split; [reflexivity|].
  assert (ttlOf key (Some ttl) (withoutOld key this1) = ttl) as Ettl.
  { unfold ttlOf. replace (ttl >? 0) with true; [reflexivity|].
    symmetry. rewrite Z.gtb_ltb. apply Z.ltb_lt. exact Httl. }
  rewrite Ettl.
  pose proof (lookup_app_last key
                {| data := v; timestamp := now;
                   size := estimateSize stringify v; hits := 0;
                   expiresAt := now + ttl |}
                (cache (withoutOld key this1))
                (withoutOld_lookup key this1)) as Hl.
  split.
  - intros now' Hnow. unfold get. simpl. rewrite Hl. simpl.
    replace (now' >=? now + ttl) with false; [reflexivity|].
    symmetry. rewrite Z.geb_leb. apply Z.leb_gt. exact Hnow.
  - intros now' Hnow. unfold get. simpl. rewrite Hl. simpl.
    replace (now' >=? now + ttl) with true
      by (symmetry; rewrite Z.geb_leb; apply Z.leb_le; exact Hnow).
    split; [reflexivity|].
    unfold delete. simpl. rewrite Hl. simpl. apply lookup_remove.
Qed.

End WithData.

(** *** The claims at sample caches *)


Lemma twoEntriesCache_keys : ~ In ""%string (keys (cache twoEntriesCache)).
Proof. vm_compute. intuition discriminate. Defined.



(** The scores are compared as the doubles they round to, not as
    fractions.  In [thirdsCache] at time 9, "a" has 3 hits in 9
    milliseconds and "b" has 1 hit in 3 milliseconds: the same rate, but
    [3 / 0.009] rounds above [1 / 0.003], and [evictLRU] removes "b", not
    the first of the two. *)
Remark evictLRU_compares_rounded_scores :
  map (fun ke => (fst ke, hits (snd ke), age 9 (snd ke))) (cache thirdsCache)
  = [("a"%string, 3, 9); ("b"%string, 1, 3)]
  /\ map (fun ke => score 9 (snd ke)) (cache thirdsCache)
     = [SpecFloat.S754_finite false 5864062014805334 (-44);
        SpecFloat.S754_finite false 5864062014805333 (-44)]
  /\ keys (cache (evictLRU 9 thirdsCache)) = ["a"%string].
Proof. repeat split; vm_compute; reflexivity. Qed.

(** The theorem of C4 at the run that builds [twoEntriesCache]. *)
Lemma sizeUsed_is_sum_of_stored_sizes_witness :
  exists final,
    run Some twoEntriesOps (constructor (textOptions 100)) = Some final
    /\ sizeUsed final = storedSize (cache final)
    /\ sizeUsed final <= maxSize final.
Proof.
  apply (sizeUsed_is_sum_of_stored_sizes Some (textOptions 100) twoEntriesOps).
  - simpl. lia.
  - intros now o H. simpl in H.
    repeat (destruct H as [H|H];
            [inversion H; subst; simpl; discriminate|]).
    destruct H.
Defined.

(** C4 fails as stated: in [oneExpiredCache] at time 2000, right after the
    second [set], the entry "a" expired at 1000 and is still stored;
    [sizeUsed] is 32, the sum over the entries that expire after 2000 is
    12. *)
Lemma sizeUsed_counts_expired_entries :
  oneExpired = Some oneExpiredCache
  /\ map (fun ke => (fst ke, expiresAt (snd ke), size (snd ke)))
       (cache oneExpiredCache)
     = [("a"%string, 1000, 20); ("b"%string, 3000, 12)]
  /\ sizeUsed oneExpiredCache = 32
  /\ specLiveSize 2000 (cache oneExpiredCache) = 12.
Proof. repeat split; vm_compute; reflexivity. Qed.

(** The theorem of C8 at [twoEntriesCache]. *)
Lemma set_then_get_witness :
  exists this',
    set Some "k" "hello"%string (Some 1000) 6000 twoEntriesCache = Some this'
    /\ (forall now', now' < 6000 + 1000 ->
                     fst (get "k" now' this') = Some "hello"%string)
    /\ (forall now', 6000 + 1000 <= now' ->
                     fst (get "k" now' this') = None
                     /\ lookup "k" (cache (snd (get "k" now' this'))) = None).
Proof.
  apply (set_then_get Some "k" "hello"%string 1000 6000 twoEntriesCache).
  - lia.
  - vm_compute. discriminate.
  - exact twoEntriesCache_keys.
Defined.

(** C8 fails as stated: a cache of capacity 0, which is how the server
    disables caching, stores nothing, and [get] right after [set] yields
    [null]. *)
Lemma set_skips_what_does_not_fit :
  set Some "k" "hello"%string (Some 1000) 0 (textCache 0)
  = Some (textCache 0)
  /\ fst (get "k" 1 (textCache 0)) = None.
Proof. split; vm_compute; reflexivity. Qed.

(** *** [createKey] *)

Lemma validParts_none (parts : list part) :
  (len (filter (fun p => negb (nullish p)) parts) =? 0) = forallb nullish parts.
Proof.
  induction parts as [|p rest IH]; simpl; [reflexivity|].
  destruct (nullish p); simpl; [exact IH|].
  unfold len. simpl. reflexivity.
Qed.

Lemma stringParts_throws (validParts : list part) :
  existsb (fun p => strlen (normalize p) =? 0) validParts = true ->
  stringParts validParts = Thrown "Cache key parts cannot be empty strings".
Proof.
  induction validParts as [|p rest IH]; simpl; [discriminate|].
  destruct (strlen (normalize p) =? 0); simpl; [reflexivity|].
  intros H. rewrite (IH H). reflexivity.
Qed.

Lemma stringParts_returns (validParts : list part) :
  existsb (fun p => strlen (normalize p) =? 0) validParts = false ->
  exists strs, stringParts validParts = Returned strs.
Proof.
  induction validParts as [|p rest IH]; simpl; [eauto|].
  destruct (strlen (normalize p) =? 0); simpl; [discriminate|].
  intros H. destruct (IH H) as [strs ->]. eauto.
Qed.

Lemma emptyPart_valid (parts : list part) :
  existsb (fun p => strlen (normalize p) =? 0)
    (filter (fun p => negb (nullish p)) parts)
  = existsb emptyPart parts.
Proof.
  induction parts as [|p rest IH]; simpl; [reflexivity|].
  unfold emptyPart at 1. destruct (nullish p); simpl; [exact IH|].
  rewrite IH. reflexivity.
Qed.

Lemma emptyPart_not_all_nullish (parts : list part) :
  existsb emptyPart parts = true -> forallb nullish parts = false.
Proof.
  induction parts as [|p rest IH]; simpl; [discriminate|].
  unfold emptyPart at 1. destruct (nullish p); simpl; [exact IH|reflexivity].
Qed.

(** C10.  [createKey] throws when every part is [undefined] or [null], and
    when some part that is neither is empty once converted to a string,
    lowercased and trimmed; on every other list of parts it returns a
    key. *)
Theorem createKey_throws_exactly (parts : list part) :
  (forallb nullish parts = true ->
   createKey parts = Thrown "Cache key must have at least one part")
  /\ (existsb emptyPart parts = true ->
      createKey parts = Thrown "Cache key parts cannot be empty strings")
  /\ (forallb nullish parts = false -> existsb emptyPart parts = false ->
      exists key, createKey parts = Returned key).
Proof.
  unfold createKey. rewrite validParts_none. repeat split.
  - intros ->. reflexivity.
  - intros H. rewrite (emptyPart_not_all_nullish parts H).
    rewrite <- emptyPart_valid in H.
    rewrite (stringParts_throws _ H). reflexivity.
  - intros -> H. rewrite <- emptyPart_valid in H.
    destruct (stringParts_returns _ H) as [strs ->].
    destruct (strlen (join ":" strs) >? 256); eauto.
Qed.

(** [if (lruKey)] takes the empty key for no key: [evictLRU] removes
    nothing from a store whose entry of the least score has the empty key,
    and a [set] that needs room then never ends. *)
Remark evictLRU_skips_the_empty_key :
  keys (cache emptyKeyCache) = [EmptyString]
  /\ evictLRU 10 emptyKeyCache = emptyKeyCache
  /\ set Some "b" "0123456789"%string None 10 emptyKeyCache = None.
Proof. repeat split; vm_compute; reflexivity. Qed.

End CacheManagerFacts.

(** ** RedditAPI: backoff and the responses that end a call *)

Module RedditAPIFacts.
Import RedditAPI.

(** *** [calculateBackoff] *)

Local Open Scope Q_scope.

Lemma base_le_200 (k : Z) :
  (1 <= k)%Z -> inject_Z 100 * inject_Z 2 ^ (2 - k) <= 200.
Proof.
  intros Hk.
  assert (inject_Z 2 ^ (2 - k) <= inject_Z 2 ^ 1) as H
    by (apply Qpower_le_compat_l; [lia|unfold Qle; simpl; lia]).
  change (inject_Z 2 ^ 1) with (inject_Z 2) in H.
  change (inject_Z 100) with 100. change (inject_Z 2) with 2 in *.
  lra.
Qed.

Lemma base_pos (k : Z) : 0 < inject_Z 100 * inject_Z 2 ^ (2 - k).
Proof.
  assert (0 < inject_Z 2 ^ (2 - k)) as H
    by (apply Qpower_0_lt; reflexivity).
  change (inject_Z 100) with 100. lra.
Qed.

Lemma base_halves (a b : Z) :
  (b < a)%Z ->
  2 * (inject_Z 100 * inject_Z 2 ^ (2 - a))
  <= inject_Z 100 * inject_Z 2 ^ (2 - b).
Proof.
  intros Hab.
  assert (inject_Z 2 ^ (2 - a) <= inject_Z 2 ^ (2 - b - 1)) as H1
    by (apply Qpower_le_compat_l; [lia|unfold Qle; simpl; lia]).
  assert (inject_Z 2 ^ (2 - b - 1) == inject_Z 2 ^ (2 - b) / inject_Z 2 ^ 1) as H2
    by (apply Qpower_minus; discriminate).
  change (inject_Z 2 ^ 1) with 2 in H2.
  assert (0 < inject_Z 2 ^ (2 - b)) as H3 by (apply Qpower_0_lt; reflexivity).
  rewrite H2 in H1. change (inject_Z 100) with 100.
  set (x := inject_Z 2 ^ (2 - a)) in *. set (y := inject_Z 2 ^ (2 - b)) in *.
  assert (y / 2 == y * (1 # 2)) as H4 by (unfold Qdiv; reflexivity).
  rewrite H4 in H1. lra.
Qed.

Lemma calculateBackoff_unfold (k : Z) (random : Q) :
  calculateBackoff k random = round (jittered k random).
Proof. reflexivity. Qed.

Lemma capped_pos (k : Z) : 0 < capped k.
Proof.
  unfold capped. apply Q.min_glb_lt; [apply base_pos|reflexivity].
Qed.

Lemma capped_small (k : Z) : (1 <= k)%Z -> capped k <= 200.
Proof.
  intros Hk. unfold capped.
  eapply Qle_trans; [apply Q.le_min_l|apply base_le_200; exact Hk].
Qed.

Lemma capped_halves (a b : Z) :
  (1 <= b)%Z -> (b < a)%Z -> 2 * capped a <= capped b.
Proof.
  intros Hb Hab. unfold capped at 2.
  rewrite Q.min_l.
  - pose proof (base_halves a b Hab) as H.
    assert (capped a <= inject_Z 100 * inject_Z 2 ^ (2 - a)) as H1
      by (unfold capped; apply Q.le_min_l).
    change INITIAL_BACKOFF_MS with 100%Z. change BACKOFF_MULTIPLIER with 2%Z.
    lra.
  - pose proof (base_le_200 b Hb) as H.
    change INITIAL_BACKOFF_MS with 100%Z. change BACKOFF_MULTIPLIER with 2%Z.
    change (inject_Z MAX_BACKOFF_MS) with 30000. lra.
Qed.

Lemma jittered_bounds (k : Z) (random : Q) :
  0 <= random -> random <= 1 ->
  (8 # 10) * capped k <= jittered k random
  /\ jittered k random <= (12 # 10) * capped k.
Proof.
  intros H0 H1. pose proof (capped_pos k) as Hc. unfold jittered.
  set (c := capped k) in *.
  assert ((8 # 10) * c <= c + c * (2 # 10) * (random * 2 - 1)) as Hlo by nra.
  assert (c + c * (2 # 10) * (random * 2 - 1) <= (12 # 10) * c) as Hhi by nra.
  rewrite Q.max_r by lra. split; assumption.
Qed.

Lemma round_mono (x y : Q) : x <= y -> (round x <= round y)%Z.
Proof. intros H. unfold round. apply Qfloor_resp_le. lra. Qed.

(** In the range of the jitter, a call with a larger budget left waits no
    longer than a call with a smaller one. *)
Lemma calculateBackoff_grows (a b : Z) (r1 r2 : Q) :
  (1 <= b)%Z -> (b < a)%Z ->
  0 <= r1 -> r1 <= 1 -> 0 <= r2 -> r2 <= 1 ->
  (calculateBackoff a r1 <= calculateBackoff b r2)%Z.
Proof.
  intros Hb Hab H1 H2 H3 H4. rewrite !calculateBackoff_unfold.
  apply round_mono.
  destruct (jittered_bounds a r1 H1 H2) as [_ Ha].
  destruct (jittered_bounds b r2 H3 H4) as [Hlo _].
  pose proof (capped_halves a b Hb Hab). pose proof (capped_pos a).
  lra.
Qed.

(** With a budget of at least one retry left the delay is at most 240 ms,
    far below the ceiling. *)
Lemma calculateBackoff_bounds (k : Z) (random : Q) :
  (1 <= k)%Z -> 0 <= random -> random <= 1 ->
  (0 <= calculateBackoff k random <= 240)%Z.
Proof.
  intros Hk H0 H1. rewrite calculateBackoff_unfold.
  destruct (jittered_bounds k random H0 H1) as [Hlo Hhi].
  pose proof (capped_small k Hk). pose proof (capped_pos k).
  split.
  - change 0%Z with (round 0). apply round_mono. lra.
  - change 240%Z with (round 240). apply round_mono. lra.
Qed.

Local Close Scope Q_scope.

(** *** The shape of an attempt *)

Section WithData.

Context {Data : Type}.

Lemma catchClause_shape (a : attempt Data) (retries : nat)
  (again : option (RateLimiter.t -> outcome (Data := Data)))
  (error : JsError) (limiter : RateLimiter.t) :
  (exists error', catchClause a retries again error limiter = fails error' limiter)
  \/ (exists retry,
        again = Some retry
        /\ catchClause a retries again error limiter
           = andThen (BackoffWait (calculateBackoff (Z.of_nat retries)
                                     (at_random a)))
               (retry limiter)).
Proof.
  unfold catchClause.
  destruct (String.eqb (err_name error) "AbortError").
  { destruct again as [retry|]; [right; eauto|left; eauto]. }
  destruct (hasCode error "ECONNRESET").
  { destruct again as [retry|]; [right; eauto|].
    destruct (hasCode error "ENOTFOUND"); [left; eauto|].
    destruct (hasCode error "ECONNREFUSED"); [left; eauto|].
    destruct (hasCode error "ETIMEDOUT"); [left; eauto|].
    destruct (hasCode error "UNABLE_TO_VERIFY_LEAF_SIGNATURE"); [left; eauto|].
    left. destruct (err_cause error) as [[[cc|] cm ch]|];
      repeat match goal with
             | |- context [match ?x with _ => _ end] => destruct x
             end; eauto. }
  destruct (hasCode error "ENOTFOUND"); [left; eauto|].
  destruct (hasCode error "ECONNREFUSED"); [left; eauto|].
  destruct (hasCode error "ETIMEDOUT").
  { destruct again as [retry|]; [right; eauto|left; eauto]. }
  destruct (hasCode error "UNABLE_TO_VERIFY_LEAF_SIGNATURE"); [left; eauto|].
  left. destruct (err_cause error) as [[[cc|] cm ch]|];
    repeat match goal with
           | |- context [match ?x with _ => _ end] => destruct x
           end; eauto.
Qed.

(** An [Error] the [try] block makes is surfaced as [surfaced] says. *)
Lemma throwNew_surfaced (a : attempt Data) (retries : nat)
  (again : option (RateLimiter.t -> outcome (Data := Data)))
  (limiter : RateLimiter.t) (message : string) :
  throwNew a retries again limiter message = fails (surfaced message) limiter.
Proof.
  unfold throwNew, catchClause, surfaced, newError, hasCode. simpl.
  destruct (includes "fetch failed" message); [reflexivity|].
  destruct (includes "fetch" message); reflexivity.
Qed.

Lemma andThen_prepend (e : event) (out : outcome (Data := Data)) :
  andThen e out = prepend [e] out.
Proof. destruct out as [[r evs] l]. reflexivity. Qed.

Lemma prepend_prepend (xs ys : list event) (out : outcome (Data := Data)) :
  prepend xs (prepend ys out) = prepend (xs ++ ys) out.
Proof. destruct out as [[r evs] l]. simpl. rewrite app_assoc. reflexivity. Qed.

(** An attempt either ends the call, having waited for no backoff, or goes
    on with the next attempt, having waited for at most the one backoff of
    its budget. *)
Lemma attemptOnce_shape (endpoint : string) (a : attempt Data) (retries : nat)
  (again : option (RateLimiter.t -> outcome (Data := Data)))
  (limiter : RateLimiter.t) :
  (exists r evs l,
      attemptOnce endpoint a retries again limiter = (r, evs, l)
      /\ backoffWaits evs = [])
  \/ (exists retry l pre,
        again = Some retry
        /\ attemptOnce endpoint a retries again limiter = prepend pre (retry l)
        /\ (backoffWaits pre = []
            \/ backoffWaits pre
               = [calculateBackoff (Z.of_nat retries) (at_random a)])).
Proof.
  assert (forall error l url,
             (exists r evs l',
                 andThen (Fetch url) (catchClause a retries again error l)
                 = (r, evs, l') /\ backoffWaits evs = [])
             \/ (exists retry l' pre,
                   again = Some retry
                   /\ andThen (Fetch url) (catchClause a retries again error l)
                      = prepend pre (retry l')
                   /\ (backoffWaits pre = []
                       \/ backoffWaits pre
                          = [calculateBackoff (Z.of_nat retries) (at_random a)])))
    as Hcatch.
  { intros error l url.
    destruct (catchClause_shape a retries again error l)
      as [[error' ->]|(retry & Hretry & ->)].
    - left. unfold fails. simpl. eauto.
    - right. exists retry, l, [Fetch url; BackoffWait
                                 (calculateBackoff (Z.of_nat retries) (at_random a))].
      split; [exact Hretry|]. split; [|right; reflexivity].
      rewrite !andThen_prepend, prepend_prepend. reflexivity. }
  assert (forall message l url,
             exists r evs l',
               andThen (Fetch url) (throwNew a retries again l message)
               = (r, evs, l') /\ backoffWaits evs = []) as Hthrow.
  { intros message l url. rewrite throwNew_surfaced. unfold fails. simpl. eauto. }
  unfold attemptOnce.
  destruct (RateLimiter.canMakeRequest (at_check a) (others (at_before a) limiter))
    as [can limiter1].
  destruct can; simpl negb; cbv iota.
  2:{ left. destruct (RateLimiter.getErrorMessage _ _ _) as [message l].
      unfold fails. eauto. }
  destruct (at_headers a) as [[]|error]; [|left; unfold fails; eauto].
  destruct (at_fetch a) as [response|error]; [|apply Hcatch].
  destruct (RateLimiter.recordRequest (at_record a) (others (at_others a) limiter1))
    as [[[]|message] limiter2]; [|left; apply Hthrow].
  destruct ((status response =? 401) && at_authenticated a).
  { destruct again as [retry|].
    - destruct (at_refresh a) as [[]|e1].
      + destruct (at_headers_again a) as [[]|e2].
        * right. exists retry, limiter2, [Fetch (urlOf a endpoint); Refresh].
          split; [reflexivity|]. split; [|left; reflexivity].
          rewrite !andThen_prepend, prepend_prepend. reflexivity.
        * left. rewrite throwNew_surfaced. unfold fails. simpl. eauto.
      + left. rewrite throwNew_surfaced. unfold fails. simpl. eauto.
    - destruct (negb (ok response)).
      + destruct ((status response =? 503) || (status response =? 429));
          left; apply Hthrow.
      + destruct (isHtml response); [left; apply Hthrow|].
        destruct (json response) as [data|error]; [|apply Hcatch].
        left. simpl. eauto. }
  destruct (negb (ok response)).
  - destruct ((status response =? 503) || (status response =? 429)).
    + destruct again as [retry|]; [|left; apply Hthrow].
      right. exists retry, limiter2.
      destruct (getRetryAfterDelay response (at_now a)) as [delay|].
      * exists [Fetch (urlOf a endpoint); RetryAfterWait delay].
        split; [reflexivity|]. split; [|left; reflexivity].
        rewrite !andThen_prepend, prepend_prepend. reflexivity.
      * exists [Fetch (urlOf a endpoint);
                BackoffWait (calculateBackoff (Z.of_nat retries) (at_random a))].
        split; [reflexivity|]. split; [|right; reflexivity].
        rewrite !andThen_prepend, prepend_prepend. reflexivity.
    + left. apply Hthrow.
  - destruct (isHtml response); [left; apply Hthrow|].
    destruct (json response) as [data|error]; [|apply Hcatch].
    left. simpl. eauto.
Qed.

(** *** The backoff delays of a call *)

Lemma backoffWaits_app (xs ys : list event) :
  backoffWaits (xs ++ ys) = backoffWaits xs ++ backoffWaits ys.
Proof.
  induction xs as [|e xs IH]; simpl; [reflexivity|].
  destruct e; simpl; rewrite IH; reflexivity.
Qed.

Lemma prepend_events (pre : list event) (out : outcome (Data := Data)) :
  snd (fst (prepend pre out)) = pre ++ snd (fst out).
Proof. destruct out as [[r evs] l]. reflexivity. Qed.

Lemma nondecreasing_cons (x : Z) (xs : list Z) :
  (forall y, In y xs -> x <= y) -> nondecreasing xs -> nondecreasing (x :: xs).
Proof.
  intros Hle Hxs. destruct xs as [|y ys]; simpl; [exact I|].
  split; [apply Hle; left; reflexivity|exact Hxs].
Qed.

Lemma getImpl_waits (endpoint : string) (world : nat -> attempt Data) :
  (forall i, (0 <= at_random (world i))%Q /\ (at_random (world i) <= 1)%Q) ->
  forall (retries n : nat) (limiter : RateLimiter.t),
    nondecreasing
      (backoffWaits (snd (fst (getImpl endpoint retries n world limiter))))
    /\ Forall
         (fun w =>
            exists (j : Z) (r : Q),
              1 <= j <= Z.of_nat retries
              /\ (0 <= r)%Q /\ (r <= 1)%Q /\ w = calculateBackoff j r)
         (backoffWaits (snd (fst (getImpl endpoint retries n world limiter)))).
Proof.
  intros Hrandom. induction retries as [|retries IH]; intros n limiter.
  - simpl getImpl.
    destruct (attemptOnce_shape endpoint (world n) 0 None limiter)
      as [(r & evs & l & -> & Hw)|(retry & _ & _ & Hnone & _)];
      [|discriminate].
    simpl. rewrite Hw. split; [exact I|constructor].
  - simpl getImpl.
    destruct (attemptOnce_shape endpoint (world n) (S retries)
                (Some (getImpl endpoint retries (S n) world)) limiter)
      as [(r & evs & l & -> & Hw)|(retry & l & pre & Hretry & -> & Hpre)].
    + simpl. rewrite Hw. split; [exact I|constructor].
    + inversion Hretry; subst retry; clear Hretry.
      rewrite prepend_events, backoffWaits_app.
      destruct (IH (S n) l) as [Hsorted Hall].
      assert (Forall
                (fun w =>
                   exists (j : Z) (r : Q),
                     1 <= j <= Z.of_nat (S retries)
                     /\ (0 <= r)%Q /\ (r <= 1)%Q /\ w = calculateBackoff j r)
                (backoffWaits
                   (snd (fst (getImpl endpoint retries (S n) world l)))))
        as Hall'.
      { eapply Forall_impl; [|exact Hall]. simpl.
        intros w (j & r & Hj & H0 & H1 & ->). exists j, r.
        repeat split; try assumption; lia. }
      destruct Hpre as [-> | ->]; simpl app.
      * split; assumption.
      * destruct (Hrandom n) as [H0 H1]. split.
        -- apply nondecreasing_cons; [|exact Hsorted].
           intros y Hy. rewrite Forall_forall in Hall.
           destruct (Hall y Hy) as (j & r & Hj & Hr0 & Hr1 & ->).
           apply calculateBackoff_grows; try assumption; lia.
        -- constructor; [|exact Hall'].
           exists (Z.of_nat (S retries)), (at_random (world n)).
           repeat split; try assumption; lia.
Qed.

(** C6.  Within the jitter of 20 % either way ([Math.random()] from 0 to
    1): with at least one retry left [calculateBackoff] is at
    most the ceiling; a call with fewer retries left waits at least as long
    as a call with more; and in every run of [getImpl], whatever the budget
    and whatever the world does, the delays that [calculateBackoff] computes
    never go down from one to the next and never exceed the ceiling. *)
Theorem backoff_delays_grow_below_the_ceiling :
  (forall (retriesLeft : Z) (random : Q),
      1 <= retriesLeft -> (0 <= random)%Q -> (random <= 1)%Q ->
      0 <= calculateBackoff retriesLeft random <= MAX_BACKOFF_MS)
  /\ (forall (more fewer : Z) (r1 r2 : Q),
        1 <= fewer -> fewer < more ->
        (0 <= r1)%Q -> (r1 <= 1)%Q -> (0 <= r2)%Q -> (r2 <= 1)%Q ->
        calculateBackoff more r1 <= calculateBackoff fewer r2)
  /\ (forall (endpoint : string) (retries n : nat)
             (world : nat -> attempt Data) (limiter : RateLimiter.t),
        (forall i, (0 <= at_random (world i))%Q /\ (at_random (world i) <= 1)%Q) ->
        nondecreasing
          (backoffWaits (snd (fst (getImpl endpoint retries n world limiter))))
        /\ Forall (fun w => 0 <= w <= MAX_BACKOFF_MS)
             (backoffWaits
                (snd (fst (getImpl endpoint retries n world limiter))))).
Proof.
  split; [|split].
  - intros k random Hk H0 H1.
    pose proof (calculateBackoff_bounds k random Hk H0 H1).
    unfold MAX_BACKOFF_MS. lia.
  - intros more fewer r1 r2 Hf Hm. apply calculateBackoff_grows; assumption.
  - intros endpoint retries n world limiter Hrandom.
    destruct (getImpl_waits endpoint world Hrandom retries n limiter)
      as [Hsorted Hall].
    split; [exact Hsorted|].
    eapply Forall_impl; [|exact Hall]. simpl.
    intros w (j & r & Hj & H0 & H1 & ->).
    pose proof (calculateBackoff_bounds j r ltac:(lia) H0 H1).
    unfold MAX_BACKOFF_MS. lia.
Qed.

(** *** The responses that end a call *)


End WithData.

(** *** The claims at sample worlds *)



(** Outside the budgets [getImpl] passes, the jitter can take
    [calculateBackoff] over the ceiling: the cap comes before the jitter. *)
Remark calculateBackoff_over_the_ceiling_off_budget :
  calculateBackoff (-7) (999 # 1000) = 35988.
Proof. vm_compute. reflexivity. Qed.

End RedditAPIFacts.

(** ** AuthManager: what [getAccessToken] yields, and the single refresh *)

Module AuthManagerFacts.
Import AuthManager.

Lemma In_setNth {A : Type} (n : nat) (x y : A) (xs : list A) :
  In y (setNth n x xs) -> y = x \/ In y xs.
Proof.
  revert n. induction xs as [|z xs IH]; intros n H; simpl in *.
  - destruct H.
  - destruct n as [|n]; simpl in H.
    + destruct H as [H|H]; auto.
    + destruct H as [H|H]; [auto|]. destruct (IH n H); auto.
Qed.

Lemma Forall_setNth {A : Type} (P : A -> Prop) (n : nat) (x : A) (xs : list A) :
  P x -> Forall P xs -> Forall P (setNth n x xs).
Proof.
  intros Hx H. apply Forall_forall. intros y Hy.
  destruct (In_setNth n x y xs Hy) as [->|Hin]; [exact Hx|].
  rewrite Forall_forall in H. apply H. exact Hin.
Qed.

Lemma length_setNth {A : Type} (n : nat) (x : A) (xs : list A) :
  List.length (setNth n x xs) = List.length xs.
Proof.
  revert n. induction xs as [|z xs IH]; intros n; simpl; [reflexivity|].
  destruct n; simpl; [reflexivity|]. rewrite IH. reflexivity.
Qed.

Lemma results_In (cs : list caller) (r : settled (option string)) :
  In r (results cs) <-> In (Done r) cs.
Proof.
  induction cs as [|c cs IH]; simpl; [tauto|].
  destruct c; simpl; rewrite IH; split; intros H;
    try (right; exact H);
    try (destruct H as [H|H]; [discriminate|exact H]).
  - destruct H as [->|H]; auto.
  - destruct H as [H|H]; [inversion H; auto|auto].
Qed.

Lemma orNull_present (c : AuthConfig) :
  truthy (accessToken c) = true ->
  exists token, orNull (accessToken c) = Some token /\ token <> EmptyString.
Proof.
  unfold orNull. intros H. rewrite H.
  destruct (accessToken c) as [token|]; [|discriminate].
  exists token. split; [reflexivity|].
  simpl in H. apply negb_true_iff, String.eqb_neq in H. exact H.
Qed.

Lemma lastLine_ok (cfg0 : option AuthConfig) (this : t) :
  (config this = None <-> cfg0 = None) ->
  tokenPresent (config this) -> resultOk cfg0 (lastLine this).
Proof.
  intros Hcfg Htok. unfold lastLine.
  destruct (config this) as [c|] eqn:E; [|destruct Htok].
  destruct (orNull_present c Htok) as (token & -> & Hne).
  simpl. split; [exact Hne|]. intros H0. apply Hcfg in H0. discriminate.
Qed.

Lemma callerOk_config (cfg0 cfg cfg' : option AuthConfig) (cs : list caller) :
  (tokenPresent cfg -> tokenPresent cfg') ->
  Forall (callerOk cfg0 cfg) cs -> Forall (callerOk cfg0 cfg') cs.
Proof.
  intros Hmono H. eapply Forall_impl; [|exact H].
  intros c Hc. destruct c as [p|p|[e|]|r]; simpl in *; auto.
Qed.

Lemma call_sound (cfg0 : option AuthConfig) (now : Z) (randomId : string)
  (this : t) : sound cfg0 this -> sound cfg0 (call now randomId this).
Proof.
  intros [Hcfg Href Hcs]. unfold call.
  destruct (config this) as [c|] eqn:E.
  - destruct (needsRefresh c now) eqn:Hneed.
    + destruct (tokenRefreshPromise this) as [p|].
      * split; simpl; rewrite ?E; auto.
        apply Forall_app. split; [exact Hcs|]. repeat constructor.
      * destruct (negb (truthy (Some (clientId c)))).
        -- split; simpl; rewrite ?E; auto.
           ++ intros [H|H]; apply in_app_or in H;
                destruct H as [H|[H|[]]]; try discriminate;
                [apply (Href (or_introl H))|apply (Href (or_intror H))].
           ++ apply Forall_app. split; [exact Hcs|]. repeat constructor.
        -- split; simpl.
           ++ split; [discriminate|]. intros H. apply Hcfg in H. discriminate.
           ++ intros [H|H]; apply in_app_or in H;
                destruct H as [H|[H|[]]]; try discriminate;
                [apply (Href (or_introl H))|apply (Href (or_intror H))].
           ++ apply Forall_app. split; [|repeat constructor].
              eapply callerOk_config; [|exact Hcs]. simpl. auto.
    + split; simpl; rewrite ?E; auto.
      apply Forall_app. split; [exact Hcs|]. constructor; [|constructor].
      unfold needsRefresh in Hneed. apply orb_false_iff in Hneed.
      destruct Hneed as [Htok _]. apply negb_false_iff in Htok.
      destruct (orNull_present c Htok) as (token & -> & Hne).
      simpl. split; [exact Hne|]. intros H0. apply Hcfg in H0. discriminate.
  - split; simpl; rewrite ?E; auto.
    apply Forall_app. split; [exact Hcs|]. constructor; [|constructor].
    simpl. apply Hcfg. reflexivity.
Qed.

Lemma withRefresh_failed_sound (cfg0 : option AuthConfig) (p : nat)
  (error : JsError) (this : t) :
  nth_error (refreshes this) p = Some Fetching \/
  nth_error (refreshes this) p = Some Saving ->
  sound cfg0 this ->
  sound cfg0 (withRefresh p (Failed error) (config this) this).
Proof.
  intros _ [Hcfg Href Hcs]. split; simpl; auto.
  intros [H|H]; apply In_setNth in H; destruct H as [H|H];
    try discriminate; auto.
Qed.

Lemma answered_sound (cfg0 : option AuthConfig) (p : nat) (a : answer)
  (now : Z) (this this' : t) :
  sound cfg0 this -> answered p a now this = Some this' -> sound cfg0 this'.
Proof.
  intros Hs. unfold answered.
  destruct (nth_error (refreshes this) p) as [[| | |e]|] eqn:Ep;
    try discriminate.
  intros H. inversion H; subst this'; clear H.
  destruct a as [error|status body|error|raw];
    try (apply withRefresh_failed_sound; auto).
  destruct (wellFormed raw) eqn:Hwf;
    [|apply withRefresh_failed_sound; auto].
  destruct Hs as [Hcfg Href Hcs].
  destruct (config this) as [c|] eqn:E.
  - assert (truthy (access_token raw) = true) as Htok.
    { unfold wellFormed in Hwf.
      apply andb_prop in Hwf. destruct Hwf as [Hwf _].
      apply andb_prop in Hwf. destruct Hwf as [Hwf _].
      apply andb_prop in Hwf. destruct Hwf as [Hwf _]. exact Hwf. }
    split; simpl.
    + split; [discriminate|]. intros H. apply Hcfg in H. discriminate.
    + intros _. exact Htok.
    + eapply callerOk_config; [|exact Hcs]. simpl. auto.
  - split; simpl; auto.
    intros [H|H]; apply In_setNth in H; destruct H as [H|H];
      try discriminate;
      [apply (Href (or_introl H))|apply (Href (or_intror H))].
Qed.

Lemma saved_sound (cfg0 : option AuthConfig) (p : nat) (r : result unit)
  (this this' : t) :
  sound cfg0 this -> saved p r this = Some this' -> sound cfg0 this'.
Proof.
  intros Hs. unfold saved.
  destruct (nth_error (refreshes this) p) as [[| | |e]|] eqn:Ep;
    try discriminate.
  intros H. inversion H; subst this'; clear H.
  destruct r as [[]|message]; [|apply withRefresh_failed_sound; auto].
  destruct Hs as [Hcfg Href Hcs]. split; simpl; auto.
  intros _. apply Href. right. eapply nth_error_In. exact Ep.
Qed.

Lemma resume_sound (cfg0 : option AuthConfig) (i : nat) (this this' : t) :
  sound cfg0 this -> resume i this = Some this' -> sound cfg0 this'.
Proof.
  intros [Hcfg Href Hcs]. unfold resume.
  destruct (nth_error (callers this) i) as [[p|p|[e|]|r]|] eqn:Ei;
    try discriminate.
  - destruct (nth_error (refreshes this) p) as [[| | |e]|] eqn:Ep;
      try discriminate; intros H; inversion H; subst this'; clear H;
      split; simpl; auto; apply Forall_setNth; auto.
    + simpl. apply lastLine_ok; [exact Hcfg|].
      apply Href. left. eapply nth_error_In. exact Ep.
    + simpl. exact I.
  - destruct (nth_error (refreshes this) p) as [[| | |e]|] eqn:Ep;
      try discriminate; intros H; inversion H; subst this'; clear H;
      split; simpl; auto; apply Forall_setNth; auto.
    + simpl. apply Href. left. eapply nth_error_In. exact Ep.
    + simpl. exact I.
  - intros H; inversion H; subst this'; clear H.
    split; simpl; auto. apply Forall_setNth; auto. simpl. exact I.
  - intros H; inversion H; subst this'; clear H.
    split; simpl; auto. apply Forall_setNth; auto.
    simpl. apply lastLine_ok; [exact Hcfg|].
    rewrite Forall_forall in Hcs.
    apply (Hcs (Returning None)). eapply nth_error_In. exact Ei.
Qed.

Lemma run_sound (cfg0 : option AuthConfig) (events : list event) :
  forall this final : t,
    sound cfg0 this -> run events this = Some final -> sound cfg0 final.
Proof.
  induction events as [|e events IH]; intros this final Hs; simpl.
  - intros H. inversion H; subst. exact Hs.
  - destruct (step e this) as [this'|] eqn:E; [|discriminate].
    apply IH. destruct e as [now id|p a now|p r|i]; simpl in E.
    + inversion E; subst. apply call_sound. exact Hs.
    + eapply answered_sound; eassumption.
    + eapply saved_sound; eassumption.
    + eapply resume_sound; eassumption.
Qed.

(** With no configuration loaded every call returns [null] at once, and
    nothing else can happen. *)
Lemma run_unconfigured (events : list event) :
  forall this final : t,
    config this = None -> refreshes this = [] ->
    Forall (fun c => c = Done (Resolved None)) (callers this) ->
    tokenRequests this = O ->
    run events this = Some final ->
    Forall (fun c => c = Done (Resolved None)) (callers final)
    /\ tokenRequests final = O.
Proof.
  induction events as [|e events IH]; intros this final Hc Hr Hcs Hn; simpl.
  - intros H. inversion H; subst. auto.
  - destruct e as [now id|p a now|p r|i]; simpl.
    + apply IH; unfold call; rewrite Hc; simpl; auto.
      apply Forall_app. split; [exact Hcs|]. repeat constructor.
    + unfold answered. rewrite Hr. destruct p; discriminate.
    + unfold saved. rewrite Hr. destruct p; discriminate.
    + unfold resume. destruct (nth_error (callers this) i) as [c|] eqn:Ei;
        [|discriminate].
      rewrite Forall_forall in Hcs.
      rewrite (Hcs c (nth_error_In _ _ Ei)). discriminate.
Qed.

(** C5, as the code has it.  Whatever happens to a manager that started
    with the configuration [cfg0] and nothing in flight, every call of
    [getAccessToken] that has ended has thrown, or returned a token that is
    not empty, or, when no configuration is loaded, returned [null]; and
    without a configuration every call returns [null] at once and no
    request goes to the token endpoint. *)
Theorem getAccessToken_yields_token_or_error_when_configured
  (cfg0 : option AuthConfig) (events : list event) (final : t) :
  run events (start cfg0) = Some final ->
  Forall (resultOk cfg0) (results (callers final))
  /\ (cfg0 = None ->
      Forall (fun c => c = Done (Resolved None)) (callers final)
      /\ tokenRequests final = O).
Proof.
  intros Hrun. split.
  - assert (sound cfg0 (start cfg0)) as H0.
    { split; simpl; [tauto|intros [[]|[]]|constructor]. }
    destruct (run_sound cfg0 events _ _ H0 Hrun) as [_ _ Hcs].
    apply Forall_forall. intros r Hr. apply results_In in Hr.
    rewrite Forall_forall in Hcs. apply (Hcs _ Hr).
  - intros ->. apply (run_unconfigured events (start None) final); auto.
Qed.

(** The theorem of C5 at three calls on a configured manager. *)
Lemma getAccessToken_yields_token_or_error_when_configured_witness :
  Forall (resultOk (Some installedApp)) (results (callers threeCallsEnd))
  /\ (Some installedApp = None ->
      Forall (fun c => c = Done (Resolved None)) (callers threeCallsEnd)
      /\ tokenRequests threeCallsEnd = O).
Proof.
  apply (getAccessToken_yields_token_or_error_when_configured
           (Some installedApp) threeCallsRun threeCallsEnd).
  vm_compute. reflexivity.
Defined.

(** C5 fails as stated: with no configuration loaded [getAccessToken]
    returns [null] and does not throw. *)
Lemma getAccessToken_returns_null_unconfigured :
  option_map callers (run [Call 0 "id"] (start None))
  = Some [Done (Resolved None)].
Proof. vm_compute. reflexivity. Qed.

(** *** The single refresh *)

Lemma run_app (xs ys : list event) :
  forall this : t,
    run (xs ++ ys) this
    = match run xs this with
      | Some this' => run ys this'
      | None => None
      end.
Proof.
  induction xs as [|e xs IH]; intros this; simpl; [reflexivity|].
  destruct (step e this); [apply IH|reflexivity].
Qed.

Lemma needsRefresh_same (c c' : AuthConfig) (now : Z) :
  accessToken c' = accessToken c -> expiresAt c' = expiresAt c ->
  needsRefresh c' now = needsRefresh c now.
Proof.
  intros H1 H2. unfold needsRefresh, isTokenExpired. rewrite H1, H2.
  reflexivity.
Qed.

(** The first call starts the refresh. *)
Lemma first_call (c : AuthConfig) (now : Z) (randomId : string) :
  truthy (Some (clientId c)) = true -> needsRefresh c now = true ->
  inflight c (call now randomId (start (Some c)))
  /\ refreshes (call now randomId (start (Some c))) = [Fetching]
  /\ tokenRefreshPromise (call now randomId (start (Some c))) = Some O.
Proof.
  intros Hid Hneed. unfold call, start.
  cbn [config tokenRefreshPromise refreshes callers tokenRequests].
  rewrite Hneed, Hid. cbn [negb app List.length].
  split; [|split; reflexivity].
  eexists Fetching, _, (Refreshing 0), [].
  cbn [config tokenRefreshPromise refreshes callers tokenRequests clientId
         accessToken expiresAt ownerOk].
  repeat split; try reflexivity; try constructor.
  intros [H|H]; discriminate.
Qed.

(** A call made while the endpoint has not answered awaits the refresh. *)
Lemma later_call (c : AuthConfig) (now : Z) (randomId : string) (this : t) :
  needsRefresh c now = true ->
  inflight c this -> refreshes this = [Fetching] ->
  tokenRefreshPromise this = Some O ->
  inflight c (call now randomId this)
  /\ refreshes (call now randomId this) = [Fetching]
  /\ tokenRefreshPromise (call now randomId this) = Some O.
Proof.
  intros Hneed (st & cfg & first & waiters & Hn & Hr & Hc & Hcs & Hid
                & Ho & Hw & Htok & Hsame) Hst Hm.
  rewrite Hr in Hst. inversion Hst; subst st.
  destruct (Hsame eq_refl) as [Ha He].
  unfold call. rewrite Hc, (needsRefresh_same c cfg now Ha He), Hneed, Hm.
  cbn [config tokenRefreshPromise refreshes callers tokenRequests].
  split; [|split; [exact Hr|reflexivity]].
  exists Fetching, cfg, first, (waiters ++ [AwaitingRefresh 0]).
  cbn [config tokenRefreshPromise refreshes callers tokenRequests].
  rewrite Hcs. rewrite Hm in Ho.
  repeat split; try assumption; try reflexivity.
  apply Forall_app. split; [exact Hw|]. repeat constructor.
Qed.

Lemma calls_inflight (calls : list (Z * string)) :
  forall (c : AuthConfig) (this : t),
    Forall (fun call => needsRefresh c (fst call) = true) calls ->
    inflight c this -> refreshes this = [Fetching] ->
    tokenRefreshPromise this = Some O ->
    exists this',
      run (map (fun call => Call (fst call) (snd call)) calls) this = Some this'
      /\ inflight c this'.
Proof.
  induction calls as [|[now id] calls IH]; intros c this Hall H1 H2 H3.
  - exists this. split; [reflexivity|exact H1].
  - inversion Hall as [|? ? Hfirst Hrest]; subst. simpl in Hfirst.
    destruct (later_call c now id this Hfirst H1 H2 H3) as (H1' & H2' & H3').
    simpl. apply (IH c _ Hrest H1' H2' H3').
Qed.

(** Every call adds a caller, and nothing else does. *)
Lemma run_callers (events : list event) :
  forall this final : t,
    run events this = Some final ->
    List.length (callers final)
    = (List.length (callers this)
       + List.length (filter isCall events))%nat.
Proof.
  induction events as [|e events IH]; intros this final; simpl.
  - intros H. inversion H; subst. lia.
  - destruct (step e this) as [this'|] eqn:E; [|discriminate].
    intros H. rewrite (IH _ _ H).
    destruct e as [now id|p a now|p r|i]; simpl in E |- *.
    + inversion E; subst. unfold call.
      destruct (config this) as [c|]; cbn [callers];
        [|rewrite length_app; simpl; lia].
      destruct (needsRefresh c now); cbn [callers];
        [|rewrite length_app; simpl; lia].
      destruct (tokenRefreshPromise this); cbn [callers];
        [rewrite length_app; simpl; lia|].
      destruct (negb (truthy (Some (clientId c)))); cbn [callers];
        rewrite length_app; simpl; lia.
    + unfold answered in E.
      destruct (nth_error (refreshes this) p) as [[| | |e]|]; try discriminate.
      inversion E; subst.
      destruct a as [error|status body|error|raw]; simpl; try lia.
      destruct (wellFormed raw); simpl; [|lia].
      destruct (config this); simpl; lia.
    + unfold saved in E.
      destruct (nth_error (refreshes this) p) as [[| | |e]|]; try discriminate.
      inversion E; subst. destruct r; simpl; lia.
    + unfold resume in E.
      destruct (nth_error (callers this) i) as [[p|p|[e|]|r]|];
        try discriminate;
        try (destruct (nth_error (refreshes this) p) as [[| | |e']|];
             try discriminate);
        inversion E; subst; simpl; rewrite length_setNth; lia.
Qed.

Lemma waiters_unsettled (st st' : refresh) (cfg cfg' : AuthConfig)
  (ws : list caller) :
  st = Fetching \/ st = Saving ->
  Forall (waiterOk st cfg) ws -> Forall (waiterOk st' cfg') ws.
Proof.
  intros Hst H. eapply Forall_impl; [|exact H].
  intros w Hw. destruct w as [p|p|thrown|r]; simpl in *; auto.
  destruct Hst as [-> | ->]; destruct Hw.
Qed.

Lemma owner_unsettled (st st' : refresh) (cfg cfg' : AuthConfig)
  (marker : option nat) (first : caller) :
  st = Fetching \/ st = Saving ->
  ownerOk st cfg marker first -> ownerOk st' cfg' marker first.
Proof.
  intros Hst H. destruct first as [p|p|thrown|r]; simpl in *; auto.
  - destruct H as [_ H]. destruct Hst as [-> | ->]; destruct H.
  - destruct H as [_ H]. destruct Hst as [-> | ->]; destruct H.
Qed.

Lemma nth_error_single {A : Type} (x y : A) (p : nat) :
  nth_error [x] p = Some y -> p = O /\ y = x.
Proof.
  destruct p as [|p]; simpl.
  - intros H. inversion H. auto.
  - destruct p; discriminate.
Qed.

Lemma inflight_intro (c : AuthConfig) (this : t) (st : refresh)
  (cfg : AuthConfig) (first : caller) (waiters : list caller) :
  tokenRequests this = 1%nat ->
  refreshes this = [st] ->
  config this = Some cfg ->
  callers this = first :: waiters ->
  clientId cfg = clientId c ->
  ownerOk st cfg (tokenRefreshPromise this) first ->
  Forall (waiterOk st cfg) waiters ->
  (st = Saving \/ st = Fulfilled -> truthy (accessToken cfg) = true) ->
  (st = Fetching ->
   accessToken cfg = accessToken c /\ expiresAt cfg = expiresAt c) ->
  inflight c this.
Proof.
  intros. exists st, cfg, first, waiters. repeat (split; [assumption|]).
  assumption.
Qed.

Ltac project :=
  unfold withRefresh, withCaller;
  cbn [config tokenRefreshPromise refreshes callers tokenRequests setNth
         clientId accessToken expiresAt].

(** What is not a call keeps the one refresh the only one. *)
Lemma step_inflight (c : AuthConfig) (e : event) (this this' : t) :
  isCall e = false -> inflight c this -> step e this = Some this' ->
  inflight c this'.
Proof.
  intros Hcall (st & cfg & first & waiters & Hn & Hr & Hc & Hcs & Hid
                & Ho & Hw & Htok & Hsame).
  destruct e as [now id|p a now|p r|i]; [discriminate| | |]; simpl.
  - (* the endpoint answers *)
    unfold answered. rewrite Hr.
    destruct (nth_error [st] p) as [st0|] eqn:Ep; [|discriminate].
    apply nth_error_single in Ep. destruct Ep as [-> ->].
    destruct st; try discriminate.
    intros H. inversion H; subst this'; clear H.
    assert (forall error,
               inflight c (withRefresh 0 (Failed error) (config this) this))
      as Hfail.
    { intros error.
      apply (inflight_intro c _ (Failed error) cfg first waiters); project;
        rewrite ?Hr; try assumption; try reflexivity.
      - eapply owner_unsettled; [left; reflexivity|exact Ho].
      - eapply waiters_unsettled; [left; reflexivity|exact Hw].
      - intros [H|H]; discriminate.
      - discriminate. }
    destruct a as [error|status body|error|raw]; try apply Hfail.
    destruct (wellFormed raw) eqn:Hwf; [|apply Hfail].
    rewrite Hc.
    apply (inflight_intro c _ Saving
             {| clientId := clientId cfg;
                accessToken := access_token raw;
                refreshToken := refreshToken cfg;
                expiresAt :=
                  option_map (fun n => now + n * 1000) (expires_in raw);
                scope := response_scope raw;
                userAgent := userAgent cfg;
                deviceId := deviceId cfg |} first waiters); project;
      rewrite ?Hr; try assumption; try reflexivity.
    + intros _. unfold wellFormed in Hwf.
      apply andb_prop in Hwf. destruct Hwf as [Hwf _].
      apply andb_prop in Hwf. destruct Hwf as [Hwf _].
      apply andb_prop in Hwf. destruct Hwf as [Hwf _]. exact Hwf.
    + discriminate.
  - (* the save ends *)
    unfold saved. rewrite Hr.
    destruct (nth_error [st] p) as [st0|] eqn:Ep; [|discriminate].
    apply nth_error_single in Ep. destruct Ep as [-> ->].
    destruct st; try discriminate.
    intros H. inversion H; subst this'; clear H.
    destruct r as [[]|message].
    + apply (inflight_intro c _ Fulfilled cfg first waiters); project;
        rewrite ?Hr; try assumption; try reflexivity.
      * eapply owner_unsettled; [right; reflexivity|exact Ho].
      * eapply waiters_unsettled; [right; reflexivity|exact Hw].
      * intros _. apply Htok. left. reflexivity.
      * discriminate.
    + eapply (inflight_intro c _ (Failed _) cfg first waiters); project;
        rewrite ?Hr; try eassumption; try reflexivity.
      * eapply owner_unsettled; [right; reflexivity|exact Ho].
      * eapply waiters_unsettled; [right; reflexivity|exact Hw].
      * intros [H|H]; discriminate.
      * discriminate.
  - (* a caller goes on *)
    unfold resume. rewrite Hcs, Hr. destruct i as [|j]; cbn [nth_error].
    + (* the caller that started the refresh *)
      destruct first as [p|p|[error|]|r]; try discriminate.
      * destruct Ho.
      * destruct Ho as [-> Hm]. cbn [nth_error].
        destruct st; try discriminate; intros H; inversion H; subst this';
          clear H.
        -- apply (inflight_intro c _ Fulfilled cfg (Returning None) waiters);
             project; rewrite ?Hr, ?Hcs; try assumption; try reflexivity.
           split; [reflexivity|exact I].
        -- apply (inflight_intro c _ (Failed error) cfg
                    (Returning (Some error)) waiters);
             project; rewrite ?Hr, ?Hcs; try assumption; try reflexivity.
           split; reflexivity.
      * destruct Ho as [Hm Hst].
        destruct st; try destruct Hst.
        intros H; inversion H; subst this'; clear H.
        apply (inflight_intro c _ (Failed error) cfg
                 (Done (Rejected error)) waiters);
          project; rewrite ?Hr, ?Hcs; try assumption; try reflexivity.
        split; [exact Hm|reflexivity].
      * destruct Ho as [Hm Hst].
        destruct st; try destruct Hst.
        intros H; inversion H; subst this'; clear H.
        apply (inflight_intro c _ Fulfilled cfg (Done (lastLine this)) waiters);
          project; rewrite ?Hr, ?Hcs; try assumption; try reflexivity.
        split; [exact Hm|]. unfold lastLine. rewrite Hc. reflexivity.
    + (* a caller that awaits the refresh *)
      destruct (nth_error waiters j) as [w|] eqn:Ej; [|discriminate].
      pose proof (nth_error_In _ _ Ej) as Hin.
      pose proof Hw as Hw'. rewrite Forall_forall in Hw'.
      pose proof (Hw' w Hin) as Hwj.
      destruct w as [p|p|thrown|r]; simpl in Hwj; try contradiction;
        try discriminate.
      subst p. cbn [nth_error].
      destruct st; try discriminate; intros H; inversion H; subst this';
        clear H.
      * apply (inflight_intro c _ Fulfilled cfg first
                 (setNth j (Done (lastLine this)) waiters));
          project; rewrite ?Hr, ?Hcs; try assumption; try reflexivity.
        apply Forall_setNth; [|exact Hw].
        simpl. unfold lastLine. rewrite Hc. reflexivity.
      * apply (inflight_intro c _ (Failed error) cfg first
                 (setNth j (Done (Rejected error)) waiters));
          project; rewrite ?Hr, ?Hcs; try assumption; try reflexivity.
        apply Forall_setNth; [|exact Hw].
        simpl. reflexivity.
Qed.

Lemma run_inflight (c : AuthConfig) (events : list event) :
  forall this final : t,
    forallb (fun e => negb (isCall e)) events = true ->
    inflight c this -> run events this = Some final -> inflight c final.
Proof.
  induction events as [|e events IH]; intros this final Hev Hin; simpl.
  - intros H. inversion H; subst. exact Hin.
  - simpl in Hev. apply andb_prop in Hev. destruct Hev as [He Hev].
    apply negb_true_iff in He.
    destruct (step e this) as [this'|] eqn:E; [|discriminate].
    apply (IH _ _ Hev). eapply step_inflight; eassumption.
Qed.

Lemma filter_isCall_calls (calls : list (Z * string)) :
  List.length
    (filter isCall (map (fun call => Call (fst call) (snd call)) calls))
  = List.length calls.
Proof.
  induction calls as [|call calls IH]; simpl; [reflexivity|].
  rewrite IH. reflexivity.
Qed.

Lemma filter_isCall_none (events : list event) :
  forallb (fun e => negb (isCall e)) events = true ->
  filter isCall events = [].
Proof.
  induction events as [|e events IH]; simpl; [reflexivity|].
  intros H. apply andb_prop in H. destruct H as [He H].
  apply negb_true_iff in He. rewrite He. apply IH. exact H.
Qed.

(** C9, as the code has it.  On a manager whose configuration has a client
    id, calls of [getAccessToken] that are all made before the token
    endpoint answers, each of them finding no token or an expired one, send
    one request to the token endpoint; the calls that have ended have all
    ended alike, with the token of the refresh when it is fulfilled and with
    its error when it fails; once the call that started the refresh has
    ended, the marker [tokenRefreshPromise] is cleared, whether the refresh
    was fulfilled or not; after a failed refresh a new call that finds no
    token, or an expired one, sends a new request, while a new call that
    finds a token that is not expired, as after a refresh that failed at
    its [save], returns that token and sends none; and once the refresh is
    settled every caller that has not ended can go on. *)
Theorem refresh_is_single_flight
  (c : AuthConfig) (calls : list (Z * string)) (rest : list event)
  (final : t) :
  truthy (Some (clientId c)) = true ->
  calls <> [] ->
  Forall (fun call => needsRefresh c (fst call) = true) calls ->
  forallb (fun e => negb (isCall e)) rest = true ->
  run (map (fun call => Call (fst call) (snd call)) calls ++ rest)
    (start (Some c)) = Some final ->
  tokenRequests final = 1%nat
  /\ List.length (callers final) = List.length calls
  /\ (exists outcome,
        Forall (fun r => r = outcome) (results (callers final))
        /\ (refreshes final = [Fulfilled] ->
            exists token,
              outcome = Resolved (Some token) /\ token <> EmptyString)
        /\ (forall error,
              refreshes final = [Failed error] -> outcome = Rejected error))
  /\ (forall r,
        hd_error (callers final) = Some (Done r) ->
        tokenRefreshPromise final = None)
  /\ (forall error now randomId,
        refreshes final = [Failed error] ->
        tokenRefreshPromise final = None ->
        (forall cfg, config final = Some cfg -> needsRefresh cfg now = true) ->
        tokenRequests (call now randomId final) = 2%nat)
  /\ (forall error now randomId cfg,
        refreshes final = [Failed error] ->
        config final = Some cfg ->
        needsRefresh cfg now = false ->
        tokenRequests (call now randomId final) = 1%nat
        /\ callers (call now randomId final)
           = callers final ++ [Done (Resolved (orNull (accessToken cfg)))])
  /\ (forall i waiting,
        nth_error (callers final) i = Some waiting ->
        refreshes final = [Fulfilled]
        \/ (exists error, refreshes final = [Failed error]) ->
        (exists r, waiting = Done r)
        \/ (exists next, resume i final = Some next)).
Proof.
  intros Hid Hne Hall Hrest Hrun.
  assert (List.length (callers final) = List.length calls) as Hlen.
  { rewrite (run_callers _ _ _ Hrun). simpl.
    rewrite filter_app, length_app, filter_isCall_calls.
    rewrite (filter_isCall_none rest Hrest). simpl. lia. }
  assert (inflight c final) as Hin.
  { destruct calls as [|[now id] calls]; [congruence|].
    inversion Hall as [|? ? Hfirst Hcalls]; subst. simpl in Hfirst.
    destruct (first_call c now id Hid Hfirst) as (H1 & H2 & H3).
    simpl in Hrun. rewrite run_app in Hrun.
    destruct (calls_inflight calls c _ Hcalls H1 H2 H3) as (mid & Hmid & Hinf).
    rewrite Hmid in Hrun.
    exact (run_inflight c rest mid final Hrest Hinf Hrun). }
  destruct Hin as (st & cfg & first & waiters & Hn & Hr & Hc & Hcs & Hcid
                   & Ho & Hw & Htok & Hsame).
  split; [exact Hn|]. split; [exact Hlen|].
  split; [|split; [|split; [|split]]].
  - exists (match st with
            | Fulfilled => Resolved (orNull (accessToken cfg))
            | Failed error => Rejected error
            | _ => Resolved None
            end).
    split; [|split].
    + apply Forall_forall. intros r Hres. apply results_In in Hres.
      rewrite Hcs in Hres. destruct Hres as [Hres|Hres].
      * subst first. destruct Ho as [_ Ho].
        destruct st; simpl in Ho; try contradiction; exact Ho.
      * rewrite Forall_forall in Hw. specialize (Hw _ Hres).
        destruct st; simpl in Hw; try contradiction; exact Hw.
    + rewrite Hr. intros H. inversion H; subst st.
      destruct (orNull_present cfg (Htok (or_intror eq_refl)))
        as (token & -> & Htoken).
      exists token. auto.
    + rewrite Hr. intros error H. inversion H; subst st. reflexivity.
  - intros r Hhd. rewrite Hcs in Hhd. simpl in Hhd.
    inversion Hhd; subst first. apply Ho.
  - intros error now randomId _ Hm Hneed.
    unfold call. rewrite Hc, (Hneed cfg Hc), Hm, Hcid, Hid.
    cbn [negb tokenRequests]. rewrite Hn. reflexivity.
  - intros error now randomId cfg' _ Hc' Hvalid.
    unfold call. rewrite Hc', Hvalid. cbn [tokenRequests callers].
    split; [exact Hn|reflexivity].
  - intros i waiting Hi Hsettled. unfold resume. rewrite Hi, Hr.
    rewrite Hcs in Hi. destruct i as [|j]; simpl in Hi.
    + inversion Hi; subst waiting.
      destruct first as [p|p|[error|]|r]; simpl in Ho; try contradiction;
        eauto.
      destruct Ho as [-> _]. simpl.
      destruct Hsettled as [Hs|[error Hs]]; rewrite Hr in Hs;
        inversion Hs; subst st; eauto.
    + pose proof (nth_error_In _ _ Hi) as Hin.
      rewrite Forall_forall in Hw. specialize (Hw _ Hin).
      destruct waiting as [p|p|thrown|r]; simpl in Hw; try contradiction;
        eauto.
      subst p. simpl.
      destruct Hsettled as [Hs|[error Hs]]; rewrite Hr in Hs;
        inversion Hs; subst st; eauto.
Qed.

(** The theorem of C9 at three calls, a good answer and a save that
    succeeds. *)
Lemma refresh_is_single_flight_witness :
  tokenRequests threeCallsEnd = 1%nat
  /\ List.length (callers threeCallsEnd) = List.length threeCalls
  /\ (exists outcome,
        Forall (fun r => r = outcome) (results (callers threeCallsEnd))
        /\ (refreshes threeCallsEnd = [Fulfilled] ->
            exists token,
              outcome = Resolved (Some token) /\ token <> EmptyString)
        /\ (forall error,
              refreshes threeCallsEnd = [Failed error] ->
              outcome = Rejected error))
  /\ (forall r,
        hd_error (callers threeCallsEnd) = Some (Done r) ->
        tokenRefreshPromise threeCallsEnd = None)
  /\ (forall error now randomId,
        refreshes threeCallsEnd = [Failed error] ->
        tokenRefreshPromise threeCallsEnd = None ->
        (forall cfg,
            config threeCallsEnd = Some cfg -> needsRefresh cfg now = true) ->
        tokenRequests (call now randomId threeCallsEnd) = 2%nat)
  /\ (forall error now randomId cfg,
        refreshes threeCallsEnd = [Failed error] ->
        config threeCallsEnd = Some cfg ->
        needsRefresh cfg now = false ->
        tokenRequests (call now randomId threeCallsEnd) = 1%nat
        /\ callers (call now randomId threeCallsEnd)
           = callers threeCallsEnd
               ++ [Done (Resolved (orNull (accessToken cfg)))])
  /\ (forall i waiting,
        nth_error (callers threeCallsEnd) i = Some waiting ->
        refreshes threeCallsEnd = [Fulfilled]
        \/ (exists error, refreshes threeCallsEnd = [Failed error]) ->
        (exists r, waiting = Done r)
        \/ (exists next, resume i threeCallsEnd = Some next)).
Proof.
  apply (refresh_is_single_flight installedApp threeCalls thenSettled
           threeCallsEnd).
  - reflexivity.
  - discriminate.
  - repeat constructor.
  - reflexivity.
  - vm_compute. reflexivity.
Defined.

(** C9 fails as stated: with no configuration loaded no valid token
    exists, and two calls send no request to the token endpoint. *)
Lemma unconfigured_calls_send_no_request :
  option_map (fun this => (tokenRequests this, callers this))
    (run [Call 0 "a"; Call 0 "b"] (start None))
  = Some (O, [Done (Resolved None); Done (Resolved None)]).
Proof. vm_compute. reflexivity. Qed.

(** A refresh that fails at its [save] has stored the token before: the
    call that started it ends with the error, the marker is cleared, and
    the next call, made while the token is not expired, returns the token
    with no new request.  One made after the token expires sends a new
    request. *)
Remark failed_save_keeps_the_token :
  option_map
    (fun this =>
       (refreshes this, tokenRefreshPromise this, tokenRequests this,
        callers this))
    (run savedFails (start (Some installedApp)))
  = Some ([Failed
             (newError
                "Failed to refresh access token: Error: Failed to save auth configuration: EACCES: permission denied")],
          None, 1%nat,
          [Done
             (Rejected
                (newError
                   "Failed to refresh access token: Error: Failed to save auth configuration: EACCES: permission denied"));
           Done (Resolved (Some "tok"%string))])
  /\ option_map tokenRequests
       (run (savedFails ++ [Call 3600000 "id3"%string])
          (start (Some installedApp)))
     = Some 2%nat.
Proof. split; vm_compute; reflexivity. Qed.

End AuthManagerFacts.

(** * More of the code: the other methods and their callers *)

(** ** More on lists and strings *)

Lemma In_firstn {A : Type} (n : nat) (x : A) (xs : list A) :
  In x (firstn n xs) -> In x xs.
Proof.
  revert xs. induction n as [|n IH]; intros [|y ys]; cbn [firstn In];
    try contradiction.
  intros [H|H]; auto.
Qed.

Lemma strlen_nonneg (s : string) : 0 <= strlen s.
Proof. unfold strlen. lia. Qed.

Lemma strlen_app (a b : string) : strlen (a ++ b) = strlen a + strlen b.
Proof.
  unfold strlen. induction a as [|c a IH]; cbn [append String.length]; lia.
Qed.

Lemma strlen_cons (c : ascii) (s : string) : strlen (String c s) = 1 + strlen s.
Proof. unfold strlen. cbn [String.length]. lia. Qed.

Lemma strlen_mapString (f : ascii -> ascii) (s : string) :
  strlen (mapString f s) = strlen s.
Proof.
  induction s as [|c s IH]; [reflexivity|].
  cbn [mapString]. rewrite !strlen_cons, IH. reflexivity.
Qed.

Lemma everyChar_app (p : ascii -> bool) (a b : string) :
  everyChar p (a ++ b) = everyChar p a && everyChar p b.
Proof.
  induction a as [|c a IH]; [reflexivity|].
  cbn [append everyChar]. rewrite IH, andb_assoc. reflexivity.
Qed.

Lemma everyChar_weaken (p q : ascii -> bool) (s : string) :
  (forall c, p c = true -> q c = true) ->
  everyChar p s = true -> everyChar q s = true.
Proof.
  intros Hpq. induction s as [|c s IH]; [reflexivity|].
  cbn [everyChar]. rewrite !andb_true_iff. intros [H1 H2]. auto.
Qed.

Lemma everyChar_substring (p : ascii -> bool) (s : string) :
  forall n m : nat,
    everyChar p s = true -> everyChar p (String.substring n m s) = true.
Proof.
  induction s as [|c s IH]; intros n m H.
  - destruct n, m; reflexivity.
  - cbn [everyChar] in H. apply andb_prop in H. destruct H as [Hc Hs].
    destruct n as [|n]; destruct m as [|m]; cbn [String.substring];
      try reflexivity.
    + cbn [everyChar]. rewrite Hc. apply IH. exact Hs.
    + apply IH. exact Hs.
    + apply IH. exact Hs.
Qed.

Lemma length_substring_prefix (s : string) :
  forall m : nat,
    (m <= String.length s)%nat ->
    String.length (String.substring 0 m s) = m.
Proof.
  induction s as [|c s IH]; intros m H.
  - cbn [String.length] in H. destruct m; [reflexivity|lia].
  - destruct m as [|m]; [reflexivity|].
    cbn [String.substring String.length] in *. rewrite IH; lia.
Qed.

Lemma lowerChar_lowerChar (c : ascii) : lowerChar (lowerChar c) = lowerChar c.
Proof. destruct c as [[] [] [] [] [] [] [] []]; reflexivity. Qed.

Lemma isWhiteSpace_lowerChar (c : ascii) :
  isWhiteSpace (lowerChar c) = isWhiteSpace c.
Proof. destruct c as [[] [] [] [] [] [] [] []]; reflexivity. Qed.

Lemma toLowerCase_toLowerCase (s : string) :
  toLowerCase (toLowerCase s) = toLowerCase s.
Proof.
  unfold toLowerCase. induction s as [|c s IH]; [reflexivity|].
  cbn [mapString]. rewrite lowerChar_lowerChar, IH. reflexivity.
Qed.

Lemma toLowerCase_app (a b : string) :
  toLowerCase (a ++ b) = (toLowerCase a ++ toLowerCase b)%string.
Proof.
  unfold toLowerCase. induction a as [|c a IH]; [reflexivity|].
  cbn [append mapString]. rewrite IH. reflexivity.
Qed.

Lemma trimStart_toLowerCase (s : string) :
  trimStart (toLowerCase s) = toLowerCase (trimStart s).
Proof.
  unfold toLowerCase. induction s as [|c s IH]; [reflexivity|].
  cbn [mapString trimStart]. rewrite isWhiteSpace_lowerChar.
  destruct (isWhiteSpace c); [exact IH|reflexivity].
Qed.

Lemma trimEnd_toLowerCase (s : string) :
  trimEnd (toLowerCase s) = toLowerCase (trimEnd s).
Proof.
  unfold toLowerCase. induction s as [|c s IH]; [reflexivity|].
  cbn [mapString trimEnd]. rewrite IH, isWhiteSpace_lowerChar.
  destruct (trimEnd s) as [|c' r]; cbn [mapString].
  - destruct (isWhiteSpace c); reflexivity.
  - reflexivity.
Qed.

Lemma trim_toLowerCase (s : string) :
  trim (toLowerCase s) = toLowerCase (trim s).
Proof. unfold trim. rewrite trimStart_toLowerCase, trimEnd_toLowerCase. reflexivity. Qed.

Lemma trimEnd_trimEnd (s : string) : trimEnd (trimEnd s) = trimEnd s.
Proof.
  induction s as [|c s IH]; [reflexivity|].
  cbn [trimEnd]. destruct (trimEnd s) as [|c' r] eqn:E.
  - destruct (isWhiteSpace c) eqn:Ec; [reflexivity|].
    cbn [trimEnd]. rewrite Ec. reflexivity.
  - cbn [trimEnd]. cbn [trimEnd] in IH. rewrite IH. reflexivity.
Qed.

(** A string that does not begin with white space. *)
Lemma trimStart_head (s : string) :
  trimStart s = EmptyString
  \/ exists c r, trimStart s = String c r /\ isWhiteSpace c = false.
Proof.
  induction s as [|c s IH]; [left; reflexivity|].
  cbn [trimStart]. destruct (isWhiteSpace c) eqn:E; [exact IH|].
  right. exists c, s. split; [reflexivity|exact E].
Qed.

Lemma trimStart_trimEnd_head (c : ascii) (r : string) :
  isWhiteSpace c = false ->
  trimStart (trimEnd (String c r)) = trimEnd (String c r).
Proof.
  intros E. cbn [trimEnd]. destruct (trimEnd r); [rewrite E|];
    cbn [trimStart]; rewrite E; reflexivity.
Qed.

Lemma trim_trim (s : string) : trim (trim s) = trim s.
Proof.
  unfold trim. destruct (trimStart_head s) as [E|(c & r & E & Hc)]; rewrite E.
  - reflexivity.
  - rewrite (trimStart_trimEnd_head c r Hc). apply trimEnd_trimEnd.
Qed.

Lemma append_assoc (a b c : string) : ((a ++ b) ++ c = a ++ (b ++ c))%string.
Proof. induction a as [|x a IH]; cbn [append]; [reflexivity|]. rewrite IH. reflexivity. Qed.

Lemma substring_all (s : string) : String.substring 0 (String.length s) s = s.
Proof. induction s as [|c s IH]; cbn [String.substring String.length]; [reflexivity|]. rewrite IH. reflexivity. Qed.

Lemma dropString_app (p z : string) : dropString (String.length p) (p ++ z) = z.
Proof.
  unfold dropString. induction p as [|c p IH]; cbn [append String.length].
  - rewrite Nat.sub_0_r. apply substring_all.
  - cbn [String.substring]. exact IH.
Qed.

Lemma substring_split (s : string) :
  forall k : nat,
    (k <= String.length s)%nat ->
    s = (String.substring 0 k s ++ dropString k s)%string.
Proof.
  unfold dropString. induction s as [|c s IH]; intros k Hk.
  - cbn [String.length] in Hk. destruct k; [reflexivity|lia].
  - destruct k as [|k].
    + rewrite Nat.sub_0_r, substring_all. reflexivity.
    + cbn [String.length] in Hk. cbn [String.substring append String.length Nat.sub].
      rewrite <- (IH k) by lia. reflexivity.
Qed.

(** A string that ends with [suffix] is some string, then [suffix]. *)
Lemma endsWith_app (suffix s : string) :
  endsWith suffix s = true -> exists pre : string, s = (pre ++ suffix)%string.
Proof.
  unfold endsWith. intros H. apply andb_prop in H. destruct H as [Hle Heq].
  apply Nat.leb_le in Hle. apply String.eqb_eq in Heq.
  exists (String.substring 0 (String.length s - String.length suffix) s).
  rewrite <- Heq at 2. apply substring_split. lia.
Qed.

Lemma substring_app_prefix (p z : string) :
  forall n : nat,
    (String.length p <= n)%nat ->
    String.substring 0 n (p ++ z)
    = (p ++ String.substring 0 (n - String.length p) z)%string.
Proof.
  induction p as [|c p IH]; intros n Hn; cbn [append String.length] in *.
  - rewrite Nat.sub_0_r. reflexivity.
  - destruct n as [|n]; [lia|]. cbn [String.substring append Nat.sub].
    rewrite IH by lia. reflexivity.
Qed.

(** What follows the last colon: if [a ++ u] is [b], a colon, then [y], and
    [u] holds no colon, [u] is the end of [y]. *)
Lemma after_last_colon (a : string) :
  forall b u y : string,
    (a ++ u = b ++ String ":" y)%string ->
    everyChar notColon u = true ->
    exists r : string, y = (r ++ u)%string.
Proof.
  induction a as [|c a IH]; intros b u y H Hu; cbn [append] in H.
  - subst u. rewrite everyChar_app in Hu. cbn [everyChar] in Hu.
    change (notColon ":") with false in Hu. cbn [andb] in Hu.
    rewrite andb_false_r in Hu. discriminate.
  - destruct b as [|d b]; cbn [append] in H.
    + injection H as _ H. exists a. symmetry. exact H.
    + injection H as _ H. apply (IH b u y H Hu).
Qed.

Lemma everyChar_mapString (p : ascii -> bool) (f : ascii -> ascii) (s : string) :
  (forall c, p c = true -> p (f c) = true) ->
  everyChar p s = true -> everyChar p (mapString f s) = true.
Proof.
  intros Hf. induction s as [|c s IH]; [reflexivity|].
  cbn [everyChar mapString]. rewrite !andb_true_iff. intros [H1 H2]. auto.
Qed.

Lemma everyChar_trimStart (p : ascii -> bool) (s : string) :
  everyChar p s = true -> everyChar p (trimStart s) = true.
Proof.
  induction s as [|c s IH]; [reflexivity|].
  cbn [trimStart]. destruct (isWhiteSpace c); [|auto].
  cbn [everyChar]. rewrite andb_true_iff. intros [_ H]. auto.
Qed.

Lemma everyChar_trimEnd (p : ascii -> bool) (s : string) :
  everyChar p s = true -> everyChar p (trimEnd s) = true.
Proof.
  induction s as [|c s IH]; [reflexivity|].
  cbn [trimEnd everyChar]. rewrite andb_true_iff. intros [Hc Hs].
  specialize (IH Hs). destruct (trimEnd s).
  - destruct (isWhiteSpace c); [reflexivity|]. cbn [everyChar]. rewrite Hc. reflexivity.
  - cbn [everyChar] in *. rewrite Hc. exact IH.
Qed.

Lemma everyChar_trim (p : ascii -> bool) (s : string) :
  everyChar p s = true -> everyChar p (trim s) = true.
Proof. intros H. apply everyChar_trimEnd, everyChar_trimStart, H. Qed.

(** The text of an integer holds digits and the minus sign. *)
Lemma string_of_uint_chars (d : Decimal.uint) :
  everyChar isDigitOrMinus (NilEmpty.string_of_uint d) = true.
Proof. induction d; cbn [NilEmpty.string_of_uint everyChar]; try rewrite IHd; reflexivity. Qed.

Lemma show_Z_chars (z : Z) : everyChar isDigitOrMinus (show_Z z) = true.
Proof.
  unfold show_Z, NilZero.string_of_int.
  assert (forall d, everyChar isDigitOrMinus (NilZero.string_of_uint d) = true) as H.
  { intros d. unfold NilZero.string_of_uint. destruct d;
      solve [reflexivity | apply string_of_uint_chars]. }
  destruct (Z.to_int z); [apply H|]. cbn [everyChar]. rewrite H. reflexivity.
Qed.

Lemma prefix_substring (s : string) :
  forall n : nat, String.prefix (String.substring 0 n s) s = true.
Proof.
  induction s as [|c s IH]; intros [|n]; cbn [String.substring String.prefix];
    try reflexivity.
  destruct (ascii_dec c c) as [_|H]; [apply IH|contradiction H; reflexivity].
Qed.

Lemma length_substring_le (s : string) :
  forall n : nat, (String.length (String.substring 0 n s) <= n)%nat.
Proof.
  induction s as [|c s IH]; intros [|n]; cbn [String.substring String.length];
    try lia.
  specialize (IH n). lia.
Qed.

(** ** RateLimiter: the other methods *)

Module RateLimiterMethods.
Import RateLimiter RateLimiterFacts.

(** *** The other methods of the limiter *)

Lemma cleanup_shrinks (now : Z) (this : t) :
  len (requests (cleanup now this)) <= len (requests this).
Proof. apply len_filter_le. Qed.

Lemma cleanup_cleanup (now : Z) (this : t) :
  cleanup now (cleanup now this) = cleanup now this.
Proof.
  unfold cleanup. cbn [requests with_requests limit window name].
  unfold with_requests. cbn [limit window name]. f_equal.
  apply filter_filter_weaker. apply Forall_forall. auto.
Qed.

(** [Math.ceil(ms / 1000)] is the least number of whole seconds that cover
    [ms] milliseconds. *)
Lemma ceilSeconds_bounds (ms : Z) :
  ms <= 1000 * ceilSeconds ms < ms + 1000.
Proof.
  unfold ceilSeconds.
  pose proof (Z.div_mod (- ms) 1000 ltac:(lia)).
  pose proof (Z.mod_pos_bound (- ms) 1000 ltac:(lia)). lia.
Qed.

Lemma filter_head_out {A : Type} (p : A -> bool) (x : A) (xs : list A) :
  p x = false -> len (filter p (x :: xs)) <= len (x :: xs) - 1.
Proof.
  intros H. cbn [filter]. rewrite H. pose proof (len_filter_le p xs) as Hle.
  unfold len in *. cbn [List.length]. lia.
Qed.

(** The time [timeUntilNextRequest] gives is enough: once it has passed,
    the pruned window is below the limit. *)
Lemma wait_enough (now : Z) (this : t) :
  1 <= limit this ->
  len (requests this) <= limit this ->
  exists seconds : Z,
    timeUntilNextRequest now this = (Num seconds, cleanup now this)
    /\ 0 <= seconds
    /\ (seconds = 0 <-> len (requests (cleanup now this)) < limit this)
    /\ (Forall (fun timestamp => timestamp <= now) (requests this) ->
        1000 * seconds < Z.max 0 (window this) + 1000)
    /\ forall now' : Z,
         now + 1000 * seconds <= now' ->
         len (requests (cleanup now' (cleanup now this))) < limit this.
Proof.
  intros Hlimit Hlen.
  pose proof (cleanup_shrinks now this) as Hs.
  unfold timeUntilNextRequest.
  change (limit (cleanup now this)) with (limit this).
  destruct (len (requests (cleanup now this)) <? limit this) eqn:E.
  - exists 0. apply Z.ltb_lt in E. repeat split; try lia.
    intros now' _.
    pose proof (cleanup_shrinks now' (cleanup now this)). lia.
  - apply Z.ltb_ge in E.
    destruct (requests (cleanup now this)) as [|oldest rest] eqn:Ereq.
    + unfold len in E. simpl in E. lia.
    + assert (In oldest (requests (cleanup now this))) as Hin
          by (rewrite Ereq; left; reflexivity).
      cbn [cleanup with_requests requests] in Hin.
      apply filter_In in Hin. destruct Hin as [Hin Hw].
      unfold inWindow in Hw. apply Z.ltb_lt in Hw.
      change (window (cleanup now this)) with (window this).
      pose proof (ceilSeconds_bounds (oldest + window this - now)) as Hc.
      exists (Z.max 0 (ceilSeconds (oldest + window this - now))).
      repeat split; try lia.
      * intros Hpast. rewrite Forall_forall in Hpast.
        specialize (Hpast oldest Hin). lia.
      * intros now' Hnow'.
        cbn [cleanup with_requests requests] in Ereq |- *.
        rewrite Ereq.
        assert (inWindow (cleanup now this) now' oldest = false) as Hout.
        { unfold inWindow. apply Z.ltb_ge.
          change (window (cleanup now this)) with (window this). lia. }
        pose proof (filter_head_out _ oldest rest Hout) as Hd.
        lia.
Qed.

(** X1. [tryRequest] never throws, whatever the two readings of the clock:
    it answers what [canMakeRequest] answers, and it records the request
    exactly when the answer is true. *)
Theorem tryRequest_never_throws (now now' : Z) (this : t) :
  exists this',
    tryRequest now now' this = (Returned (fst (canMakeRequest now this)), this')
    /\ limit this' = limit this
    /\ window this' = window this
    /\ requests this'
       = if fst (canMakeRequest now this)
         then requests (cleanup now' (cleanup now this)) ++ [now']
         else requests (cleanup now this).
Proof.
  unfold tryRequest, canMakeRequest. cbn [fst].
  change (limit (cleanup now this)) with (limit this).
  destruct (len (requests (cleanup now this)) <? limit this) eqn:E.
  - unfold recordRequest.
    change (limit (cleanup now' (cleanup now this))) with (limit this).
    pose proof (cleanup_shrinks now' (cleanup now this)) as Hs.
    apply Z.ltb_lt in E.
    replace (len (requests (cleanup now' (cleanup now this))) >=? limit this)
      with false.
    + eexists. split; [reflexivity|]. repeat split.
    + symmetry. rewrite Z.geb_leb. apply Z.leb_gt. lia.
  - eexists. split; [reflexivity|]. repeat split.
Qed.

(** X2. On a limiter of one request or more that holds no more than its
    limit, [timeUntilNextRequest] gives a number of seconds, 0 exactly when
    [canMakeRequest] answers true at that instant; once that many seconds
    have passed [canMakeRequest] answers true.  When no held timestamp is
    in the future, the wait is less than the window plus one second. *)
Theorem timeUntilNextRequest_suffices (now : Z) (this : t) :
  1 <= limit this ->
  len (requests this) <= limit this ->
  exists seconds : Z,
    fst (timeUntilNextRequest now this) = Num seconds
    /\ 0 <= seconds
    /\ (seconds = 0 <-> fst (canMakeRequest now this) = true)
    /\ (Forall (fun timestamp => timestamp <= now) (requests this) ->
        1000 * seconds < Z.max 0 (window this) + 1000)
    /\ forall now' : Z,
         now + 1000 * seconds <= now' ->
         fst (canMakeRequest now' (snd (timeUntilNextRequest now this))) = true.
Proof.
  intros Hlimit Hlen.
  destruct (wait_enough now this Hlimit Hlen) as (seconds & E & H0 & Hz & Hb & Hw).
  exists seconds. rewrite E. cbn [fst snd].
  unfold canMakeRequest. cbn [fst].
  change (limit (cleanup now this)) with (limit this).
  rewrite Z.ltb_lt.
  repeat split; try tauto; try lia.
  intros now' Hnow'.
  change (limit (cleanup now' (cleanup now this))) with (limit this).
  apply Z.ltb_lt. apply Hw. exact Hnow'.
Qed.

(** The theorem on a window of two requests a second that is full at time
    100. *)
Lemma timeUntilNextRequest_suffices_witness :
  exists seconds : Z,
    fst (timeUntilNextRequest 100
           (with_requests (constructor twoPerSecond) [0; 50])) = Num seconds
    /\ seconds = 1.
Proof.
  destruct (timeUntilNextRequest_suffices 100
              (with_requests (constructor twoPerSecond) [0; 50]))
    as (seconds & H1 & _).
  - simpl. lia.
  - vm_compute. discriminate.
  - exists seconds. split; [exact H1|].
    vm_compute in H1. inversion H1. reflexivity.
Defined.

Section WithFormat.

Variable percent : Z -> Z -> string.


End WithFormat.


End RateLimiterMethods.

(** ** CompoundRateLimiter: the other methods *)

Module CompoundRateLimiterMethods.
Import CompoundRateLimiter CompoundRateLimiterFacts RateLimiterMethods.

(** *** The other methods of the compound limiter *)

Lemma check_pruned (now : Z) (this : t) :
  fst (canMakeRequest now this) = true ->
  snd (canMakeRequest now this) = pruned now this.
Proof.
  induction this as [|[n limiter] rest IH]; [reflexivity|].
  cbn [canMakeRequest pruned map fst snd]. rewrite member_check.
  destruct (full now limiter); cbn [negb]; [discriminate|].
  destruct (canMakeRequest now rest) as [r rest'] eqn:E.
  cbn [fst snd] in *. intros ->. rewrite (IH eq_refl). reflexivity.
Qed.

(** The loop of [timeUntilNextRequest] on members that hold no more than
    their limits. *)
Lemma untilNext_enough (now : Z) (this : t) :
  forall maxTime : Z,
    Forall within this ->
    0 <= maxTime ->
    exists seconds : Z,
      untilNext now (Num maxTime) this = (Num seconds, pruned now this)
      /\ maxTime <= seconds
      /\ (seconds = 0
          <-> maxTime = 0 /\ existsb (fun e => full now (snd e)) this = false)
      /\ Forall (fun e => forall now' : Z,
                     now + 1000 * seconds <= now' ->
                     full now' (snd e) = false)
           (pruned now this).
Proof.
  induction this as [|[n limiter] rest IH]; intros maxTime Hin Hmax.
  - exists maxTime. cbn. repeat split; try lia; auto.
  - inversion Hin as [|e es [Hlimit Hlen] Hrest]; subst. cbn [snd] in *.
    destruct (wait_enough now limiter Hlimit Hlen)
      as (time & E & H0 & Hz & _ & Hw).
    cbn [untilNext]. rewrite E. cbn [maxNum].
    destruct (IH (Z.max maxTime time) Hrest ltac:(lia))
      as (seconds & E' & Hle & Hzero & Hall).
    rewrite E'. exists seconds.
    split; [reflexivity|]. split; [lia|]. split.
    + cbn [existsb snd]. unfold full at 1.
      rewrite Z.geb_leb, orb_false_iff, Z.leb_gt. split.
      * intros Hs. rewrite Hzero in Hs. destruct Hs as [Hm He].
        repeat split; try lia; try exact He.
      * intros (Hm & Hf & He). apply Hzero. split; [lia|exact He].
    + cbn [pruned map fst snd]. constructor; [|exact Hall].
      cbn [snd]. intros now' Hnow'. unfold full.
      rewrite Z.geb_leb. apply Z.leb_gt.
      change (RateLimiter.limit (RateLimiter.cleanup now limiter))
        with (RateLimiter.limit limiter).
      apply Hw. lia.
Qed.

(** X4. On members of one request or more that hold no more than their
    limits, [timeUntilNextRequest] of the compound limiter gives a number
    of seconds, 0 exactly when [canMakeRequest] answers true at that
    instant; once that many seconds have passed, [canMakeRequest] answers
    true: every member admits. *)
Theorem compound_wait_suffices (now : Z) (this : t) :
  Forall within this ->
  exists seconds : Z,
    fst (timeUntilNextRequest now this) = Num seconds
    /\ 0 <= seconds
    /\ (seconds = 0 <-> fst (canMakeRequest now this) = true)
    /\ forall now' : Z,
         now + 1000 * seconds <= now' ->
         fst (canMakeRequest now' (snd (timeUntilNextRequest now this))) = true.
Proof.
  intros Hin. unfold timeUntilNextRequest.
  destruct this as [|e rest].
  - exists 0. cbn. repeat split; auto. lia.
  - replace (len (e :: rest) =? 0) with false
      by (symmetry; apply Z.eqb_neq; unfold len; cbn [List.length]; lia).
    destruct (untilNext_enough now (e :: rest) 0 Hin ltac:(lia))
      as (seconds & E & Hle & Hzero & Hall).
    rewrite E. exists seconds. cbn [fst snd].
    split; [reflexivity|]. split; [exact Hle|]. split.
    + rewrite check_iff, negb_true_iff. rewrite Hzero. tauto.
    + intros now' Hnow'. rewrite check_iff, negb_true_iff.
      apply not_true_is_false. intros Hex.
      apply existsb_exists in Hex. destruct Hex as (m & Hm & Hfull).
      rewrite Forall_forall in Hall. rewrite (Hall m Hm now' Hnow') in Hfull.
      discriminate.
Qed.

(** The theorem on [twoTierAfterOne] at time 10: the member "burst" asks
    for one second. *)
Lemma compound_wait_suffices_witness :
  exists seconds : Z,
    fst (timeUntilNextRequest 10 twoTierAfterOne) = Num seconds
    /\ seconds = 1.
Proof.
  destruct (compound_wait_suffices 10 twoTierAfterOne) as (seconds & H1 & _).
  - repeat constructor; vm_compute; discriminate.
  - exists seconds. split; [exact H1|].
    vm_compute in H1. inversion H1. reflexivity.
Defined.

Section WithFormat.

Variable percent : Z -> Z -> string.

Lemma getStats_pruned (now : Z) (limiter : RateLimiter.t) :
  RateLimiter.getStats percent now (RateLimiter.cleanup now limiter)
  = (fst (RateLimiter.getStats percent now limiter),
     snd (RateLimiter.timeUntilNextRequest now (RateLimiter.cleanup now limiter))).
Proof.
  unfold RateLimiter.getStats. rewrite cleanup_cleanup.
  destruct (RateLimiter.timeUntilNextRequest now
              (RateLimiter.cleanup now limiter)); reflexivity.
Qed.

Lemma timeUntilNextRequest_prunes (now : Z) (limiter : RateLimiter.t) :
  snd (RateLimiter.timeUntilNextRequest now limiter)
  = RateLimiter.cleanup now limiter.
Proof.
  unfold RateLimiter.timeUntilNextRequest.
  destruct (len (RateLimiter.requests (RateLimiter.cleanup now limiter))
            <? RateLimiter.limit (RateLimiter.cleanup now limiter));
    [reflexivity|].
  destruct (RateLimiter.requests (RateLimiter.cleanup now limiter));
    reflexivity.
Qed.

Lemma blocking_spec (now : Z) (this : t) :
  (forallb (room now) this = true
   /\ fst (getBlockingLimiter percent now this) = None)
  \/ (exists before n limiter rest,
        this = before ++ (n, limiter) :: rest
        /\ forallb (room now) before = true
        /\ full now limiter = true
        /\ fst (getBlockingLimiter percent now this)
           = Some (n, fst (RateLimiter.getStats percent now limiter))).
Proof.
  induction this as [|[n limiter] rest IH]; [left; split; reflexivity|].
  cbn [getBlockingLimiter forallb]. rewrite member_check.
  unfold room at 1. cbn [snd].
  destruct (full now limiter) eqn:Hfull; cbn [negb andb].
  - right. exists [], n, limiter, rest. rewrite getStats_pruned.
    repeat split; auto.
  - destruct (getBlockingLimiter percent now rest) as [r rest'] eqn:E.
    cbn [fst] in *. destruct IH as [[H1 H2]|(before & m & l & after & H)].
    + left. split; assumption.
    + right. destruct H as (-> & Hb & Hf & Hr).
      exists ((n, limiter) :: before), m, l, after. cbn [forallb].
      unfold room at 1. cbn [snd]. rewrite Hfull. repeat split; auto.
Qed.

Lemma blocking_state (now : Z) (this : t) :
  snd (getBlockingLimiter percent now this) = snd (canMakeRequest now this).
Proof.
  induction this as [|[n limiter] rest IH]; [reflexivity|].
  cbn [getBlockingLimiter canMakeRequest]. rewrite member_check.
  destruct (full now limiter); cbn [negb].
  - rewrite getStats_pruned. cbn [snd].
    rewrite timeUntilNextRequest_prunes, cleanup_cleanup. reflexivity.
  - destruct (getBlockingLimiter percent now rest) as [r rest'].
    destruct (canMakeRequest now rest) as [r' rest''].
    cbn [snd] in *. rewrite IH. reflexivity.
Qed.

(** X5. [getBlockingLimiter] answers [null] exactly when [canMakeRequest]
    answers true at the same instant.  Otherwise it names the first member,
    in insertion order, whose pruned window is full, with the figures of
    that member; the two methods leave the compound limiter in the same
    state. *)
Theorem getBlockingLimiter_names_first_full_member (now : Z) (this : t) :
  (fst (getBlockingLimiter percent now this) = None
   <-> fst (canMakeRequest now this) = true)
  /\ (forall n stats,
        fst (getBlockingLimiter percent now this) = Some (n, stats) ->
        exists before limiter rest,
          this = before ++ (n, limiter) :: rest
          /\ forallb (room now) before = true
          /\ full now limiter = true
          /\ stats = fst (RateLimiter.getStats percent now limiter))
  /\ snd (getBlockingLimiter percent now this) = snd (canMakeRequest now this).
Proof.
  split; [|split; [|apply blocking_state]].
  - rewrite check_iff, negb_true_iff.
    destruct (blocking_spec now this)
      as [[H1 H2]|(before & n & limiter & rest & -> & Hb & Hf & Hr)].
    + rewrite H2. split; [|reflexivity]. intros _.
      apply not_true_is_false. intros Hex.
      apply existsb_exists in Hex. destruct Hex as (m & Hm & Hfull).
      rewrite forallb_forall in H1. specialize (H1 m Hm).
      unfold room in H1. rewrite Hfull in H1. discriminate.
    + rewrite Hr. split; [discriminate|].
      rewrite existsb_app. cbn [existsb snd]. rewrite Hf.
      rewrite orb_true_r. discriminate.
  - intros n stats H.
    destruct (blocking_spec now this)
      as [[H1 H2]|(before & m & limiter & rest & -> & Hb & Hf & Hr)].
    + rewrite H2 in H. discriminate.
    + rewrite Hr in H. inversion H; subst.
      exists before, limiter, rest. repeat split; auto.
Qed.

End WithFormat.

End CompoundRateLimiterMethods.

(** ** CacheManager: reading, deleting, sweeping and storing *)

Module CacheManagerMethods.
Import CacheManager CacheManagerFacts.

(** *** Reading, deleting and sweeping *)

Section Reading.

Context {T : Type}.
Variable stringify : T -> option string.

Local Abbreviation entries := (list (string * CacheEntry T)).

Lemma lookup_remove_other (key k : string) (es : entries) :
  k <> key -> lookup k (remove key es) = lookup k es.
Proof.
  intros Hk. unfold remove.
  induction es as [|[k0 e0] rest IH]; [reflexivity|].
  cbn [filter fst lookup].
  destruct (String.eqb k0 key) eqn:E0; cbn [negb].
  - apply String.eqb_eq in E0. subst k0.
    replace (String.eqb key k) with false; [exact IH|].
    symmetry. apply String.eqb_neq. congruence.
  - cbn [lookup]. destruct (String.eqb k0 k); [reflexivity|exact IH].
Qed.

Lemma lookup_replace_same (key : string) (e e' : CacheEntry T) (es : entries) :
  lookup key es = Some e -> lookup key (replace key e' es) = Some e'.
Proof.
  induction es as [|[k0 e0] rest IH]; [discriminate|].
  cbn [lookup replace]. destruct (String.eqb k0 key) eqn:E0.
  - intros _. cbn [lookup]. rewrite E0. reflexivity.
  - intros H. cbn [lookup]. rewrite E0. apply IH. exact H.
Qed.

Lemma lookup_replace_other (key k : string) (e' : CacheEntry T) (es : entries) :
  k <> key -> lookup k (replace key e' es) = lookup k es.
Proof.
  intros Hk. induction es as [|[k0 e0] rest IH]; [reflexivity|].
  cbn [lookup replace]. destruct (String.eqb k0 key) eqn:E0.
  - apply String.eqb_eq in E0. subst k0. cbn [lookup].
    replace (String.eqb key k) with false; [reflexivity|].
    symmetry. apply String.eqb_neq. congruence.
  - cbn [lookup]. destruct (String.eqb k0 k); [reflexivity|exact IH].
Qed.

Lemma delete_cache (key : string) (this : t T) :
  cache (snd (delete key this)) = remove key (cache this).
Proof.
  unfold delete. destruct (lookup key (cache this)) eqn:E; cbn [snd cache].
  - reflexivity.
  - symmetry. apply remove_absent. apply lookup_None. exact E.
Qed.

(** X6. [delete] answers true exactly when the key is stored, expired or
    not.  After it the key is absent, [get] and [has] of the key answer
    [null] and false, every other key holds what it held, and [sizeUsed]
    is less by the size of the deleted entry. *)
Theorem delete_forgets_one_key (key : string) (this : t T) :
  (fst (delete key this) = true <-> lookup key (cache this) <> None)
  /\ lookup key (cache (snd (delete key this))) = None
  /\ (forall now : Z,
        get key now (snd (delete key this)) = (None, snd (delete key this))
        /\ has key now (snd (delete key this))
           = (false, snd (delete key this)))
  /\ (forall k : string,
        k <> key ->
        lookup k (cache (snd (delete key this))) = lookup k (cache this))
  /\ sizeUsed (snd (delete key this))
     = sizeUsed this
       - match lookup key (cache this) with
         | Some entry => size entry
         | None => 0
         end
  /\ maxSize (snd (delete key this)) = maxSize this.
Proof.
  assert (lookup key (cache (snd (delete key this))) = None) as Hgone
      by (rewrite delete_cache; apply lookup_remove).
  split; [|split; [exact Hgone|split; [|split; [|split]]]].
  - unfold delete. destruct (lookup key (cache this)); cbn [fst].
    + split; [discriminate|reflexivity].
    + split; [discriminate|]. intros H. contradiction H. reflexivity.
  - intros now. unfold get, has. rewrite Hgone. split; reflexivity.
  - intros k Hk. rewrite delete_cache. apply lookup_remove_other. exact Hk.
  - unfold delete. destruct (lookup key (cache this)); cbn [snd sizeUsed]; lia.
  - apply delete_maxSize.
Qed.

(** X7. A read of a stored entry.  Before the entry expires, [get] yields
    its data and counts one hit on it, and [has] answers true and counts
    nothing; neither changes the order of the keys, the other entries or
    [sizeUsed].  From the expiry on, both answer as for an absent key and
    delete the entry. *)
Theorem reads_count_hits_and_drop_expired
  (key : string) (now : Z) (this : t T) (entry : CacheEntry T) :
  lookup key (cache this) = Some entry ->
  (now < expiresAt entry ->
   fst (get key now this) = Some (data entry)
   /\ lookup key (cache (snd (get key now this))) = Some (hit entry)
   /\ (forall k : string,
         k <> key ->
         lookup k (cache (snd (get key now this))) = lookup k (cache this))
   /\ keys (cache (snd (get key now this))) = keys (cache this)
   /\ sizeUsed (snd (get key now this)) = sizeUsed this
   /\ has key now this = (true, this))
  /\ (expiresAt entry <= now ->
      get key now this = (None, snd (delete key this))
      /\ has key now this = (false, snd (delete key this))
      /\ lookup key (cache (snd (delete key this))) = None
      /\ sizeUsed (snd (delete key this)) = sizeUsed this - size entry).
Proof.
  intros Hl. split; intros Hnow.
  - assert ((now >=? expiresAt entry) = false) as E
        by (rewrite Z.geb_leb; apply Z.leb_gt; exact Hnow).
    unfold get, has. rewrite Hl, E. cbn [fst snd cache sizeUsed].
    repeat split.
    + apply (lookup_replace_same key entry). exact Hl.
    + intros k Hk. apply lookup_replace_other. exact Hk.
    + apply keys_replace.
  - assert ((now >=? expiresAt entry) = true) as E
        by (rewrite Z.geb_leb; apply Z.leb_le; exact Hnow).
    unfold get, has. rewrite Hl, E. repeat split.
    + rewrite delete_cache. apply lookup_remove.
    + rewrite (delete_found key this entry Hl). reflexivity.
Qed.

(** The entries that the sweep at [now] deletes. *)
Lemma fold_delete_cache (ks : list string) :
  forall this : t T,
    cache (fold_left (fun this key => snd (delete key this)) ks this)
    = filter (fun ke => negb (existsb (String.eqb (fst ke)) ks)) (cache this).
Proof.
  induction ks as [|k ks IH]; intros this; cbn [fold_left existsb].
  - symmetry. apply forallb_filter_id. apply forallb_forall. reflexivity.
  - rewrite IH, delete_cache. unfold remove.
    induction (cache this) as [|[k0 e0] rest IHr]; [reflexivity|].
    cbn [filter fst]. destruct (String.eqb k0 k); cbn [negb orb].
    + exact IHr.
    + cbn [filter fst]. destruct (existsb (String.eqb k0) ks); cbn [negb].
      * exact IHr.
      * rewrite IHr. reflexivity.
Qed.

Lemma fold_delete_wf (ks : list string) :
  forall this : t T,
    wf this ->
    wf (fold_left (fun this key => snd (delete key this)) ks this)
    /\ maxSize (fold_left (fun this key => snd (delete key this)) ks this)
       = maxSize this
    /\ defaultTTL (fold_left (fun this key => snd (delete key this)) ks this)
       = defaultTTL this.
Proof.
  induction ks as [|k ks IH]; intros this Hwf; cbn [fold_left].
  - auto.
  - destruct (IH (snd (delete k this)) (delete_wf k this Hwf)) as (H1 & H2 & H3).
    split; [exact H1|]. rewrite H2, H3. rewrite delete_maxSize. split; [reflexivity|].
    unfold delete. destruct (lookup k (cache this)); reflexivity.
Qed.

Lemma same_key_same_entry (k : string) (e e' : CacheEntry T) (es : entries) :
  NoDup (keys es) -> In (k, e) es -> In (k, e') es -> e = e'.
Proof.
  induction es as [|[k0 e0] rest IH]; [contradiction|].
  cbn [keys map fst]. intros Hnd H1 H2. inversion Hnd as [|? ? Hnot Hrest]; subst.
  destruct H1 as [H1|H1]; destruct H2 as [H2|H2].
  - congruence.
  - inversion H1; subst. contradiction Hnot.
    change (In (fst (k, e')) (map fst rest)). apply in_map. exact H2.
  - inversion H2; subst. contradiction Hnot.
    change (In (fst (k, e)) (map fst rest)). apply in_map. exact H1.
  - apply IH; assumption.
Qed.

Lemma storedSize_partition (p : string * CacheEntry T -> bool) (es : entries) :
  storedSize es
  = storedSize (filter p es) + storedSize (filter (fun ke => negb (p ke)) es).
Proof.
  induction es as [|ke rest IH]; [reflexivity|].
  cbn [filter]. destruct (p ke); cbn [negb storedSize fold_right];
    fold (storedSize rest);
    fold (storedSize (filter p rest));
    fold (storedSize (filter (fun ke => negb (p ke)) rest)); lia.
Qed.

(** X8. On a well-formed cache the sweep at [now] deletes the entries that
    have expired by [now], and only them: the entries that expire later
    stay, in their order, and [sizeUsed] is less by the sizes of the
    deleted entries. *)
Theorem cleanup_removes_exactly_the_expired (now : Z) (this : t T) :
  wf this ->
  cache (cleanup now this)
  = filter (fun ke => now <? expiresAt (snd ke)) (cache this)
  /\ sizeUsed (cleanup now this)
     = sizeUsed this
       - storedSize (filter (fun ke => now >=? expiresAt (snd ke)) (cache this))
  /\ wf (cleanup now this)
  /\ maxSize (cleanup now this) = maxSize this.
Proof.
  intros Hwf. unfold cleanup.
  set (expired := fun ke : string * CacheEntry T => now >=? expiresAt (snd ke)).
  set (ks := map fst (filter expired (cache this))).
  destruct (fold_delete_wf ks this Hwf) as (Hwf' & Hmax & _).
  assert (cache (fold_left (fun this key => snd (delete key this)) ks this)
          = filter (fun ke => negb (expired ke)) (cache this)) as Hcache.
  { rewrite fold_delete_cache. apply filter_ext_in. intros [k e] Hin.
    f_equal. cbn [fst]. destruct (expired (k, e)) eqn:E.
    - apply existsb_exists. exists k. split; [|apply String.eqb_refl].
      unfold ks. change k with (fst (k, e)). apply in_map.
      apply filter_In. split; assumption.
    - apply not_true_is_false. intros Hex.
      apply existsb_exists in Hex. destruct Hex as (k' & Hk' & Heq).
      apply String.eqb_eq in Heq. subst k'.
      unfold ks in Hk'. apply in_map_iff in Hk'.
      destruct Hk' as ([k' e'] & Hfst & Hin').
      cbn [fst] in Hfst. subst k'.
      apply filter_In in Hin'. destruct Hin' as [Hin' Hexp].
      rewrite (same_key_same_entry k e e' (cache this)
                 (wf_keys this Hwf) Hin Hin') in E.
      congruence. }
  split; [|split; [|split; [exact Hwf'|exact Hmax]]].
  - rewrite Hcache. apply filter_ext. intros ke. unfold expired.
    rewrite Z.geb_leb, Z.ltb_antisym. reflexivity.
  - rewrite (wf_used _ Hwf'), Hcache, (wf_used _ Hwf).
    rewrite (storedSize_partition expired (cache this)). lia.
Qed.

(** X9. When the value fits beside what is stored, [set] evicts nothing:
    it removes the old entry of the key, if any, and appends the new entry,
    with no hit, whose lifetime is the custom TTL when that is positive, or
    else the TTL of the first pattern the key matches, or else the
    default.  Every other key holds what it held. *)
Theorem set_keeps_the_other_entries
  (key : string) (d : T) (customTTL : option Z) (now : Z) (this : t T) :
  sizeUsed this + estimateSize stringify d <= maxSize this ->
  estimateSize stringify d <= maxSize this ->
  exists this',
    set stringify key d customTTL now this = Some this'
    /\ cache this'
       = remove key (cache this)
           ++ [(key, {| data := d; timestamp := now;
                        size := estimateSize stringify d; hits := 0;
                        expiresAt := now + ttlOf key customTTL this |})]
    /\ sizeUsed this'
       = sizeUsed this
         - match lookup key (cache this) with
           | Some entry => size entry
           | None => 0
           end
         + estimateSize stringify d
    /\ (forall k : string,
          k <> key -> lookup k (cache this') = lookup k (cache this)).
Proof.
  intros Hroom Hfit.
  assert (evictWhile (List.length (cache this)) now
            (estimateSize stringify d) this = Some this) as Hloop.
  { assert (needsRoom (estimateSize stringify d) this = false) as Hn.
    { unfold needsRoom. apply andb_false_iff. left.
      rewrite Z.gtb_ltb. apply Z.ltb_ge. exact Hroom. }
    destruct (List.length (cache this)); cbn [evictWhile]; rewrite Hn;
      reflexivity. }
  rewrite (set_stores stringify key d customTTL now this this Hfit Hloop).
  eexists. split; [reflexivity|]. cbn [cache sizeUsed].
  assert (cache (withoutOld key this) = remove key (cache this)) as Hc.
  { unfold withoutOld. destruct (lookup key (cache this)) eqn:E.
    - apply delete_cache.
    - symmetry. apply remove_absent. apply lookup_None. exact E. }
  assert (ttlOf key customTTL (withoutOld key this) = ttlOf key customTTL this)
    as Httl.
  { unfold ttlOf, withoutOld. destruct (lookup key (cache this)) eqn:E;
      [|reflexivity].
    rewrite (delete_found key this c E). reflexivity. }
  rewrite Hc, Httl. split; [reflexivity|]. split.
  - unfold withoutOld. destruct (lookup key (cache this)) eqn:E.
    + rewrite (delete_found key this c E). cbn [snd sizeUsed]. lia.
    + lia.
  - intros k Hk.
    assert (forall (es : entries) e, lookup k (es ++ [(key, e)]) = lookup k es)
      as Happ.
    { intros es e. induction es as [|[k0 e0] rest IH]; cbn [app lookup].
      - replace (String.eqb key k) with false; [reflexivity|].
        symmetry. apply String.eqb_neq. congruence.
      - destruct (String.eqb k0 k); [reflexivity|exact IH]. }
    rewrite Happ. apply lookup_remove_other. exact Hk.
Qed.

End Reading.

Lemma reads_count_hits_and_drop_expired_witness :
  fst (get "b" 5000 twoEntriesCache) = Some "0123456789"%string
  /\ has "b" 5000 twoEntriesCache = (true, twoEntriesCache).
Proof.
  destruct (reads_count_hits_and_drop_expired "b" 5000 twoEntriesCache
              {| data := "0123456789"%string; timestamp := 4900; size := 20;
                 hits := 1; expiresAt := 4900 + 300000 |})
    as [H _].
  - vm_compute. reflexivity.
  - destruct H as (H1 & _ & _ & _ & _ & H6).
    + simpl. lia.
    + split; [exact H1|exact H6].
Defined.

Lemma cleanup_removes_exactly_the_expired_witness :
  keys (cache (cleanup 2000 oneExpiredCache)) = ["b"%string]
  /\ sizeUsed (cleanup 2000 oneExpiredCache) = 12.
Proof.
  destruct (cleanup_removes_exactly_the_expired 2000 oneExpiredCache)
    as (H1 & H2 & _).
  - split; vm_compute.
    + repeat constructor; simpl; intuition discriminate.
    + repeat constructor; discriminate.
    + reflexivity.
  - rewrite H1, H2. split; vm_compute; reflexivity.
Defined.

Lemma set_keeps_the_other_entries_witness :
  exists this',
    set Some "c" "xy"%string None 5000 twoEntriesCache = Some this'
    /\ keys (cache this') = ["a"; "b"; "c"]%string.
Proof.
  destruct (set_keeps_the_other_entries Some "c" "xy"%string None 5000
              twoEntriesCache) as (this' & H1 & H2 & _).
  - vm_compute. discriminate.
  - vm_compute. discriminate.
  - exists this'. split; [exact H1|]. rewrite H2. vm_compute. reflexivity.
Defined.

End CacheManagerMethods.

(** ** CacheManager: the keys and their lifetimes *)

Module CacheKeys.
Import CacheManager CacheManagerFacts.

Lemma sanitize_chars (str : string) : everyChar isKeyChar (sanitize str) = true.
Proof.
  unfold sanitize. induction str as [|c s IH]; [reflexivity|].
  cbn [mapString everyChar]. rewrite IH, andb_true_r.
  destruct (isKeyChar c) eqn:E; [exact E|reflexivity].
Qed.

Lemma stringParts_shape (validParts : list part) :
  forall strs : list string,
    stringParts validParts = Returned strs ->
    strs = map (fun p => sanitize (normalize p)) validParts
    /\ Forall (fun p => 1 <= strlen (normalize p)) validParts.
Proof.
  induction validParts as [|p rest IH]; intros strs; cbn [stringParts map].
  - intros H. inversion H. split; [reflexivity|constructor].
  - destruct (strlen (normalize p) =? 0) eqn:E; [discriminate|].
    destruct (stringParts rest) as [strs'|msg]; [|discriminate].
    intros H. inversion H; subst. destruct (IH strs' eq_refl) as [-> Hall].
    split; [reflexivity|]. constructor; [|exact Hall].
    apply Z.eqb_neq in E. pose proof (strlen_nonneg (normalize p)). lia.
Qed.

Lemma join_chars (strs : list string) :
  Forall (fun s => everyChar isKeyChar s = true) strs ->
  everyChar isKeyOrColon (join ":" strs) = true.
Proof.
  assert (forall s, everyChar isKeyChar s = true ->
                    everyChar isKeyOrColon s = true) as Hw.
  { intros s. apply everyChar_weaken. intros c Hc. unfold isKeyOrColon.
    rewrite Hc. reflexivity. }
  induction 1 as [|s rest Hs Hrest IH]; [reflexivity|].
  cbn [join]. destruct rest as [|s' rest']; [apply Hw; exact Hs|].
  rewrite !everyChar_app, (Hw s Hs), IH. reflexivity.
Qed.

Lemma join_nonempty (s : string) (rest : list string) :
  1 <= strlen s -> 1 <= strlen (join ":" (s :: rest)).
Proof.
  intros H. cbn [join]. destruct rest; [exact H|].
  rewrite strlen_app. pose proof (strlen_nonneg (":" ++ join ":" (s0 :: rest))).
  lia.
Qed.

(** The digits of [toString(36)]. *)
Lemma digit36_chars (d : Z) : 0 <= d < 36 -> isKeyChar (digit36 d) = true.
Proof.
  intros H.
  assert (exists n : nat, d = Z.of_nat n /\ (n < 36)%nat) as (n & -> & Hn)
      by (exists (Z.to_nat d); lia).
  do 36 (destruct n as [|n]; [vm_compute; reflexivity|]). lia.
Qed.

Lemma digits36_chars (fuel : nat) :
  forall (n : Z) (acc : string),
    0 <= n -> everyChar isKeyChar acc = true ->
    everyChar isKeyChar (digits36 fuel n acc) = true.
Proof.
  induction fuel as [|fuel IH]; intros n acc Hn Hacc; cbn [digits36].
  - exact Hacc.
  - assert (everyChar isKeyChar (String (digit36 (n mod 36)) acc) = true) as H.
    { cbn [everyChar]. rewrite Hacc, andb_true_r. apply digit36_chars.
      apply Z.mod_pos_bound. lia. }
    destruct (n / 36 =? 0); [exact H|].
    apply IH; [apply Z.div_pos; lia|exact H].
Qed.

Lemma digits36_length (k : nat) :
  forall (fuel : nat) (n : Z) (acc : string),
    0 <= n < 36 ^ Z.of_nat (S k) ->
    strlen (digits36 fuel n acc) <= strlen acc + Z.of_nat (S k).
Proof.
  induction k as [|k IH]; intros fuel n acc Hn.
  - destruct fuel as [|fuel]; cbn [digits36]; [lia|].
    replace (n / 36 =? 0) with true.
    + rewrite strlen_cons. lia.
    + symmetry. apply Z.eqb_eq. apply Z.div_small.
      change (36 ^ Z.of_nat 1) with 36 in Hn. lia.
  - destruct fuel as [|fuel]; cbn [digits36]; [lia|].
    destruct (n / 36 =? 0).
    + rewrite strlen_cons. lia.
    + assert (0 <= n / 36 < 36 ^ Z.of_nat (S k)) as Hq.
      { split; [apply Z.div_pos; lia|].
        apply Z.div_lt_upper_bound; [lia|].
        replace (Z.of_nat (S (S k))) with (1 + Z.of_nat (S k)) in Hn by lia.
        rewrite Z.pow_add_r in Hn by lia.
        change (36 ^ 1) with 36 in Hn. lia. }
      pose proof (IH fuel (n / 36) (String (digit36 (n mod 36)) acc) Hq) as H.
      rewrite strlen_cons in H. lia.
Qed.

Lemma digits36_nonempty (fuel : nat) (n : Z) :
  1 <= strlen (digits36 (S fuel) n EmptyString).
Proof.
  assert (forall fuel n acc, strlen acc <= strlen (digits36 fuel n acc)) as Hm.
  { clear. induction fuel as [|fuel IH]; intros n acc; cbn [digits36]; [lia|].
    destruct (n / 36 =? 0).
    - rewrite strlen_cons. lia.
    - pose proof (IH (n / 36) (String (digit36 (n mod 36)) acc)) as H.
      rewrite strlen_cons in H. lia. }
  cbn [digits36]. destruct (n / 36 =? 0).
  - rewrite strlen_cons. pose proof (strlen_nonneg EmptyString). lia.
  - pose proof (Hm fuel (n / 36) (String (digit36 (n mod 36)) EmptyString)) as H.
    rewrite strlen_cons in H. pose proof (strlen_nonneg EmptyString). lia.
Qed.

Lemma toInt32_range (z : Z) : - 2 ^ 31 <= toInt32 z < 2 ^ 31.
Proof.
  unfold toInt32. pose proof (Z.mod_pos_bound (z + 2 ^ 31) (2 ^ 32) ltac:(lia)).
  lia.
Qed.

Lemma hashChars_range (key : string) :
  forall acc : Z,
    - 2 ^ 31 <= acc < 2 ^ 31 -> - 2 ^ 31 <= hashChars acc key < 2 ^ 31.
Proof.
  induction key as [|c key IH]; intros acc Hacc; cbn [hashChars].
  - exact Hacc.
  - apply IH. apply toInt32_range.
Qed.

(** The text of a 32-bit integer in base 36: one to seven characters,
    digits, small letters and the minus sign. *)
Lemma toString36_shape (n : Z) :
  - 2 ^ 31 <= n < 2 ^ 31 ->
  1 <= strlen (toString36 n) <= 7
  /\ everyChar isKeyChar (toString36 n) = true.
Proof.
  intros Hn. unfold toString36.
  set (fuel := Z.to_nat (Z.log2 (Z.abs n))).
  pose proof (digits36_nonempty fuel (Z.abs n)) as H1.
  pose proof (digits36_length 5 (S fuel) (Z.abs n) EmptyString) as H2.
  pose proof (digits36_chars (S fuel) (Z.abs n) EmptyString
                ltac:(lia) eq_refl) as H3.
  assert (0 <= Z.abs n < 36 ^ Z.of_nat 6) as Hb.
  { change (36 ^ Z.of_nat 6) with 2176782336.
    change (2 ^ 31) with 2147483648 in Hn. lia. }
  specialize (H2 Hb). change (strlen EmptyString) with 0 in H2.
  destruct (n <? 0).
  - rewrite strlen_cons. cbn [everyChar]. rewrite H3. split; [lia|reflexivity].
  - split; [lia|exact H3].
Qed.

(** X10. A key that [createKey] returns has from 1 to 256 characters, all
    of them small letters, digits, underscores, hyphens or colons. *)
Theorem createKey_is_well_formed (parts : list part) (key : string) :
  createKey parts = Returned key ->
  1 <= strlen key <= 256 /\ everyChar isKeyOrColon key = true.
Proof.
  unfold createKey.
  destruct (len (filter (fun p => negb (nullish p)) parts) =? 0) eqn:E0;
    [discriminate|].
  destruct (stringParts (filter (fun p => negb (nullish p)) parts))
    as [strs|msg] eqn:Es; [|discriminate].
  destruct (stringParts_shape _ strs Es) as [Hstrs Hall].
  assert (Forall (fun s => everyChar isKeyChar s = true) strs) as Hchars.
  { rewrite Hstrs. apply Forall_forall. intros s Hs.
    apply in_map_iff in Hs. destruct Hs as (p & <- & _). apply sanitize_chars. }
  assert (1 <= strlen (join ":" strs)) as Hne.
  { destruct (filter (fun p => negb (nullish p)) parts) as [|p rest].
    - unfold len in E0. discriminate.
    - inversion Hall; subst. cbn [map]. apply join_nonempty.
      unfold sanitize. rewrite strlen_mapString. assumption. }
  pose proof (join_chars strs Hchars) as Hjoin.
  destruct (strlen (join ":" strs) >? 256) eqn:El; intros H;
    injection H as <-.
  - rewrite Z.gtb_ltb in El. apply Z.ltb_lt in El.
    destruct (toString36_shape (hashChars 0 (join ":" strs))
                (hashChars_range _ 0 ltac:(lia))) as [Hlen Hhash].
    assert (strlen (String.substring 0 245 (join ":" strs)) = 245) as Hsub.
    { unfold strlen in *. rewrite length_substring_prefix; lia. }
    cbn [append]. rewrite strlen_app, Hsub, strlen_cons.
    rewrite everyChar_app. split; [lia|].
    rewrite (everyChar_substring _ _ 0 245 Hjoin). cbn [everyChar andb].
    replace (isKeyOrColon "_") with true by reflexivity.
    apply (everyChar_weaken isKeyChar); [|exact Hhash].
    intros c Hc. unfold isKeyOrColon. rewrite Hc. reflexivity.
  - rewrite Z.gtb_ltb in El. apply Z.ltb_ge in El. split; [lia|exact Hjoin].
Qed.

Lemma stringParts_ext (xs : list part) :
  forall ys : list part,
    map normalize xs = map normalize ys -> stringParts xs = stringParts ys.
Proof.
  induction xs as [|x xs IH]; intros [|y ys] H; try discriminate;
    [reflexivity|].
  cbn [map] in H. injection H as Hn Hrest.
  cbn [stringParts]. rewrite Hn, (IH ys Hrest). reflexivity.
Qed.

(** The key depends on a part through [nullish] and [normalize] only. *)
Lemma createKey_ext (before after : list part) (p q : part) :
  nullish p = nullish q -> normalize p = normalize q ->
  createKey (before ++ p :: after) = createKey (before ++ q :: after).
Proof.
  intros Hn Hs. unfold createKey.
  rewrite !filter_app. cbn [filter]. rewrite Hn.
  destruct (nullish q); cbn [negb]; [reflexivity|].
  set (valid := fun p0 : part => negb (nullish p0)).
  assert (map normalize (filter valid before ++ p :: filter valid after)
          = map normalize (filter valid before ++ q :: filter valid after))
    as Hmap.
  { rewrite !map_app. cbn [map]. rewrite Hs. reflexivity. }
  rewrite (stringParts_ext _ _ Hmap).
  unfold len. rewrite !length_app. cbn [List.length]. reflexivity.
Qed.

(** X11. [createKey] ignores the case of the letters of a string part and
    the white space around it: the part, the part in small letters and the
    trimmed part give the same key, or the same error. *)
Theorem createKey_ignores_case_and_spaces
  (before after : list part) (s : string) :
  createKey (before ++ PString (toLowerCase s) :: after)
  = createKey (before ++ PString s :: after)
  /\ createKey (before ++ PString (trim s) :: after)
     = createKey (before ++ PString s :: after).
Proof.
  split; apply createKey_ext; try reflexivity; unfold normalize; cbn [toString].
  - rewrite toLowerCase_toLowerCase. reflexivity.
  - rewrite <- trim_toLowerCase, trim_trim. reflexivity.
Qed.

Lemma createKey_is_well_formed_witness :
  createKey [PString "User"; PUndefined; PString " Spez "]
  = Returned "user:spez"%string
  /\ 1 <= strlen "user:spez" <= 256
  /\ everyChar isKeyOrColon "user:spez" = true.
Proof.
  assert (createKey [PString "User"; PUndefined; PString " Spez "]
          = Returned "user:spez"%string) as H by (vm_compute; reflexivity).
  split; [exact H|].
  apply (createKey_is_well_formed _ _ H).
Defined.

(** The key is the joined parts, or their first 245 characters, an
    underscore and the hash. *)
Lemma createKey_shape (parts : list part) (key : string) :
  createKey parts = Returned key ->
  exists strs : list string,
    stringParts (filter (fun p => negb (nullish p)) parts) = Returned strs
    /\ (key = join ":" strs
        \/ (256 < strlen (join ":" strs)
            /\ exists hash : string,
                 everyChar isKeyChar hash = true
                 /\ key = (String.substring 0 245 (join ":" strs)
                           ++ String "_" hash)%string)).
Proof.
  unfold createKey.
  destruct (len (filter (fun p => negb (nullish p)) parts) =? 0); [discriminate|].
  destruct (stringParts (filter (fun p => negb (nullish p)) parts))
    as [strs|msg] eqn:Es; [|discriminate].
  exists strs. split; [reflexivity|]. revert H.
  destruct (strlen (join ":" strs) >? 256) eqn:El; intros Hk; injection Hk as <-.
  - right. rewrite Z.gtb_ltb in El. apply Z.ltb_lt in El. split; [exact El|].
    exists (toString36 (hashChars 0 (join ":" strs))). split; [|reflexivity].
    apply toString36_shape. apply hashChars_range. lia.
  - left. reflexivity.
Qed.

(** A key of two parts or more begins with its first part and a colon. *)
Lemma createKey_head (w x : string) (rest : list part) (key : string) :
  (String.length (sanitize (normalize (PString w))) < 245)%nat ->
  createKey (PString w :: PString x :: rest) = Returned key ->
  exists tail : string,
    key = (sanitize (normalize (PString w)) ++ String ":" tail)%string.
Proof.
  intros Hw H. destruct (createKey_shape _ _ H) as (strs & Es & Hkey).
  cbn [filter nullish negb] in Es.
  destruct (stringParts_shape _ _ Es) as [-> _]. cbn [map] in Hkey.
  set (first := sanitize (normalize (PString w))) in *.
  set (others := map (fun p => sanitize (normalize p))
                   (filter (fun p => negb (nullish p)) rest)) in *.
  assert (join ":" (first :: sanitize (normalize (PString x)) :: others)
          = (first ++ String ":" (join ":" (sanitize (normalize (PString x)) :: others)))%string)
    as Hj by reflexivity.
  rewrite Hj in Hkey.
  destruct Hkey as [->|(_ & hash & _ & ->)]; [eauto|].
  rewrite substring_app_prefix by lia.
  destruct (245 - String.length first)%nat as [|n] eqn:En; [lia|].
  cbn [String.substring]. rewrite append_assoc. cbn [append]. eauto.
Qed.


Lemma prefix_app (p z : string) : String.prefix p (p ++ z) = true.
Proof.
  induction p as [|c p IH]; cbn [append String.prefix].
  - destruct z; reflexivity.
  - destruct (ascii_dec c c) as [_|H]; [exact IH|contradiction H; reflexivity].
Qed.

Lemma test_prefix_app (p z : string) : test (KeyPrefix p) (p ++ z) = true.
Proof. apply prefix_app. Qed.

Lemma test_listing_prefix (sort key : string) :
  startsWith "subreddit:" key = false -> test (SubredditListing sort) key = false.
Proof. unfold test. intros ->. reflexivity. Qed.

Section WithData.

Context {T : Type}.

(** X12. What the adaptive TTL gives the keys of the public methods, when
    [set] gets no custom TTL: ten minutes for a search, fifteen minutes for
    a user, and the default TTL of the cache for the posts of a user, for
    the description of a subreddit and for the trending list. *)
Theorem ttl_of_the_keys_of_the_methods (this : CacheManager.t T) :
  (forall query subreddit sort time limit after key,
      RedditAPI.searchKey query subreddit sort time limit after = Returned key ->
      ttlOf key None this = 10 * 60 * 1000)
  /\ (forall username key,
        RedditAPI.getUserKey username = Returned key ->
        ttlOf key None this = 15 * 60 * 1000)
  /\ (forall username type sort time limit key,
        RedditAPI.getUserPostsKey username type sort time limit = Returned key ->
        ttlOf key None this = defaultTTL this)
  /\ (forall name key,
        RedditAPI.getSubredditKey name = Returned key ->
        ttlOf key None this = defaultTTL this)
  /\ (forall key,
        RedditAPI.getTrendingKey = Returned key ->
        ttlOf key None this = defaultTTL this).
Proof.
  unfold ttlOf, ttlByPattern. repeat split.
  - intros query subreddit sort time limit after key H.
    apply createKey_head in H; [|vm_compute; lia].
    destruct H as [tail ->].
    change (sanitize (normalize (PString "search")) ++ String ":" tail)%string
      with ("search:" ++ tail)%string.
    cbn [patternTTL].
    rewrite !test_listing_prefix by reflexivity. rewrite test_prefix_app.
    vm_compute. reflexivity.
  - intros username key H.
    apply createKey_head in H; [|vm_compute; lia].
    destruct H as [tail ->].
    change (sanitize (normalize (PString "user")) ++ String ":" tail)%string
      with ("user:" ++ tail)%string.
    cbn [patternTTL].
    rewrite !test_listing_prefix by reflexivity. rewrite test_prefix_app.
    vm_compute. reflexivity.
  - intros username type sort time limit key H.
    apply createKey_head in H; [|vm_compute; lia].
    destruct H as [tail ->].
    change (sanitize (normalize (PString "user-posts"))) with "user-posts"%string.
    cbn [patternTTL].
    rewrite !test_listing_prefix by reflexivity. vm_compute. reflexivity.
  - intros name key H.
    apply createKey_head in H; [|vm_compute; lia].
    destruct H as [tail ->].
    change (sanitize (normalize (PString "subreddit-info")))
      with "subreddit-info"%string.
    cbn [patternTTL].
    rewrite !test_listing_prefix by reflexivity. vm_compute. reflexivity.
  - intros key H. vm_compute in H. injection H as <-. reflexivity.
Qed.

End WithData.


(** *** The keys of [browseSubreddit] *)

Lemma isKeyChar_notColon (c : ascii) : isKeyChar c = true -> notColon c = true.
Proof.
  destruct c as [[] [] [] [] [] [] [] []]; intros H;
    solve [reflexivity | discriminate H].
Qed.

Lemma lowerChar_digit (c : ascii) :
  isDigitOrMinus c = true -> isDigitOrMinus (lowerChar c) = true.
Proof.
  destruct c as [[] [] [] [] [] [] [] []]; intros H;
    solve [reflexivity | discriminate H].
Qed.

Lemma sanitize_digit (c : ascii) :
  isDigitOrMinus c = true ->
  isDigitOrMinus (if isKeyChar c then c else "_"%char) = true.
Proof.
  destruct c as [[] [] [] [] [] [] [] []]; intros H;
    solve [reflexivity | discriminate H].
Qed.

(** The part of a number, as it stands in a key. *)
Lemma number_part (n : Z) :
  everyChar isDigitOrMinus (sanitize (normalize (PNumber n))) = true.
Proof.
  unfold sanitize, normalize, toLowerCase. cbn [toString].
  apply everyChar_mapString; [exact sanitize_digit|].
  apply everyChar_trim.
  apply everyChar_mapString; [exact lowerChar_digit|].
  apply show_Z_chars.
Qed.

(** A character of [u], in a string that ends with [u]. *)
Lemma everyChar_end (q : ascii -> bool) (r : string) :
  forall (y : string) (c : ascii) (x : string),
    y = (r ++ String c x)%string -> everyChar q y = true -> q c = true.
Proof.
  intros y c x -> H. rewrite everyChar_app in H. cbn [everyChar] in H.
  apply andb_prop in H. destruct H as [_ H]. apply andb_prop in H. tauto.
Qed.

(** A key that begins with "subreddit:" and ends, after its last colon,
    with no sort, matches no pattern of the listings. *)
Lemma listing_test_false (key A u sort : string) :
  key = ("subreddit:" ++ A ++ u)%string ->
  everyChar notColon u = true ->
  (forall r : string, sort <> (r ++ u)%string) ->
  test (SubredditListing sort) key = false.
Proof.
  intros -> Hu Hsort. unfold test.
  destruct (endsWith (":" ++ sort) (dropString 10 ("subreddit:" ++ A ++ u)))
    eqn:E; [|rewrite andb_false_r; reflexivity].
  exfalso. apply endsWith_app in E. destruct E as [pre E].
  change 10%nat with (String.length "subreddit:") in E.
  rewrite dropString_app in E.
  destruct (after_last_colon A pre u sort E Hu) as [r Hr].
  apply (Hsort r Hr).
Qed.

Lemma no_sort_ends_with_time (time : RedditAPI.timeRange) (sort r : string) :
  In sort listingSorts -> sort <> (r ++ RedditAPI.timeRangeName time)%string.
Proof.
  intros Hin H. cbn [listingSorts In] in Hin.
  destruct Hin as [<-|[<-|[<-|[]]]]; destruct time;
    destruct r as [|? [|? [|? [|? r]]]]; discriminate H.
Qed.

Lemma no_sort_ends_with (q : ascii -> bool) (c : ascii) (x sort r : string) :
  q c = false -> everyChar q sort = true -> sort <> (r ++ String c x)%string.
Proof.
  intros Hc Hq H. rewrite (everyChar_end q r sort c x H Hq) in Hc. discriminate.
Qed.

Lemma listing_key_ttl {T : Type} (this : CacheManager.t T) (key A u : string) :
  key = ("subreddit:" ++ A ++ u)%string ->
  everyChar notColon u = true ->
  (forall sort r, In sort listingSorts -> sort <> (r ++ u)%string) ->
  ttlOf key None this = defaultTTL this.
Proof.
  intros Hkey Hu Hsort. unfold ttlOf, ttlByPattern. cbn [patternTTL].
  rewrite !(listing_test_false key A u) by
    (try exact Hkey; try exact Hu; intros r; apply Hsort;
     cbn [listingSorts In]; tauto).
  rewrite Hkey. vm_compute. reflexivity.
Qed.

Section Listings.

Context {T : Type}.

(** The key of a first page matches no pattern of the adaptive TTL. *)
Lemma listing_key_default_ttl
  (this : CacheManager.t T) (subreddit : string)
  (sort : option RedditAPI.listingSort) (limit : option Z)
  (time : option RedditAPI.timeRange) (key : string) :
  RedditAPI.browseSubredditKey subreddit sort limit time None = Returned key ->
  ttlOf key None this = defaultTTL this.
Proof.
  unfold RedditAPI.browseSubredditKey.
  destruct (String.eqb subreddit "" || String.eqb (trim subreddit) "");
    [discriminate|].
  set (S := RedditAPI.cleanSubreddit subreddit).
  set (sortName := RedditAPI.listingSortName
                     match sort with Some s => s | None => RedditAPI.Hot end).
  set (l := match limit with Some l => l | None => 10 end).
  intros H. destruct (createKey_shape _ _ H) as (strs & Es & Hkey).
  pose proof (number_part l) as Hdigits.
  destruct time as [time|]; cbn [option_map RedditAPI.optionalPart filter nullish negb] in Es;
    destruct (stringParts_shape _ _ Es) as [-> Hne]; cbn [map] in Hkey.
  - (* the time range is the last part *)
    set (u := RedditAPI.timeRangeName time) in *.
    assert (sanitize (normalize (PString u)) = u) as Hu
        by (destruct time; reflexivity).
    rewrite Hu in Hkey.
    assert (everyChar notColon u = true) as Hcolon by (destruct time; reflexivity).
    set (A := (sanitize (normalize (PString S)) ++ String ":"
                 (sanitize (normalize (PString sortName)) ++ String ":"
                    (sanitize (normalize (PNumber l)) ++ ":")))%string).
    assert (join ":" [sanitize (normalize (PString "subreddit"));
                      sanitize (normalize (PString S));
                      sanitize (normalize (PString sortName));
                      sanitize (normalize (PNumber l)); u]
            = ("subreddit:" ++ A ++ u)%string) as Hj.
    { unfold A. cbn [join].
      change (sanitize (normalize (PString "subreddit"))) with "subreddit"%string.
      repeat (progress (rewrite ?append_assoc; cbn [append])). reflexivity. }
    rewrite Hj in Hkey. destruct Hkey as [Hkey|(_ & hash & Hhash & Hkey)].
    + apply (listing_key_ttl this key A u Hkey Hcolon).
      intros s r Hs. apply no_sort_ends_with_time. exact Hs.
    + rewrite substring_app_prefix in Hkey by (vm_compute; lia).
      rewrite append_assoc in Hkey.
      apply (listing_key_ttl this key _ _ Hkey).
      * cbn [everyChar]. apply (everyChar_weaken isKeyChar);
          [exact isKeyChar_notColon|exact Hhash].
      * intros s r Hs.
        apply (no_sort_ends_with (fun c => negb (code c =? 95))); [reflexivity|].
        cbn [listingSorts In] in Hs. destruct Hs as [<-|[<-|[<-|[]]]]; reflexivity.
  - (* the limit is the last part *)
    set (u := sanitize (normalize (PNumber l))) in *.
    assert (exists c x, u = String c x /\ isDigitOrMinus c = true)
      as (c & x & Hu & Hc).
    { inversion Hne as [|? ? _ Hne1]; subst.
      inversion Hne1 as [|? ? _ Hne2]; subst.
      inversion Hne2 as [|? ? _ Hne3]; subst.
      inversion Hne3 as [|? ? Hl _]; subst.
      unfold u, sanitize in *. rewrite <- (strlen_mapString
        (fun c => if isKeyChar c then c else "_"%char)) in Hl.
      destruct (mapString _ (normalize (PNumber l))) as [|c x] eqn:E.
      - unfold strlen in Hl. cbn in Hl. lia.
      - exists c, x. split; [reflexivity|].
        cbn [everyChar] in Hdigits. apply andb_prop in Hdigits. tauto. }
    assert (everyChar notColon u = true) as Hcolon.
    { apply (everyChar_weaken isDigitOrMinus); [|exact Hdigits].
      intros c0. destruct c0 as [[] [] [] [] [] [] [] []]; intros H0;
        solve [reflexivity | discriminate H0]. }
    set (A := (sanitize (normalize (PString S)) ++ String ":"
                 (sanitize (normalize (PString sortName)) ++ ":"))%string).
    assert (join ":" [sanitize (normalize (PString "subreddit"));
                      sanitize (normalize (PString S));
                      sanitize (normalize (PString sortName)); u]
            = ("subreddit:" ++ A ++ u)%string) as Hj.
    { unfold A. cbn [join].
      change (sanitize (normalize (PString "subreddit"))) with "subreddit"%string.
      repeat (progress (rewrite ?append_assoc; cbn [append])). reflexivity. }
    rewrite Hj in Hkey. destruct Hkey as [Hkey|(_ & hash & Hhash & Hkey)].
    + apply (listing_key_ttl this key A u Hkey Hcolon).
      intros s r Hs. rewrite Hu.
      apply (no_sort_ends_with (fun c => negb (isDigitOrMinus c)));
        [rewrite Hc; reflexivity|].
      cbn [listingSorts In] in Hs. destruct Hs as [<-|[<-|[<-|[]]]]; reflexivity.
    + rewrite substring_app_prefix in Hkey by (vm_compute; lia).
      rewrite append_assoc in Hkey.
      apply (listing_key_ttl this key _ _ Hkey).
      * cbn [everyChar]. apply (everyChar_weaken isKeyChar);
          [exact isKeyChar_notColon|exact Hhash].
      * intros s r Hs.
        apply (no_sort_ends_with (fun c => negb (code c =? 95))); [reflexivity|].
        cbn [listingSorts In] in Hs. destruct Hs as [<-|[<-|[<-|[]]]]; reflexivity.
Qed.

(** X13. The key that [browseSubreddit] builds for a first page (no
    [after]) matches none of the patterns of the adaptive TTL: its last
    part is the limit or the time range, never the sort.  So a listing is
    stored with the default TTL of the cache, whatever its sort. *)
Theorem listing_keys_get_the_default_ttl
  (this : CacheManager.t T) (subreddit : string)
  (sort : option RedditAPI.listingSort) (limit : option Z)
  (time : option RedditAPI.timeRange) (key : string) :
  RedditAPI.browseSubredditKey subreddit sort limit time None = Returned key ->
  ttlOf key None this = defaultTTL this.
Proof.
  apply listing_key_default_ttl.
Qed.

End Listings.

Lemma listing_keys_get_the_default_ttl_witness :
  ttlOf "subreddit:programming:hot:10"%string None twoEntriesCache
  = defaultTTL twoEntriesCache.
Proof.
  apply (listing_keys_get_the_default_ttl twoEntriesCache "r/Programming"%string
           (Some RedditAPI.Hot) None None).
  vm_compute. reflexivity.
Defined.

(** Two texts without colon, each followed by nothing or by a colon and
    more: if the wholes are equal, so are the texts and what follows. *)
Lemma colon_splits (x : string) :
  forall y a b : string,
    everyChar notColon x = true -> everyChar notColon y = true ->
    (a = EmptyString \/ exists a', a = String ":" a') ->
    (b = EmptyString \/ exists b', b = String ":" b') ->
    (x ++ a = y ++ b)%string -> x = y /\ a = b.
Proof.
  induction x as [|c x IH]; intros y a b Hx Hy Ha Hb H.
  - destruct y as [|d y]; cbn [append] in H; [auto|].
    cbn [everyChar] in Hy. apply andb_prop in Hy. destruct Hy as [Hd _].
    destruct Ha as [->|[a' ->]]; [discriminate|].
    injection H as <- _. discriminate.
  - cbn [everyChar] in Hx. apply andb_prop in Hx. destruct Hx as [Hc Hx].
    destruct y as [|d y]; cbn [append] in H.
    + destruct Hb as [->|[b' ->]]; [discriminate|].
      injection H as -> _. discriminate.
    + cbn [everyChar] in Hy. apply andb_prop in Hy. destruct Hy as [_ Hy].
      injection H as -> H.
      destruct (IH y a b Hx Hy Ha Hb H) as [-> ->]. auto.
Qed.

Lemma join_tail (x : string) (rest : list string) :
  exists a : string,
    join ":" (x :: rest) = (x ++ a)%string
    /\ (rest = [] -> a = EmptyString)
    /\ (rest <> [] -> a = String ":" (join ":" rest)).
Proof.
  destruct rest as [|y rest].
  - exists EmptyString. cbn [join]. split.
    + clear. induction x as [|c x IH]; cbn [append]; [reflexivity|].
      rewrite <- IH. reflexivity.
    + split; [reflexivity|]. intros H. contradiction H. reflexivity.
  - exists (String ":" (join ":" (y :: rest))). split; [reflexivity|].
    split; [discriminate|reflexivity].
Qed.

(** Lists of parts that are not empty and hold no colon are joined to
    different texts when they differ. *)
Lemma join_injective (xs : list string) :
  forall ys : list string,
    Forall (fun s => everyChar notColon s = true /\ s <> EmptyString) xs ->
    Forall (fun s => everyChar notColon s = true /\ s <> EmptyString) ys ->
    join ":" xs = join ":" ys -> xs = ys.
Proof.
  induction xs as [|x xs IH]; intros ys Hxs Hys H.
  - destruct ys as [|y ys]; [reflexivity|].
    inversion Hys as [|? ? [_ Hne] _]; subst.
    destruct (join_tail y ys) as (b & Eb & _). rewrite Eb in H.
    cbn [join] in H. destruct y; [contradiction Hne; reflexivity|discriminate].
  - inversion Hxs as [|? ? [Hx Hnx] Hxs']; subst.
    destruct ys as [|y ys].
    + destruct (join_tail x xs) as (a & Ea & _). rewrite Ea in H.
      cbn [join] in H. destruct x; [contradiction Hnx; reflexivity|discriminate].
    + inversion Hys as [|? ? [Hy Hny] Hys']; subst.
      destruct (join_tail x xs) as (a & Ea & Ha0 & Ha1).
      destruct (join_tail y ys) as (b & Eb & Hb0 & Hb1).
      rewrite Ea, Eb in H.
      assert (a = EmptyString \/ exists a', a = String ":" a') as Ha.
      { destruct xs; [left; apply Ha0; reflexivity|].
        right. eexists. apply Ha1. discriminate. }
      assert (b = EmptyString \/ exists b', b = String ":" b') as Hb.
      { destruct ys; [left; apply Hb0; reflexivity|].
        right. eexists. apply Hb1. discriminate. }
      destruct (colon_splits x y a b Hx Hy Ha Hb H) as [-> Hab].
      f_equal. destruct xs as [|x' xs]; destruct ys as [|y' ys].
      * reflexivity.
      * rewrite (Ha0 eq_refl), Hb1 in Hab by discriminate. discriminate.
      * rewrite (Hb0 eq_refl), Ha1 in Hab by discriminate. discriminate.
      * rewrite Ha1, Hb1 in Hab by discriminate. injection Hab as Hab.
        apply IH; assumption.
Qed.

Lemma keyParts_shape (parts : list part) (strs : list string) :
  stringParts (filter (fun p => negb (nullish p)) parts) = Returned strs ->
  strs = keyParts parts
  /\ Forall (fun s => everyChar notColon s = true /\ s <> EmptyString)
       (keyParts parts).
Proof.
  intros Es. destruct (stringParts_shape _ _ Es) as [-> Hne].
  split; [reflexivity|]. unfold keyParts. apply Forall_forall. intros s Hs.
  apply in_map_iff in Hs. destruct Hs as (p & <- & Hp).
  rewrite Forall_forall in Hne. specialize (Hne p Hp). split.
  - apply (everyChar_weaken isKeyChar); [exact isKeyChar_notColon|].
    apply sanitize_chars.
  - intros E. unfold sanitize in E.
    pose proof (strlen_mapString
                  (fun c => if isKeyChar c then c else "_"%char)
                  (normalize p)) as Hl.
    rewrite E in Hl. change (strlen EmptyString) with 0 in Hl. lia.
Qed.

(** X14. Two lists of parts whose joined texts have 256 characters at most
    get the same key only when they agree part by part, once the parts are
    in small letters, trimmed and sanitized: such a key is the parts
    joined by colons, and no part holds a colon. *)
Theorem createKey_separates_short_keys
  (parts parts' : list part) (key : string) :
  createKey parts = Returned key ->
  createKey parts' = Returned key ->
  strlen (join ":" (keyParts parts)) <= 256 ->
  strlen (join ":" (keyParts parts')) <= 256 ->
  key = join ":" (keyParts parts) /\ keyParts parts = keyParts parts'.
Proof.
  intros H H' Hl Hl'.
  destruct (createKey_shape _ _ H) as (strs & Es & Hkey).
  destruct (createKey_shape _ _ H') as (strs' & Es' & Hkey').
  destruct (keyParts_shape _ _ Es) as [-> Hall].
  destruct (keyParts_shape _ _ Es') as [-> Hall'].
  destruct Hkey as [Hkey|[Hlong _]]; [|lia].
  destruct Hkey' as [Hkey'|[Hlong _]]; [|lia].
  split; [exact Hkey|]. apply join_injective; congruence.
Qed.

Lemma createKey_separates_short_keys_witness :
  keyParts [PString "Search"; PString "machine learning"; PUndefined]
  = keyParts [PString "search"; PString " Machine_Learning"].
Proof.
  apply (createKey_separates_short_keys
           [PString "Search"; PString "machine learning"; PUndefined]
           [PString "search"; PString " Machine_Learning"]
           "search:machine_learning").
  - vm_compute. reflexivity.
  - vm_compute. reflexivity.
  - vm_compute. discriminate.
  - vm_compute. discriminate.
Defined.

(** *** The name of the subreddit in the key of a listing *)

Lemma trim_head (c : ascii) (s : string) :
  isWhiteSpace c = false -> trim (String c s) <> EmptyString.
Proof.
  intros Hc. unfold trim. cbn [trimStart]. rewrite Hc. cbn [trimEnd].
  destruct (trimEnd s); [rewrite Hc|]; discriminate.
Qed.

(** X15. [browseSubreddit] takes a name with the prefix "r/" for the name
    itself: both get the same cache key.  A name that is blank is refused
    with the message that asks for a name; the bare prefix "r/" is refused
    by [createKey], with its message on empty parts. *)
Theorem browseSubreddit_drops_the_prefix
  (name : string) (sort : option RedditAPI.listingSort) (limit : option Z)
  (time : option RedditAPI.timeRange) (after : option string) :
  (trim name <> EmptyString ->
   startsWith "r/" name = false ->
   RedditAPI.browseSubredditKey ("r/" ++ name) sort limit time after
   = RedditAPI.browseSubredditKey name sort limit time after)
  /\ (trim name = EmptyString ->
      RedditAPI.browseSubredditKey name sort limit time after
      = Thrown RedditAPI.subredditRequiredMessage
      /\ RedditAPI.browseSubredditKey ("r/" ++ name) sort limit time after
         = Thrown "Cache key parts cannot be empty strings").
Proof.
  assert (RedditAPI.browseSubredditKey ("r/" ++ name) sort limit time after
          = createKey
              [PString "subreddit"; PString (trim name);
               PString (RedditAPI.listingSortName
                          match sort with Some s => s | None => RedditAPI.Hot end);
               PNumber match limit with Some l => l | None => 10 end;
               RedditAPI.optionalPart (option_map RedditAPI.timeRangeName time);
               RedditAPI.optionalPart after]) as Hprefixed.
  { unfold RedditAPI.browseSubredditKey, RedditAPI.cleanSubreddit.
    pose proof (trim_head "r" (String "/" name) eq_refl) as Hne.
    apply String.eqb_neq in Hne. cbn [append]. rewrite Hne. cbn [orb].
    change (startsWith "r/" (String "r" (String "/" name)))
      with (String.prefix "" name).
    replace (String.prefix "" name) with true by (destruct name; reflexivity).
    change (dropString 2 (String "r" (String "/" name)))
      with (dropString (String.length "r/") ("r/" ++ name)).
    rewrite dropString_app. reflexivity. }
  split.
  - intros Hne Hplain. rewrite Hprefixed.
    unfold RedditAPI.browseSubredditKey, RedditAPI.cleanSubreddit.
    rewrite Hplain. apply String.eqb_neq in Hne. rewrite Hne.
    replace (String.eqb name "") with false; [reflexivity|].
    symmetry. apply String.eqb_neq. intros ->. apply String.eqb_neq in Hne.
    apply Hne. reflexivity.
  - intros Hblank. split.
    + unfold RedditAPI.browseSubredditKey. rewrite Hblank.
      rewrite orb_true_r. reflexivity.
    + rewrite Hprefixed, Hblank. unfold createKey. cbn [filter nullish negb].
      destruct (RedditAPI.optionalPart (option_map RedditAPI.timeRangeName time));
        destruct (RedditAPI.optionalPart after); reflexivity.
Qed.

End CacheKeys.

(** ** [parseInt] *)

Module Parsing.
Import RedditAPI.

(** *** [parseInt] reads back the text of an integer *)

Lemma digitsValue_acc (d : Decimal.uint) :
  forall acc : positive,
    digitsValue (NilEmpty.string_of_uint d) (Some (Z.pos acc))
    = Some (Z.pos (Pos.of_uint_acc d acc)).
Proof.
  induction d; intros acc; cbn [NilEmpty.string_of_uint digitsValue Pos.of_uint_acc];
    try reflexivity;
    match goal with
    | |- context [isDigit ?c] => change (isDigit c) with true; cbv iota
    end;
    rewrite <- IHd; f_equal; f_equal;
    match goal with
    | |- context [code ?c] =>
        let v := eval vm_compute in (code c) in change (code c) with v
    end; lia.
Qed.

Lemma digitsValue_zero (d : Decimal.uint) :
  digitsValue (NilEmpty.string_of_uint d) (Some 0)
  = Some (Z.of_N (Pos.of_uint d)).
Proof.
  induction d; cbn [NilEmpty.string_of_uint digitsValue Pos.of_uint];
    try reflexivity;
    match goal with
    | |- context [isDigit ?c] => change (isDigit c) with true; cbv iota
    end;
    match goal with
    | |- context [code ?c] =>
        let v := eval vm_compute in (code c) in change (code c) with v
    end.
  - exact IHd.
  - apply (digitsValue_acc d 1).
  - apply (digitsValue_acc d 2).
  - apply (digitsValue_acc d 3).
  - apply (digitsValue_acc d 4).
  - apply (digitsValue_acc d 5).
  - apply (digitsValue_acc d 6).
  - apply (digitsValue_acc d 7).
  - apply (digitsValue_acc d 8).
  - apply (digitsValue_acc d 9).
Qed.

Lemma digitsValue_none (d : Decimal.uint) :
  d <> Decimal.Nil ->
  digitsValue (NilEmpty.string_of_uint d) None
  = digitsValue (NilEmpty.string_of_uint d) (Some 0).
Proof. destruct d; [contradiction|..]; reflexivity. Qed.

Lemma parseInt_digits (d : Decimal.uint) :
  d <> Decimal.Nil ->
  parseInt (NilEmpty.string_of_uint d)
  = digitsValue (NilEmpty.string_of_uint d) None.
Proof. destruct d; [contradiction|..]; reflexivity. Qed.

Lemma parseInt_show_Z (z : Z) : parseInt (show_Z z) = Some z.
Proof.
  unfold show_Z. destruct z as [|p|p]; cbn [Z.to_int NilZero.string_of_int].
  - reflexivity.
  - pose proof (DecimalPos.Unsigned.to_uint_nonnil p) as Hn.
    replace (NilZero.string_of_uint (Pos.to_uint p))
      with (NilEmpty.string_of_uint (Pos.to_uint p))
      by (unfold NilZero.string_of_uint; destruct (Pos.to_uint p);
          [contradiction|..]; reflexivity).
    rewrite parseInt_digits, digitsValue_none, digitsValue_zero by exact Hn.
    rewrite DecimalPos.Unsigned.of_to. reflexivity.
  - pose proof (DecimalPos.Unsigned.to_uint_nonnil p) as Hn.
    replace (NilZero.string_of_uint (Pos.to_uint p))
      with (NilEmpty.string_of_uint (Pos.to_uint p))
      by (unfold NilZero.string_of_uint; destruct (Pos.to_uint p);
          [contradiction|..]; reflexivity).
    unfold parseInt. cbn [trimStart].
    change (isWhiteSpace "-") with false. cbv iota.
    rewrite digitsValue_none, digitsValue_zero by exact Hn.
    rewrite DecimalPos.Unsigned.of_to. reflexivity.
Qed.

Lemma show_Z_nonempty (z : Z) : String.eqb (show_Z z) "" = false.
Proof.
  destruct (String.eqb (show_Z z) "") eqn:E; [|reflexivity].
  apply String.eqb_eq in E. pose proof (parseInt_show_Z z) as H.
  rewrite E in H. discriminate.
Qed.

End Parsing.

(** ** RedditAPI: the delays, the attempts and the requests in flight *)

Module Dispatcher.
Import RedditAPI RedditAPIFacts Parsing.

(** X16. [getRetryAfterDelay] answers [null] exactly when the header is
    absent or empty.  A header that is the text of a number of seconds
    gives that many milliseconds, at most the ceiling; any other header
    that is a date gives the time until the date, from 0 to the ceiling; a
    header that is neither gives [NaN].  No number it gives exceeds the
    ceiling. *)
Theorem getRetryAfterDelay_is_capped
  {Data : Type} (response : Response Data) (now : Z) :
  (getRetryAfterDelay response now = None
   <-> retryAfter response = None \/ retryAfter response = Some EmptyString)
  /\ (forall ms : Z,
        getRetryAfterDelay response now = Some (Num ms) ->
        ms <= MAX_BACKOFF_MS)
  /\ (forall seconds : Z,
        retryAfter response = Some (show_Z seconds) ->
        getRetryAfterDelay response now
        = Some (Num (Z.min (seconds * 1000) MAX_BACKOFF_MS)))
  /\ (forall header : string,
        retryAfter response = Some header ->
        header <> EmptyString ->
        parseInt header = None ->
        match retryAfterTime response with
        | Some retryDate =>
            exists ms : Z,
              getRetryAfterDelay response now = Some (Num ms)
              /\ 0 <= ms <= MAX_BACKOFF_MS
              /\ (0 <= retryDate - now <= MAX_BACKOFF_MS ->
                  ms = retryDate - now)
        | None => getRetryAfterDelay response now = Some NaN
        end).
Proof.
  unfold getRetryAfterDelay, MAX_BACKOFF_MS. repeat split.
  - destruct (retryAfter response) as [header|]; [|auto].
    destruct (String.eqb header "") eqn:E.
    + apply String.eqb_eq in E. subst. auto.
    + destruct (parseInt header); [discriminate|].
      destruct (retryAfterTime response); discriminate.
  - intros [->| ->]; reflexivity.
  - intros ms. destruct (retryAfter response) as [header|]; [|discriminate].
    destruct (String.eqb header ""); [discriminate|].
    destruct (parseInt header) as [seconds|].
    + intros H. injection H as <-. lia.
    + destruct (retryAfterTime response); [|discriminate].
      intros H. injection H as <-. lia.
  - intros seconds ->. rewrite show_Z_nonempty, parseInt_show_Z. reflexivity.
  - intros header -> Hne Hnan. apply String.eqb_neq in Hne. rewrite Hne, Hnan.
    destruct (retryAfterTime response) as [retryDate|]; [|reflexivity].
    eexists. split; [reflexivity|]. lia.
Qed.

Section WithData.

Context {Data : Type}.

(** An attempt ends the call after at most its own [fetch], or goes on with
    the next attempt after its [fetch] and one wait or one refresh. *)
Lemma attemptOnce_steps (endpoint : string) (a : attempt Data) (retries : nat)
  (again : option (RateLimiter.t -> outcome (Data := Data)))
  (limiter : RateLimiter.t) :
  (exists r evs l,
      attemptOnce endpoint a retries again limiter = (r, evs, l)
      /\ (evs = [] \/ evs = [Fetch (urlOf a endpoint)]
          \/ (evs = [Fetch (urlOf a endpoint); Refresh] /\ again <> None)))
  \/ (exists retry l e,
        again = Some retry
        /\ attemptOnce endpoint a retries again limiter
           = prepend [Fetch (urlOf a endpoint); e] (retry l)
        /\ (isWait e = true \/ e = Refresh)).
Proof.
  assert (forall error l,
             (exists r evs l',
                 andThen (Fetch (urlOf a endpoint))
                   (catchClause a retries again error l)
                 = (r, evs, l')
                 /\ (evs = [] \/ evs = [Fetch (urlOf a endpoint)]
                     \/ (evs = [Fetch (urlOf a endpoint); Refresh]
                         /\ again <> None)))
             \/ (exists retry l' e,
                   again = Some retry
                   /\ andThen (Fetch (urlOf a endpoint))
                        (catchClause a retries again error l)
                      = prepend [Fetch (urlOf a endpoint); e] (retry l')
                   /\ (isWait e = true \/ e = Refresh)))
    as Hcatch.
  { intros error l.
    destruct (catchClause_shape a retries again error l)
      as [[error' ->]|(retry & Hretry & ->)].
    - left. unfold fails. simpl. eauto 10.
    - right. exists retry, l,
        (BackoffWait (calculateBackoff (Z.of_nat retries) (at_random a))).
      split; [exact Hretry|]. split; [|left; reflexivity].
      rewrite !andThen_prepend, prepend_prepend. reflexivity. }
  assert (forall message l,
             exists r evs l',
               andThen (Fetch (urlOf a endpoint))
                 (throwNew a retries again l message)
               = (r, evs, l')
               /\ (evs = [] \/ evs = [Fetch (urlOf a endpoint)]
                   \/ (evs = [Fetch (urlOf a endpoint); Refresh]
                       /\ again <> None))) as Hthrow.
  { intros message l. rewrite throwNew_surfaced. unfold fails. simpl. eauto 10. }
  unfold attemptOnce.
  destruct (RateLimiter.canMakeRequest (at_check a) (others (at_before a) limiter))
    as [can limiter1].
  destruct can; simpl negb; cbv iota.
  2:{ left. destruct (RateLimiter.getErrorMessage _ _ _) as [message l].
      unfold fails. eauto 10. }
  destruct (at_headers a) as [[]|error]; [|left; unfold fails; eauto 6].
  fold (urlOf a endpoint).
  destruct (at_fetch a) as [response|error]; [|apply Hcatch].
  destruct (RateLimiter.recordRequest (at_record a) (others (at_others a) limiter1))
    as [[[]|message] limiter2]; [|left; apply Hthrow].
  destruct ((status response =? 401) && at_authenticated a).
  { destruct again as [retry|].
    - destruct (at_refresh a) as [[]|e1].
      + destruct (at_headers_again a) as [[]|e2].
        * right. exists retry, limiter2, Refresh.
          split; [reflexivity|]. split; [|right; reflexivity].
          rewrite !andThen_prepend, prepend_prepend. reflexivity.
        * left. rewrite throwNew_surfaced. unfold fails. simpl.
          do 3 eexists. split; [reflexivity|]. right. right.
          split; [reflexivity|discriminate].
      + left. rewrite throwNew_surfaced. unfold fails. simpl.
        do 3 eexists. split; [reflexivity|]. right. right.
        split; [reflexivity|discriminate].
    - destruct (negb (ok response)).
      + destruct ((status response =? 503) || (status response =? 429));
          left; apply Hthrow.
      + destruct (isHtml response); [left; apply Hthrow|].
        destruct (json response) as [data|error]; [|apply Hcatch].
        left. simpl. eauto 10. }
  destruct (negb (ok response)).
  - destruct ((status response =? 503) || (status response =? 429)).
    + destruct again as [retry|]; [|left; apply Hthrow].
      right. exists retry, limiter2.
      destruct (getRetryAfterDelay response (at_now a)) as [delay|].
      * exists (RetryAfterWait delay).
        split; [reflexivity|]. split; [|left; reflexivity].
        rewrite !andThen_prepend, prepend_prepend. reflexivity.
      * exists (BackoffWait (calculateBackoff (Z.of_nat retries) (at_random a))).
        split; [reflexivity|]. split; [|left; reflexivity].
        rewrite !andThen_prepend, prepend_prepend. reflexivity.
    + left. apply Hthrow.
  - destruct (isHtml response); [left; apply Hthrow|].
    destruct (json response) as [data|error]; [|apply Hcatch].
    left. simpl. eauto 10.
Qed.

Lemma count_app (p : event -> bool) (xs ys : list event) :
  count p (xs ++ ys) = (count p xs + count p ys)%nat.
Proof. unfold count. rewrite filter_app, length_app. reflexivity. Qed.

(** X17. A call of [getImpl] with a budget of [retries] calls [fetch] at
    most [retries + 1] times; its waits and its refreshes of the token
    number at most [retries] together, and its calls of [fetch] at most
    one more than they do.  When the limiter refuses the first attempt, or
    the headers cannot be had, the call rejects without any [fetch]. *)
Theorem getImpl_attempts_are_bounded
  (endpoint : string) (world : nat -> attempt Data) (retries n : nat)
  (limiter : RateLimiter.t) :
  (count isFetch (snd (fst (getImpl endpoint retries n world limiter)))
   <= S retries)%nat
  /\ (count isWait (snd (fst (getImpl endpoint retries n world limiter)))
      + count isRefresh (snd (fst (getImpl endpoint retries n world limiter)))
      <= retries)%nat
  /\ (count isFetch (snd (fst (getImpl endpoint retries n world limiter)))
      <= S (count isWait (snd (fst (getImpl endpoint retries n world limiter)))
            + count isRefresh
                (snd (fst (getImpl endpoint retries n world limiter)))))%nat
  /\ (fst (RateLimiter.canMakeRequest (at_check (world n))
             (others (at_before (world n)) limiter)) = false
      \/ (exists error, at_headers (world n) = Rejected error) ->
      snd (fst (getImpl endpoint retries n world limiter)) = []
      /\ exists error,
           fst (fst (getImpl endpoint retries n world limiter)) = Rejected error).
Proof.
  split; [|split; [|split]].
  1-3: revert n limiter; induction retries as [|retries IH]; intros n limiter;
    cbn [getImpl];
    [ destruct (attemptOnce_steps endpoint (world n) 0 None limiter)
        as [(r & evs & l & -> & [-> |[-> |[_ Hnone]]])
           |(retry & _ & _ & Hnone & _)];
      [cbn; lia|cbn; lia|contradiction Hnone; reflexivity|discriminate]
    | destruct (attemptOnce_steps endpoint (world n) (S retries)
                  (Some (getImpl endpoint retries (S n) world)) limiter)
        as [(r & evs & l & -> & [-> |[-> |[-> _]]])
           |(retry & l & e & Hretry & -> & He)];
      [cbn; lia|cbn; lia|cbn; lia|];
      injection Hretry as <-;
      rewrite prepend_events, !count_app;
      specialize (IH (S n) l);
      destruct He as [He| ->];
      [destruct e; try discriminate He; cbn; lia|cbn; lia] ].
  intros H.
  assert (exists error l,
             attemptOnce endpoint (world n) retries
               match retries with
               | O => None
               | S retries' => Some (getImpl endpoint retries' (S n) world)
               end limiter
             = (Rejected error, [], l)) as (error & l & E).
  { unfold attemptOnce.
    destruct (RateLimiter.canMakeRequest (at_check (world n))
                (others (at_before (world n)) limiter)) as [can limiter1].
    destruct can; cbn [negb]; cbv iota.
    - destruct H as [H|[error H]]; [discriminate H|]. rewrite H.
      unfold fails. eauto.
    - destruct (RateLimiter.getErrorMessage _ _ _) as [message l].
      unfold fails. eauto. }
  destruct retries; cbn [getImpl]; rewrite E; cbn; eauto.
Qed.

End WithData.

(** *** Requests in flight *)

Lemma mapGet_mapSet_same {A : Type} (key : string) (v : A) (m : list (string * A)) :
  mapGet key (mapSet key v m) = Some v.
Proof.
  induction m as [|[k v0] rest IH]; cbn [mapSet mapGet].
  - rewrite String.eqb_refl. reflexivity.
  - destruct (String.eqb k key) eqn:E; cbn [mapGet]; rewrite E; auto.
Qed.

Lemma mapGet_mapSet_other {A : Type} (key k : string) (v : A)
  (m : list (string * A)) :
  k <> key -> mapGet k (mapSet key v m) = mapGet k m.
Proof.
  intros Hk. induction m as [|[k0 v0] rest IH]; cbn [mapSet mapGet].
  - replace (String.eqb key k) with false; [reflexivity|].
    symmetry. apply String.eqb_neq. congruence.
  - destruct (String.eqb k0 key) eqn:E; cbn [mapGet].
    + apply String.eqb_eq in E. subst k0.
      replace (String.eqb key k) with false; [reflexivity|].
      symmetry. apply String.eqb_neq. congruence.
    + destruct (String.eqb k0 k); [reflexivity|exact IH].
Qed.

Lemma mapGet_mapDelete_other {A : Type} (key k : string) (m : list (string * A)) :
  k <> key -> mapGet k (mapDelete key m) = mapGet k m.
Proof.
  intros Hk. unfold mapDelete.
  induction m as [|[k0 v0] rest IH]; [reflexivity|].
  cbn [filter fst mapGet]. destruct (String.eqb k0 key) eqn:E; cbn [negb].
  - apply String.eqb_eq in E. subst k0.
    replace (String.eqb key k) with false; [exact IH|].
    symmetry. apply String.eqb_neq. congruence.
  - cbn [mapGet]. destruct (String.eqb k0 k); [reflexivity|exact IH].
Qed.

Lemma mapGet_In {A : Type} (key : string) (v : A) (m : list (string * A)) :
  NoDup (map fst m) -> In (key, v) m -> mapGet key m = Some v.
Proof.
  induction m as [|[k0 v0] rest IH]; [contradiction|].
  cbn [map fst mapGet]. intros Hnd [H|H].
  - injection H as -> ->. rewrite String.eqb_refl. reflexivity.
  - inversion Hnd as [|? ? Hnot Hrest]; subst.
    destruct (String.eqb k0 key) eqn:E; [|apply IH; assumption].
    apply String.eqb_eq in E. subst k0. contradiction Hnot.
    change key with (fst (key, v)). apply in_map. exact H.
Qed.

Lemma keys_mapSet_in {A : Type} (key k : string) (v : A)
  (m : list (string * A)) :
  In k (map fst (mapSet key v m)) -> In k (map fst m) \/ k = key.
Proof.
  induction m as [|[k0 v0] rest IH]; cbn [mapSet map fst In].
  - intros [<-|[]]. auto.
  - destruct (String.eqb k0 key); cbn [map fst In].
    + tauto.
    + intros [H|H]; [auto|]. destruct (IH H); auto.
Qed.

Lemma keys_mapSet {A : Type} (key : string) (v : A) (m : list (string * A)) :
  NoDup (map fst m) -> NoDup (map fst (mapSet key v m)).
Proof.
  induction m as [|[k0 v0] rest IH]; cbn [mapSet map fst].
  - intros _. repeat constructor. intros [].
  - intros Hnd. inversion Hnd as [|? ? Hnot Hrest]; subst.
    destruct (String.eqb k0 key) eqn:E; cbn [map fst].
    + exact Hnd.
    + constructor; [|apply IH; exact Hrest].
      intros H. destruct (keys_mapSet_in key k0 v rest H) as [H'|H'];
        [contradiction|].
      subst k0. rewrite String.eqb_refl in E. discriminate.
Qed.

Lemma keys_mapDelete {A : Type} (key : string) (m : list (string * A)) :
  NoDup (map fst m) -> NoDup (map fst (mapDelete key m)).
Proof.
  unfold mapDelete. induction m as [|[k0 v0] rest IH]; [auto|].
  cbn [map fst filter]. intros Hnd. inversion Hnd as [|? ? Hnot Hrest]; subst.
  destruct (String.eqb k0 key); cbn [negb map fst]; [auto|].
  constructor; [|auto]. intros H. apply Hnot.
  apply in_map_iff in H. destruct H as ([k v] & <- & H).
  apply filter_In in H. destruct H as [H _].
  change (In (fst (k, v)) (map fst rest)). apply in_map. exact H.
Qed.

Lemma forget_flying (endpoint e : string) (promise : nat) (stamp : Z)
  (calls : nat) (this : inFlight) :
  e <> endpoint ->
  flying endpoint promise stamp calls this ->
  flying endpoint promise stamp calls (forget e this).
Proof.
  intros He (H1 & H2 & H3 & H4). unfold flying, forget.
  cbn [inFlightRequests inFlightRequestTimestamps].
  rewrite !mapGet_mapDelete_other by congruence.
  repeat split; try assumption. apply keys_mapDelete. exact H3.
Qed.

Lemma cleanup_flying (endpoint : string) (promise : nat) (stamp : Z)
  (calls : nat) (now : Z) (this : inFlight) :
  now - stamp <= IN_FLIGHT_REQUEST_TTL_MS ->
  flying endpoint promise stamp calls this ->
  flying endpoint promise stamp calls (cleanupStaleInFlightRequests now this).
Proof.
  intros Hnow Hfly. unfold cleanupStaleInFlightRequests.
  assert (forall e t, In (e, t) (inFlightRequestTimestamps this) ->
                      e = endpoint -> t = stamp) as Hsnap.
  { intros e t Hin ->. destruct Hfly as (_ & H2 & H3 & _).
    rewrite (mapGet_In endpoint t _ H3 Hin) in H2. congruence. }
  revert Hfly Hsnap. generalize (inFlightRequestTimestamps this).
  intros entries. revert this.
  induction entries as [|[e t] rest IH]; intros this Hfly Hsnap; cbn [fold_left].
  - exact Hfly.
  - apply IH.
    + cbn [fst snd]. destruct (now - t >? IN_FLIGHT_REQUEST_TTL_MS) eqn:E;
        [|exact Hfly].
      apply forget_flying; [|exact Hfly]. intros ->.
      rewrite (Hsnap endpoint t (or_introl eq_refl) eq_refl) in E.
      rewrite Z.gtb_ltb in E. apply Z.ltb_lt in E. lia.
    + intros e' t' Hin. apply Hsnap. right. exact Hin.
Qed.

Lemma cleanup_calls (now : Z) (this : inFlight) :
  getImplCalls (cleanupStaleInFlightRequests now this) = getImplCalls this.
Proof.
  unfold cleanupStaleInFlightRequests.
  generalize (inFlightRequestTimestamps this) at 1. intros entries. revert this.
  induction entries as [|[e t] rest IH]; intros this; cbn [fold_left];
    [reflexivity|].
  rewrite IH. destruct (now - snd (e, t) >? IN_FLIGHT_REQUEST_TTL_MS); reflexivity.
Qed.

Lemma cleanup_keys (now : Z) (this : inFlight) :
  NoDup (map fst (inFlightRequestTimestamps this)) ->
  NoDup (map fst (inFlightRequestTimestamps
                    (cleanupStaleInFlightRequests now this))).
Proof.
  unfold cleanupStaleInFlightRequests.
  generalize (inFlightRequestTimestamps this) at 2. intros entries. revert this.
  induction entries as [|[e t] rest IH]; intros this Hnd; cbn [fold_left];
    [exact Hnd|].
  apply IH. destruct (now - snd (e, t) >? IN_FLIGHT_REQUEST_TTL_MS);
    [|exact Hnd].
  apply keys_mapDelete. exact Hnd.
Qed.

Lemma fly_keys (e : flight) (this : inFlight) :
  NoDup (map fst (inFlightRequestTimestamps this)) ->
  NoDup (map fst (inFlightRequestTimestamps (fly e this))).
Proof.
  intros Hnd. destruct e as [endpoint nowCleanup now|endpoint]; cbn [fly].
  - unfold get. pose proof (cleanup_keys nowCleanup this Hnd) as Hc.
    destruct (mapGet endpoint _); cbn [snd inFlightRequestTimestamps];
      [exact Hc|]. apply keys_mapSet. exact Hc.
  - apply keys_mapDelete. exact Hnd.
Qed.

Lemma flights_keys (events : list flight) :
  forall this : inFlight,
    NoDup (map fst (inFlightRequestTimestamps this)) ->
    NoDup (map fst (inFlightRequestTimestamps (flights events this))).
Proof.
  unfold flights. induction events as [|e rest IH]; intros this Hnd;
    cbn [fold_left]; [exact Hnd|].
  apply IH, fly_keys, Hnd.
Qed.

Lemma fly_flying (endpoint : string) (promise : nat) (stamp : Z)
  (calls : nat) (e : flight) (this : inFlight) :
  pending endpoint stamp e ->
  flying endpoint promise stamp calls this ->
  flying endpoint promise stamp calls (fly e this).
Proof.
  intros Hp Hfly. destruct e as [e nowCleanup now|e]; cbn [fly pending] in *.
  - pose proof (cleanup_flying endpoint promise stamp calls nowCleanup this
                  Hp Hfly) as (H1 & H2 & H3 & H4).
    unfold get. destruct (mapGet e (inFlightRequests _)) eqn:Ee; cbn [snd].
    + repeat split; assumption.
    + assert (e <> endpoint) as Hne by (intros ->; congruence).
      unfold flying, callsFor in *.
      cbn [inFlightRequests inFlightRequestTimestamps getImplCalls].
      rewrite !mapGet_mapSet_other by congruence.
      repeat split; try assumption.
      * apply keys_mapSet. exact H3.
      * rewrite filter_app, length_app. cbn [filter].
        replace (String.eqb endpoint e) with false.
        -- cbn [List.length]. lia.
        -- symmetry. apply String.eqb_neq. congruence.
  - apply forget_flying; assumption.
Qed.

(** X18. Once [get] has started a request for an endpoint, every later
    [get] for that endpoint returns the promise of that request and calls
    [getImpl] no more, whatever happens to the other endpoints, as long as
    the [finally] callback of the endpoint has not run and no call finds
    the request older than five minutes. *)
Theorem get_shares_the_request_in_flight
  (history events : list flight) (endpoint : string) (nowCleanup stamp : Z) :
  mapGet endpoint
    (inFlightRequests
       (cleanupStaleInFlightRequests nowCleanup (flights history idle))) = None ->
  Forall (pending endpoint stamp) events ->
  fst (get endpoint nowCleanup stamp (flights history idle))
  = List.length (getImplCalls (flights history idle))
  /\ callsFor endpoint
       (flights events (snd (get endpoint nowCleanup stamp (flights history idle))))
     = S (callsFor endpoint (flights history idle))
  /\ forall now' stamp' : Z,
       now' - stamp <= IN_FLIGHT_REQUEST_TTL_MS ->
       get endpoint now' stamp'
         (flights events
            (snd (get endpoint nowCleanup stamp (flights history idle))))
       = (fst (get endpoint nowCleanup stamp (flights history idle)),
          cleanupStaleInFlightRequests now'
            (flights events
               (snd (get endpoint nowCleanup stamp (flights history idle))))).
Proof.
  intros Hnew Hpending.
  set (this := flights history idle) in *.
  assert (NoDup (map fst (inFlightRequestTimestamps this))) as Hnd
      by (apply flights_keys; constructor).
  assert (get endpoint nowCleanup stamp this
          = (List.length (getImplCalls this),
             {| inFlightRequests :=
                  mapSet endpoint (List.length (getImplCalls this))
                    (inFlightRequests
                       (cleanupStaleInFlightRequests nowCleanup this));
                inFlightRequestTimestamps :=
                  mapSet endpoint stamp
                    (inFlightRequestTimestamps
                       (cleanupStaleInFlightRequests nowCleanup this));
                getImplCalls := getImplCalls this ++ [endpoint] |})) as Eget.
  { unfold get. rewrite Hnew, cleanup_calls. reflexivity. }
  rewrite Eget. cbn [fst snd].
  set (started := {| inFlightRequests := _ |}).
  assert (flying endpoint (List.length (getImplCalls this)) stamp
            (S (callsFor endpoint this)) started) as Hstart.
  { unfold flying, started, callsFor.
    cbn [inFlightRequests inFlightRequestTimestamps getImplCalls].
    rewrite !mapGet_mapSet_same. repeat split.
    - apply keys_mapSet, cleanup_keys, Hnd.
    - rewrite filter_app, length_app. cbn [filter].
      rewrite String.eqb_refl. cbn [List.length]. lia. }
  assert (flying endpoint (List.length (getImplCalls this)) stamp
            (S (callsFor endpoint this)) (flights events started)) as Hlater.
  { clear Eget. revert Hstart. generalize started. unfold flights.
    induction Hpending as [|e rest He Hrest IH]; intros s Hs; cbn [fold_left];
      [exact Hs|].
    apply IH. apply fly_flying; assumption. }
  split; [reflexivity|]. split; [apply Hlater|].
  intros now' stamp' Hnow'.
  destruct (cleanup_flying _ _ _ _ now' _ Hnow' Hlater) as (H1 & _).
  unfold get. rewrite H1. reflexivity.
Qed.

Lemma get_shares_the_request_in_flight_witness :
  get "/r/rust/hot.json"%string 301000 301000
    (flights [Get "/r/news/hot.json"%string 2000 2000; Settled "/r/news/hot.json"%string;
              Get "/r/rust/hot.json"%string 300000 300001]
       (snd (get "/r/rust/hot.json"%string 1000 1000
               (flights [Get "/r/news/hot.json"%string 0 0] idle))))
  = (1%nat,
     cleanupStaleInFlightRequests 301000
       (flights [Get "/r/news/hot.json"%string 2000 2000; Settled "/r/news/hot.json"%string;
                 Get "/r/rust/hot.json"%string 300000 300001]
          (snd (get "/r/rust/hot.json"%string 1000 1000
                  (flights [Get "/r/news/hot.json"%string 0 0] idle))))).
Proof.
  refine (proj2 (proj2 (get_shares_the_request_in_flight
              [Get "/r/news/hot.json"%string 0 0]
              [Get "/r/news/hot.json"%string 2000 2000; Settled "/r/news/hot.json"%string;
               Get "/r/rust/hot.json"%string 300000 300001]
              "/r/rust/hot.json"%string 1000 1000 _ _)) 301000 301000 _).
  - vm_compute. reflexivity.
  - repeat apply Forall_cons; try apply Forall_nil; vm_compute; discriminate.
  - vm_compute. discriminate.
Defined.

End Dispatcher.

(** ** RedditAPI: a listing and the cache *)

Module ListingCache.
Import CacheManager CacheManagerFacts CacheManagerMethods CacheKeys.

Section WithData.

Context {Data : Type}.
Variable stringify : Data -> option string.
Variable encode : string -> string.







End WithData.


End ListingCache.

(** ** The entry point: the port *)

Module EntryPoint.
Import Index Parsing.

(** X20. [parsePort] always gives a port from 1 to 65535: the number the
    variable begins with when that is in the range, 3000 in every other
    case.  It reads back the text of every port of the range, and it
    gives the number that any other text begins with, such as "8080abc",
    when that number is in the range. *)
Theorem parsePort_is_a_port (portEnv : option string) :
  1 <= parsePort portEnv <= 65535
  /\ (parsePort portEnv <> 3000 ->
      exists value : string,
        portEnv = Some value
        /\ RedditAPI.parseInt value = Some (parsePort portEnv))
  /\ (forall port : Z,
        1 <= port <= 65535 -> parsePort (Some (show_Z port)) = port)
  /\ (forall (value : string) (parsed : Z),
        RedditAPI.parseInt value = Some parsed ->
        1 <= parsed <= 65535 ->
        parsePort (Some value) = parsed).
Proof.
  unfold parsePort. repeat split.
  - destruct portEnv as [value|]; [|lia].
    destruct (String.eqb value ""); [lia|].
    destruct (RedditAPI.parseInt value) as [parsed|]; [|lia].
    destruct ((parsed <? 1) || (parsed >? 65535)) eqn:E; [lia|].
    apply orb_false_iff in E. destruct E as [E _]. apply Z.ltb_ge in E. lia.
  - destruct portEnv as [value|]; [|lia].
    destruct (String.eqb value ""); [lia|].
    destruct (RedditAPI.parseInt value) as [parsed|]; [|lia].
    destruct ((parsed <? 1) || (parsed >? 65535)) eqn:E; [lia|].
    apply orb_false_iff in E. destruct E as [_ E].
    rewrite Z.gtb_ltb in E. apply Z.ltb_ge in E. lia.
  - destruct portEnv as [value|]; [|intros H; contradiction H; reflexivity].
    destruct (String.eqb value ""); [intros H; contradiction H; reflexivity|].
    destruct (RedditAPI.parseInt value) as [parsed|] eqn:Ep;
      [|intros H; contradiction H; reflexivity].
    destruct ((parsed <? 1) || (parsed >? 65535));
      [intros H; contradiction H; reflexivity|].
    intros _. exists value. split; [reflexivity|exact Ep].
  - intros port Hport. rewrite show_Z_nonempty, parseInt_show_Z.
    replace ((port <? 1) || (port >? 65535)) with false; [reflexivity|].
    symmetry. apply orb_false_iff. rewrite Z.gtb_ltb. split; apply Z.ltb_ge; lia.
  - intros value parsed Hparsed Hport.
    destruct (String.eqb value "") eqn:E.
    + apply String.eqb_eq in E. subst value. discriminate Hparsed.
    + rewrite Hparsed.
      replace ((parsed <? 1) || (parsed >? 65535)) with false; [reflexivity|].
      symmetry. apply orb_false_iff. rewrite Z.gtb_ltb.
      split; apply Z.ltb_ge; lia.
Qed.

End EntryPoint.

(** ** AuthManager: the environment and the life of a token *)

Module TokenManager.
Import AuthManager AuthManagerFacts.

(** *** The configuration from the environment *)

Lemma cleanEnvVar_some (value : option string) (cleaned : string) :
  cleanEnvVar value = Some cleaned ->
  cleaned <> EmptyString
  /\ containsUnresolvedTemplate cleaned = false
  /\ exists v : string, value = Some v /\ cleaned = trim v.
Proof.
  unfold cleanEnvVar. destruct value as [v|]; [|discriminate].
  destruct (String.eqb v ""); [discriminate|].
  destruct (String.eqb (trim v) "") eqn:E; [discriminate|].
  destruct (containsUnresolvedTemplate (trim v)) eqn:Et; [discriminate|].
  intros H. injection H as <-. apply String.eqb_neq in E. eauto.
Qed.

Lemma cleanEnvVar_clean (cleaned : string) :
  cleaned <> EmptyString -> trim cleaned = cleaned ->
  containsUnresolvedTemplate cleaned = false ->
  cleanEnvVar (Some cleaned) = Some cleaned.
Proof.
  intros Hne Htrim Ht. unfold cleanEnvVar. rewrite Htrim, Ht.
  apply String.eqb_neq in Hne. rewrite Hne. reflexivity.
Qed.

(** X21. A value that [cleanEnvVar] lets through is not empty, has no white
    space around it, and holds no template: no dollar sign and opening
    brace that a closing brace follows or that no closing brace goes with,
    and no dollar sign before a capital letter or an underscore.  Cleaning
    it again changes nothing.  [loadFromEnv] gives a configuration exactly
    when the client id is such a value; that configuration passes
    [isValidConfig], counts as authenticated, and its user agent is the
    cleaned variable or else the default one. *)
Theorem environment_values_are_cleaned
  (REDDIT_CLIENT_ID REDDIT_USER_AGENT : option string) :
  (forall cleaned : string,
      cleanEnvVar REDDIT_CLIENT_ID = Some cleaned ->
      cleaned <> EmptyString
      /\ trim cleaned = cleaned
      /\ hasTemplate cleaned = false
      /\ hasBareVariable cleaned = false
      /\ (includes "${" cleaned = true -> includes "}" cleaned = true)
      /\ cleanEnvVar (Some cleaned) = Some cleaned)
  /\ (loadFromEnv REDDIT_CLIENT_ID REDDIT_USER_AGENT = None
      <-> cleanEnvVar REDDIT_CLIENT_ID = None)
  /\ (forall config : AuthConfig,
        loadFromEnv REDDIT_CLIENT_ID REDDIT_USER_AGENT = Some config ->
        cleanEnvVar REDDIT_CLIENT_ID = Some (clientId config)
        /\ isValidConfig config = true
        /\ isAuthenticated (Some config) = true
        /\ getRateLimit (Some config) = 60
        /\ accessToken config = None
        /\ userAgent config
           = Some match cleanEnvVar REDDIT_USER_AGENT with
                  | Some agent => agent
                  | None => "RedditInstalledApp/1.0"%string
                  end).
Proof.
  split; [|split].
  - intros cleaned H.
    destruct (cleanEnvVar_some _ _ H) as (Hne & Ht & v & _ & Hv).
    assert (trim cleaned = cleaned) as Htrim by (subst; apply trim_trim).
    split; [exact Hne|]. split; [exact Htrim|].
    assert (hasTemplate cleaned = false
            /\ hasBareVariable cleaned = false
            /\ (includes "${" cleaned = true -> includes "}" cleaned = true))
      as (H1 & H2 & H3).
    { unfold containsUnresolvedTemplate in Ht.
      destruct (hasTemplate cleaned); [discriminate|].
      destruct (includes "${" cleaned && negb (includes "}" cleaned)) eqn:E;
        [discriminate|].
      destruct (hasBareVariable cleaned); [discriminate|].
      repeat split. intros Hi. rewrite Hi in E.
      destruct (includes "}" cleaned); [reflexivity|discriminate]. }
    repeat split; try assumption.
    apply cleanEnvVar_clean; assumption.
  - unfold loadFromEnv.
    destruct (cleanEnvVar REDDIT_CLIENT_ID) as [id|] eqn:E; [|tauto].
    destruct (cleanEnvVar_some _ _ E) as (Hne & _).
    apply String.eqb_neq in Hne. rewrite Hne. split; discriminate.
  - intros config. unfold loadFromEnv.
    destruct (cleanEnvVar REDDIT_CLIENT_ID) as [id|] eqn:E; [|discriminate].
    destruct (cleanEnvVar_some _ _ E) as (Hne & _).
    pose proof Hne as Hne'. apply String.eqb_neq in Hne'. rewrite Hne'.
    intros H. injection H as <-. cbn [clientId accessToken userAgent].
    repeat split.
    + unfold isValidConfig. cbn [clientId]. rewrite Z.gtb_ltb. apply Z.ltb_lt.
      destruct id; [contradiction Hne; reflexivity|].
      rewrite strlen_cons. pose proof (strlen_nonneg id). lia.
    + destruct (cleanEnvVar REDDIT_USER_AGENT) as [agent|] eqn:Ea; [|reflexivity].
      destruct (cleanEnvVar_some _ _ Ea) as (Hna & _).
      apply String.eqb_neq in Hna. rewrite Hna. reflexivity.
Qed.

(** *** The life of a token *)

Lemma fresh_token (c : AuthConfig) (token : string) (expiry now : Z) :
  accessToken c = Some token -> token <> EmptyString ->
  expiresAt c = Some expiry -> 0 < expiry ->
  needsRefresh c now = (expiry - TOKEN_EXPIRATION_BUFFER_MS <=? now).
Proof.
  intros Ht Hne He Hpos. unfold needsRefresh, isTokenExpired, truthy.
  rewrite Ht, He. apply String.eqb_neq in Hne. rewrite Hne. cbn [negb orb].
  replace ((expiry =? 0) || (expiry <=? 0)) with false.
  - rewrite Z.geb_leb. reflexivity.
  - symmetry. apply orb_false_iff. split; [apply Z.eqb_neq|apply Z.leb_gt]; lia.
Qed.

(** X22. A token is used until ten seconds before it expires.  With a
    token that expires at [expiry], a call of [getAccessToken] before
    [expiry - 10000] returns the token at once and sends no request; a
    call from then on waits for the refresh in flight, or starts one, with
    one request to the token endpoint.  The token of a well-formed answer
    received at [now] expires at [now] plus its lifetime in milliseconds:
    a lifetime of ten seconds or less is never used twice. *)
Theorem token_is_reused_until_the_buffer
  (c : AuthConfig) (token : string) (expiry now : Z) (randomId : string)
  (this : t) :
  config this = Some c ->
  accessToken c = Some token -> token <> EmptyString ->
  expiresAt c = Some expiry -> 0 < expiry ->
  (now < expiry - TOKEN_EXPIRATION_BUFFER_MS ->
   call now randomId this
   = {| config := config this;
        tokenRefreshPromise := tokenRefreshPromise this;
        refreshes := refreshes this;
        callers := callers this ++ [Done (Resolved (Some token))];
        tokenRequests := tokenRequests this |})
  /\ (expiry - TOKEN_EXPIRATION_BUFFER_MS <= now ->
      forall p : nat,
        tokenRefreshPromise this = Some p ->
        callers (call now randomId this) = callers this ++ [AwaitingRefresh p]
        /\ tokenRequests (call now randomId this) = tokenRequests this)
  /\ (expiry - TOKEN_EXPIRATION_BUFFER_MS <= now ->
      tokenRefreshPromise this = None ->
      clientId c <> EmptyString ->
      callers (call now randomId this)
      = callers this ++ [Refreshing (List.length (refreshes this))]
      /\ tokenRefreshPromise (call now randomId this)
         = Some (List.length (refreshes this))
      /\ tokenRequests (call now randomId this) = S (tokenRequests this))
  /\ (forall (p : nat) (raw : TokenResponse) (received lifetime : Z) (this' : t),
        0 <= received ->
        wellFormed raw = true ->
        expires_in raw = Some lifetime ->
        answered p (Body raw) received this = Some this' ->
        exists c' : AuthConfig,
          config this' = Some c'
          /\ accessToken c' = access_token raw
          /\ expiresAt c' = Some (received + lifetime * 1000)
          /\ forall now' : Z,
               needsRefresh c' now'
               = (received + lifetime * 1000 - TOKEN_EXPIRATION_BUFFER_MS
                  <=? now')).
Proof.
  intros Hc Ht Hne He Hpos.
  pose proof (fresh_token c token expiry now Ht Hne He Hpos) as Hfresh.
  split; [|split; [|split]].
  - intros Hnow. unfold call. rewrite Hc, Hfresh.
    replace (expiry - TOKEN_EXPIRATION_BUFFER_MS <=? now) with false
      by (symmetry; apply Z.leb_gt; exact Hnow).
    unfold orNull, truthy. rewrite Ht.
    apply String.eqb_neq in Hne. rewrite Hne. reflexivity.
  - intros Hnow p Hp. unfold call. rewrite Hc, Hfresh.
    replace (expiry - TOKEN_EXPIRATION_BUFFER_MS <=? now) with true
      by (symmetry; apply Z.leb_le; exact Hnow).
    rewrite Hp. split; reflexivity.
  - intros Hnow Hp Hid. unfold call. rewrite Hc, Hfresh.
    replace (expiry - TOKEN_EXPIRATION_BUFFER_MS <=? now) with true
      by (symmetry; apply Z.leb_le; exact Hnow).
    rewrite Hp. unfold truthy. apply String.eqb_neq in Hid. rewrite Hid.
    cbn [negb]. repeat split.
  - intros p raw received lifetime this' Hrec Hwf Hlife. unfold answered.
    destruct (nth_error (refreshes this) p) as [[| | |]|]; try discriminate.
    rewrite Hwf, Hc. intros H. injection H as <-.
    eexists. cbn [withRefresh config]. split; [reflexivity|].
    cbn [accessToken expiresAt]. rewrite Hlife. cbn [option_map].
    split; [reflexivity|]. split; [reflexivity|].
    intros now'. unfold wellFormed in Hwf. rewrite Hlife in Hwf.
    apply andb_prop in Hwf. destruct Hwf as [Hwf _].
    apply andb_prop in Hwf. destruct Hwf as [Hwf Hlt].
    apply andb_prop in Hwf. destruct Hwf as [Htok _].
    apply Z.ltb_lt in Hlt.
    destruct (access_token raw) as [tok|] eqn:Etok; [|discriminate Htok].
    apply (fresh_token _ tok).
    + reflexivity.
    + unfold truthy in Htok. apply negb_true_iff in Htok.
      apply String.eqb_neq. exact Htok.
    + reflexivity.
    + lia.
Qed.

Lemma token_is_reused_until_the_buffer_witness :
  callers (call 3590049 "id4"%string threeCallsEnd)
  = (callers threeCallsEnd ++ [Done (Resolved (Some "tok"%string))])%list
  /\ callers (call 3590050 "id4"%string threeCallsEnd)
     = (callers threeCallsEnd ++ [Refreshing 1])%list
  /\ tokenRequests (call 3590050 "id4"%string threeCallsEnd) = 2%nat.
Proof.
  split.
  - destruct (token_is_reused_until_the_buffer
                {| clientId := "abc123"%string; accessToken := Some "tok"%string;
                   refreshToken := None; expiresAt := Some 3600050;
                   scope := Some "*"%string; userAgent := None;
                   deviceId := Some "id1"%string |}
                "tok"%string 3600050 3590049 "id4"%string threeCallsEnd) as (H & _).
    + vm_compute. reflexivity.
    + reflexivity.
    + discriminate.
    + reflexivity.
    + lia.
    + rewrite H by (vm_compute; reflexivity). reflexivity.
  - destruct (token_is_reused_until_the_buffer
                {| clientId := "abc123"%string; accessToken := Some "tok"%string;
                   refreshToken := None; expiresAt := Some 3600050;
                   scope := Some "*"%string; userAgent := None;
                   deviceId := Some "id1"%string |}
                "tok"%string 3600050 3590050 "id4"%string threeCallsEnd) as (_ & _ & H & _).
    + vm_compute. reflexivity.
    + reflexivity.
    + discriminate.
    + reflexivity.
    + lia.
    + destruct H as (H1 & _ & H3).
      * vm_compute. discriminate.
      * vm_compute. reflexivity.
      * discriminate.
      * split; [exact H1|exact H3].
Defined.

End TokenManager.

(** ** ContentProcessor *)

Module ContentProcessorFacts.
Import ContentProcessor.

(** X23. [truncateTitle] returns a title that fits as it is.  A longer
    title becomes its first [maxLength - 3] characters and three dots,
    which makes [maxLength] characters when [maxLength] is 3 or more, and
    truncating again changes nothing; when [maxLength] is less than 3 the
    result is the three dots alone, longer than [maxLength]. *)
Theorem truncateTitle_fits (title : string) (maxLength : Z) :
  truncateTitle title None = truncateTitle title (Some 80)
  /\ (strlen title <= maxLength ->
      truncateTitle title (Some maxLength) = title)
  /\ (maxLength < strlen title ->
      truncateTitle title (Some maxLength)
      = (String.substring 0 (Z.to_nat (maxLength - 3)) title ++ "...")%string
      /\ String.prefix (String.substring 0 (Z.to_nat (maxLength - 3)) title)
           title = true
      /\ strlen (truncateTitle title (Some maxLength)) = Z.max 3 maxLength)
  /\ (3 <= maxLength ->
      strlen (truncateTitle title (Some maxLength)) <= maxLength
      /\ truncateTitle (truncateTitle title (Some maxLength)) (Some maxLength)
         = truncateTitle title (Some maxLength)).
Proof.
  assert (maxLength < strlen title ->
          truncateTitle title (Some maxLength)
          = (String.substring 0 (Z.to_nat (maxLength - 3)) title ++ "...")%string
          /\ strlen (truncateTitle title (Some maxLength)) = Z.max 3 maxLength)
    as Hlong.
  { intros Hlt. unfold truncateTitle.
    replace (strlen title <=? maxLength) with false
      by (symmetry; apply Z.leb_gt; exact Hlt).
    split; [reflexivity|]. rewrite strlen_app. change (strlen "...") with 3.
    unfold strlen in *.
    rewrite length_substring_prefix by lia. lia. }
  assert (strlen title <= maxLength ->
          truncateTitle title (Some maxLength) = title) as Hshort.
  { intros Hle. unfold truncateTitle.
    replace (strlen title <=? maxLength) with true
      by (symmetry; apply Z.leb_le; exact Hle). reflexivity. }
  split; [reflexivity|]. split; [exact Hshort|]. split.
  - intros Hlt. destruct (Hlong Hlt) as [H1 H2].
    split; [exact H1|]. split; [apply prefix_substring|exact H2].
  - intros H3. destruct (Z_le_gt_dec (strlen title) maxLength) as [Hle|Hgt].
    + rewrite (Hshort Hle). split; [exact Hle|apply (Hshort Hle)].
    + destruct (Hlong ltac:(lia)) as [H1 H2]. split; [lia|].
      unfold truncateTitle at 1.
      replace (strlen (truncateTitle title (Some maxLength)) <=? maxLength)
        with true by (symmetry; apply Z.leb_le; lia).
      reflexivity.
Qed.

(** *** The sentiment of a text *)

Lemma scoreOf_from (words : list string) (lower : string) :
  forall score : Z,
    fold_left
      (fun score word => if includes word lower then score + 1 else score)
      words score
    = score + scoreOf words lower.
Proof.
  unfold scoreOf. induction words as [|w rest IH]; intros score; cbn [fold_left].
  - lia.
  - rewrite IH. rewrite (IH (if includes w lower then 0 + 1 else 0)).
    destruct (includes w lower); lia.
Qed.

Lemma scoreOf_mentions (words : list string) (lower : string) :
  0 <= scoreOf words lower
  /\ (scoreOf words lower >? 0) = mentions words lower.
Proof.
  induction words as [|w rest IH]; [split; [reflexivity|reflexivity]|].
  destruct IH as [H0 Hm]. unfold scoreOf in *. cbn [fold_left mentions existsb].
  rewrite scoreOf_from. fold (mentions rest lower). rewrite <- Hm.
  unfold scoreOf. destruct (includes w lower); cbn [orb].
  - split; [lia|]. rewrite Z.gtb_ltb. apply Z.ltb_lt. lia.
  - split; [lia|]. reflexivity.
Qed.

(** X24. The sentiment of a text depends only on whether a positive word
    occurs in it and whether a negative word does, not on how many occur:
    mixed when both do, positive or negative when one does, neutral when
    none does.  The case of the letters of the text does not matter. *)
Theorem analyzeSentiment_depends_on_presence (text : string) :
  analyzeSentiment text
  = match mentions positiveWords (toLowerCase text),
          mentions negativeWords (toLowerCase text) with
    | true, true => Mixed
    | true, false => Positive
    | false, true => Negative
    | false, false => Neutral
    end
  /\ analyzeSentiment (toLowerCase text) = analyzeSentiment text.
Proof.
  split.
  - unfold analyzeSentiment.
    destruct (scoreOf_mentions positiveWords (toLowerCase text)) as [Hp0 Hp].
    destruct (scoreOf_mentions negativeWords (toLowerCase text)) as [Hn0 Hn].
    rewrite Hp, Hn.
    destruct (mentions positiveWords (toLowerCase text));
      destruct (mentions negativeWords (toLowerCase text)); cbn [andb];
      rewrite Z.gtb_ltb in Hp, Hn;
      try apply Z.ltb_lt in Hp; try apply Z.ltb_ge in Hp;
      try apply Z.ltb_lt in Hn; try apply Z.ltb_ge in Hn.
    + reflexivity.
    + replace (scoreOf positiveWords (toLowerCase text)
               >? scoreOf negativeWords (toLowerCase text)) with true;
        [reflexivity|].
      symmetry. rewrite Z.gtb_ltb. apply Z.ltb_lt. lia.
    + replace (scoreOf positiveWords (toLowerCase text)
               >? scoreOf negativeWords (toLowerCase text)) with false
        by (symmetry; rewrite Z.gtb_ltb; apply Z.ltb_ge; lia).
      replace (scoreOf negativeWords (toLowerCase text)
               >? scoreOf positiveWords (toLowerCase text)) with true;
        [reflexivity|].
      symmetry. rewrite Z.gtb_ltb. apply Z.ltb_lt. lia.
    + replace (scoreOf positiveWords (toLowerCase text)
               >? scoreOf negativeWords (toLowerCase text)) with false
        by (symmetry; rewrite Z.gtb_ltb; apply Z.ltb_ge; lia).
      replace (scoreOf negativeWords (toLowerCase text)
               >? scoreOf positiveWords (toLowerCase text)) with false;
        [reflexivity|].
      symmetry. rewrite Z.gtb_ltb. apply Z.ltb_ge. lia.
  - unfold analyzeSentiment. rewrite toLowerCase_toLowerCase. reflexivity.
Qed.

(** *** Sets in insertion order *)

Lemma setAdd_In (x y : string) (set : list string) :
  In y (setAdd x set) <-> In y set \/ y = x.
Proof.
  unfold setAdd. destruct (existsb (String.eqb x) set) eqn:E.
  - split; [auto|]. intros [H| ->]; [exact H|].
    apply existsb_exists in E. destruct E as (z & Hz & Heq).
    apply String.eqb_eq in Heq. subst z. exact Hz.
  - rewrite in_app_iff. cbn [In]. split.
    + intros [H|[H|[]]]; auto.
    + intros [H|H]; auto.
Qed.

Lemma setAdd_NoDup (x : string) (set : list string) :
  NoDup set -> NoDup (setAdd x set).
Proof.
  intros Hnd. unfold setAdd. destruct (existsb (String.eqb x) set) eqn:E;
    [exact Hnd|].
  apply NoDup_app; [exact Hnd|repeat constructor; intros []|].
  intros y Hy [Heq|[]]. subst y.
  assert (existsb (String.eqb x) set = true) as H.
  { apply existsb_exists. exists x. split; [exact Hy|apply String.eqb_refl]. }
  congruence.
Qed.

Lemma fold_setAdd (words : list string) :
  forall set : list string,
    (NoDup set -> NoDup (fold_left (fun set w => setAdd w set) words set))
    /\ forall y, In y (fold_left (fun set w => setAdd w set) words set)
                 <-> In y set \/ In y words.
Proof.
  induction words as [|w rest IH]; intros set; cbn [fold_left].
  - split; [auto|]. intros y. cbn [In]. tauto.
  - destruct (IH (setAdd w set)) as [Hnd Hin]. split.
    + intros H. apply Hnd, setAdd_NoDup, H.
    + intros y. rewrite Hin, setAdd_In. cbn [In]. split.
      * intros [[H|H]|H]; auto.
      * intros [H|[H|H]]; auto.
Qed.

(** *** The pieces of [split] *)

Lemma splitSpaces_pieces (s : string) :
  forall (word : string) (inRun : bool),
    everyChar notSpace word = true ->
    Forall (fun piece => everyChar notSpace piece = true)
      (splitSpaces s word inRun).
Proof.
  induction s as [|c s IH]; intros word inRun Hw; cbn [splitSpaces].
  - repeat constructor. exact Hw.
  - destruct (isWhiteSpace c) eqn:Ec.
    + destruct inRun; [apply IH; reflexivity|].
      constructor; [exact Hw|apply IH; reflexivity].
    + apply IH. rewrite everyChar_app, Hw. cbn [everyChar].
      unfold notSpace at 1. rewrite Ec. reflexivity.
Qed.

Lemma everyChar_toLowerCase_fixed (s : string) :
  toLowerCase (toLowerCase s) = toLowerCase s.
Proof. apply toLowerCase_toLowerCase. Qed.

(** The pieces of a text in small letters are in small letters. *)
Lemma splitSpaces_lower (s : string) :
  forall (word : string) (inRun : bool),
    toLowerCase s = s -> toLowerCase word = word ->
    Forall (fun piece => toLowerCase piece = piece) (splitSpaces s word inRun).
Proof.
  induction s as [|c s IH]; intros word inRun Hs Hw; cbn [splitSpaces].
  - repeat constructor. exact Hw.
  - unfold toLowerCase in Hs. cbn [mapString] in Hs. injection Hs as Hc Hs.
    destruct (isWhiteSpace c).
    + destruct inRun; [apply IH; [exact Hs|reflexivity]|].
      constructor; [exact Hw|apply IH; [exact Hs|reflexivity]].
    + apply IH; [exact Hs|]. rewrite toLowerCase_app, Hw.
      unfold toLowerCase at 1. cbn [mapString]. rewrite Hc. reflexivity.
Qed.

(** Every common word has three letters at most, so the test of the length
    leaves none. *)
Lemma long_words_are_not_common (word : string) :
  (strlen word >? 3) = true -> existsb (String.eqb word) commonWords = false.
Proof.
  intros Hlen. apply not_true_is_false. intros H.
  apply existsb_exists in H. destruct H as (w & Hw & Heq).
  apply String.eqb_eq in Heq. subst w.
  cbn [commonWords In] in Hw.
  repeat (destruct Hw as [<-|Hw]; [discriminate Hlen|]). destruct Hw.
Qed.

Lemma topicWords_spec (post : RedditPost) :
  topicWords post
  = firstn 2 (filter (fun word => strlen word >? 3)
                (splitSpaces (toLowerCase (title post)) EmptyString false))
  /\ (List.length (topicWords post) <= 2)%nat
  /\ Forall (fun word =>
               4 <= strlen word
               /\ everyChar notSpace word = true
               /\ toLowerCase word = word
               /\ In word (splitSpaces (toLowerCase (title post))
                             EmptyString false))
       (topicWords post).
Proof.
  assert (topicWords post
          = firstn 2 (filter (fun word => strlen word >? 3)
                        (splitSpaces (toLowerCase (title post))
                           EmptyString false))) as E.
  { unfold topicWords. f_equal. apply filter_ext. intros word.
    destruct (strlen word >? 3) eqn:El; [|reflexivity].
    rewrite (long_words_are_not_common word El). reflexivity. }
  split; [exact E|]. split; [rewrite E; apply firstn_le_length|].
  rewrite E. apply Forall_forall. intros word Hin.
  apply In_firstn in Hin. apply filter_In in Hin.
  destruct Hin as [Hin Hlen]. rewrite Z.gtb_ltb in Hlen. apply Z.ltb_lt in Hlen.
  pose proof (splitSpaces_pieces (toLowerCase (title post)) EmptyString false
                eq_refl) as Hp.
  pose proof (splitSpaces_lower (toLowerCase (title post)) EmptyString false
                (toLowerCase_toLowerCase _) eq_refl) as Hl.
  rewrite Forall_forall in Hp, Hl. repeat split; auto. lia.
Qed.

Lemma topics_fold (posts : list RedditPost) :
  forall topics : list string,
    (NoDup topics ->
     NoDup (fold_left
              (fun topics post =>
                 fold_left (fun topics word => setAdd word topics)
                   (topicWords post) topics)
              posts topics))
    /\ forall y,
         In y (fold_left
                 (fun topics post =>
                    fold_left (fun topics word => setAdd word topics)
                      (topicWords post) topics)
                 posts topics)
         <-> In y topics \/ exists post, In post posts /\ In y (topicWords post).
Proof.
  induction posts as [|post rest IH]; intros topics; cbn [fold_left].
  - split; [auto|]. intros y. cbn [In]. split; [auto|].
    intros [H|(post & [] & _)]. exact H.
  - destruct (IH (fold_left (fun topics word => setAdd word topics)
                    (topicWords post) topics)) as [Hnd Hin].
    destruct (fold_setAdd (topicWords post) topics) as [Hnd' Hin'].
    split; [auto|]. intros y. rewrite Hin, Hin'. cbn [In]. split.
    + intros [[H|H]|(p & Hp & Hy)].
      * left. exact H.
      * right. exists post. auto.
      * right. exists p. auto.
    + intros [H|(p & [Hp|Hp] & Hy)].
      * left. left. exact H.
      * subst p. left. right. exact Hy.
      * right. exists p. auto.
Qed.

(** X25. [extractTopics] gives at most five topics, all different.  Each
    is one of the first two words of more than three characters of a
    title in small letters, so it has four characters or more, none of
    them white space.  The list of common words filters nothing: every
    common word has at most three characters. *)
Theorem extractTopics_gives_few_distinct_words (posts : list RedditPost) :
  (List.length (extractTopics posts) <= 5)%nat
  /\ NoDup (extractTopics posts)
  /\ Forall (fun topic =>
               4 <= strlen topic
               /\ everyChar notSpace topic = true
               /\ toLowerCase topic = topic
               /\ exists post,
                    In post posts
                    /\ In topic
                         (firstn 2
                            (filter (fun word => strlen word >? 3)
                               (splitSpaces (toLowerCase (title post))
                                  EmptyString false))))
       (extractTopics posts)
  /\ (forall word : string,
        (strlen word >? 3) = true ->
        existsb (String.eqb word) commonWords = false).
Proof.
  unfold extractTopics.
  destruct (topics_fold posts []) as [Hnd Hin].
  split; [apply firstn_le_length|]. split; [|split].
  - specialize (Hnd (NoDup_nil _)).
    rewrite <- (firstn_skipn 5) in Hnd. apply NoDup_app_remove_r in Hnd.
    exact Hnd.
  - apply Forall_forall. intros topic Ht. apply In_firstn in Ht.
    apply Hin in Ht. destruct Ht as [[]|(post & Hp & Hy)].
    destruct (topicWords_spec post) as (E & _ & Hall).
    rewrite Forall_forall in Hall. destruct (Hall topic Hy) as (H1 & H2 & H3 & _).
    repeat split; try assumption. exists post. split; [exact Hp|].
    rewrite <- E. exact Hy.
  - exact long_words_are_not_common.
Qed.

(** *** The interests of a user *)

Lemma categories_fold (lower : string) (entries : list (string * list string)) :
  forall interests : list string,
    (NoDup interests ->
     NoDup (fold_left
              (fun interests entry =>
                 if existsb (fun keyword => includes keyword lower) (snd entry)
                 then setAdd (fst entry) interests
                 else interests)
              entries interests))
    /\ forall y,
         In y (fold_left
                 (fun interests entry =>
                    if existsb (fun keyword => includes keyword lower) (snd entry)
                    then setAdd (fst entry) interests
                    else interests)
                 entries interests)
         <-> In y interests
             \/ exists entry,
                  In entry entries /\ fst entry = y
                  /\ mentions (snd entry) lower = true.
Proof.
  induction entries as [|entry rest IH]; intros interests; cbn [fold_left].
  - split; [auto|]. intros y. split; [auto|].
    intros [H|(e & [] & _)]. exact H.
  - fold (mentions (snd entry) lower).
    destruct (IH (if mentions (snd entry) lower
                  then setAdd (fst entry) interests else interests))
      as [Hnd Hin].
    split.
    + intros H. apply Hnd. destruct (mentions (snd entry) lower);
        [apply setAdd_NoDup|]; exact H.
    + intros y. rewrite Hin. cbn [In].
      destruct (mentions (snd entry) lower) eqn:E.
      * rewrite setAdd_In. split.
        -- intros [[H|H]|(e & He & Hy & Hm)].
           ++ left. exact H.
           ++ right. exists entry. auto.
           ++ right. exists e. auto.
        -- intros [H|(e & [He|He] & Hy & Hm)].
           ++ left. left. exact H.
           ++ subst e. left. right. symmetry. exact Hy.
           ++ right. exists e. auto.
      * split.
        -- intros [H|(e & He & Hy & Hm)].
           ++ left. exact H.
           ++ right. exists e. auto.
        -- intros [H|(e & [He|He] & Hy & Hm)].
           ++ left. exact H.
           ++ subst e. congruence.
           ++ right. exists e. auto.
Qed.

Lemma interests_fold (subreddits : list string) :
  forall interests : list string,
    (NoDup interests ->
     NoDup (fold_left
              (fun interests sub =>
                 let lower := toLowerCase sub in
                 fold_left
                   (fun interests entry =>
                      if existsb (fun keyword => includes keyword lower)
                           (snd entry)
                      then setAdd (fst entry) interests
                      else interests)
                   categoryMap interests)
              subreddits interests))
    /\ forall y,
         In y (fold_left
                 (fun interests sub =>
                    let lower := toLowerCase sub in
                    fold_left
                      (fun interests entry =>
                         if existsb (fun keyword => includes keyword lower)
                              (snd entry)
                         then setAdd (fst entry) interests
                         else interests)
                      categoryMap interests)
                 subreddits interests)
         <-> In y interests
             \/ exists sub entry,
                  In sub subreddits /\ In entry categoryMap /\ fst entry = y
                  /\ mentions (snd entry) (toLowerCase sub) = true.
Proof.
  induction subreddits as [|sub rest IH]; intros interests; cbn [fold_left].
  - split; [auto|]. intros y. split; [auto|].
    intros [H|(s & e & [] & _)]. exact H.
  - destruct (categories_fold (toLowerCase sub) categoryMap interests)
      as [Hnd' Hin'].
    destruct (IH (fold_left
                    (fun interests entry =>
                       if existsb (fun keyword => includes keyword (toLowerCase sub))
                            (snd entry)
                       then setAdd (fst entry) interests
                       else interests)
                    categoryMap interests)) as [Hnd Hin].
    split; [auto|]. intros y. rewrite Hin, Hin'. cbn [In]. split.
    + intros [[H|(e & He & Hy & Hm)]|(s & e & Hs & He & Hy & Hm)].
      * left. exact H.
      * right. exists sub, e. auto.
      * right. exists s, e. auto.
    + intros [H|(s & e & [Hs|Hs] & He & Hy & Hm)].
      * left. left. exact H.
      * subst s. left. right. exists e. auto.
      * right. exists s, e. auto.
Qed.

(** X26. [detectInterests] reports a category exactly when the name of
    some subreddit, in small letters, contains one of the keywords of the
    category; it reports each category once, so at most the eight there
    are. *)
Theorem detectInterests_reports_matching_categories
  (subreddits : list string) :
  NoDup (detectInterests subreddits)
  /\ (List.length (detectInterests subreddits) <= 8)%nat
  /\ forall (category : string) (keywords : list string),
       In (category, keywords) categoryMap ->
       (In category (detectInterests subreddits)
        <-> exists sub,
              In sub subreddits
              /\ mentions keywords (toLowerCase sub) = true).
Proof.
  unfold detectInterests.
  destruct (interests_fold subreddits []) as [Hnd Hin].
  specialize (Hnd (NoDup_nil _)).
  split; [exact Hnd|]. split.
  - change 8%nat with (List.length (map fst categoryMap)).
    apply NoDup_incl_length; [exact Hnd|].
    intros y Hy. apply Hin in Hy.
    destruct Hy as [[]|(s & e & _ & He & <- & _)]. apply in_map. exact He.
  - intros category keywords Hc. rewrite Hin. split.
    + intros [[]|(s & [c ks] & Hs & He & Hy & Hm)]. cbn [fst snd] in *. subst c.
      exists s. split; [exact Hs|].
      assert (ks = keywords) as <-; [|exact Hm].
      clear - He Hc. cbn [categoryMap In] in He, Hc.
      repeat (destruct He as [He|He];
              [injection He as <- <-;
               repeat (destruct Hc as [Hc|Hc];
                       [first [injection Hc as <-; reflexivity
                              |discriminate Hc]|]);
               destruct Hc|]).
      destruct He.
    + intros (s & Hs & Hm). right. exists s, (category, keywords). auto.
Qed.

End ContentProcessorFacts.
